(** * The hover-scrub image carousel of [static_dev/js/carousel.js]

    A shallow embedding of [window.initCarousels] and of the closures it
    creates ([loadImages], [updateCarousel] and the event listeners), followed
    by the properties the specification states about them.

    Modelling conventions.
    - The DOM is kept as far as the script looks at it: a page is the list of
      its carousel containers (the elements carrying [data-carousel]) in
      document order; a container records its attributes, the card found by
      [closest('.card')] with the dot elements of that card, and the
      descendants that carry [data-carousel-image].  No card is shared by two
      containers.
    - The closure variables of one run of the [forEach] body form a [Closure];
      listeners name the closure they were registered by.
    - Indices and counts are integers, in [Z].  A pixel coordinate is the
      rational its double stands for, in [Q], and the arithmetic on
      coordinates rounds as binary64 does: to the nearest number of 53
      significant bits, the even one at a tie.  The exponent range is taken
      as unbounded: coordinates are nowhere near the largest or the smallest
      double.  [Math.floor] is [Qfloor].
    - [JSON.parse] is a parameter of the development; [parseInt] and the
      white-space clean-up are written out for ASCII white space. *)

From Stdlib Require Import ZArith QArith Qround Qabs Lia Ascii String.
From stdpp Require Import base option list sets strings pretty.
Close Scope Q_scope.
Open Scope Z_scope.
Set Warnings "-register-all,-clear-no-such-hyp".

(** ** JavaScript values and completions *)

(** The values [JSON.parse] can return. *)
Inductive JSValue : Type :=
| JNull
| JBool (b : bool)
| JNum (q : Q)
| JStr (s : string)
| JArr (l : list JSValue)
| JObj (fields : list (string * JSValue)).

Inductive JSError : Type := TypeError | SyntaxError.

(** A statement either completes normally or throws. *)
Inductive Completion (A : Type) : Type :=
| Normal (a : A)
| Throw (e : JSError).
Arguments Normal {A} a.
Arguments Throw {A} e.

Definition bindC {A B} (m : Completion A) (f : A -> Completion B) : Completion B :=
  match m with
  | Normal a => f a
  | Throw e => Throw e
  end.

(** [ToBoolean]. *)
Definition truthy (v : JSValue) : bool :=
  match v with
  | JNull => false
  | JBool b => b
  | JNum q => negb (Qeq_bool q 0)
  | JStr s => negb (String.eqb s EmptyString)
  | JArr _ | JObj _ => true
  end.

(** [v !== ''] *)
Definition strict_ne_empty (v : JSValue) : bool :=
  match v with
  | JStr EmptyString => false
  | _ => true
  end.

(** The callback [url => url && url !== ''], read as a filter predicate. *)
Definition keep_url (url : JSValue) : bool :=
  if truthy url then strict_ne_empty url else false.

(** ** Strings: white space, [trim], [parseInt] *)

Definition is_white_space (a : ascii) : bool :=
  let n := nat_of_ascii a in
  ((9 <=? n) && (n <=? 13))%nat || (n =? 32)%nat.

(** [s.replace(/\s+/g, ' ')]: every maximal run of white space becomes one
    space.  [in_run] tells that the previous character was white space. *)
Fixpoint collapse_spaces (in_run : bool) (s : string) : string :=
  match s with
  | EmptyString => EmptyString
  | String a s' =>
      if is_white_space a
      then (if in_run then collapse_spaces true s'
            else String " "%char (collapse_spaces true s'))
      else String a (collapse_spaces false s')
  end.

Fixpoint trimStart (s : string) : string :=
  match s with
  | EmptyString => EmptyString
  | String a s' => if is_white_space a then trimStart s' else s
  end.

Fixpoint trimEnd (s : string) : string :=
  match s with
  | EmptyString => EmptyString
  | String a s' =>
      match trimEnd s' with
      | EmptyString => if is_white_space a then EmptyString else String a EmptyString
      | t => String a t
      end
  end.

Definition trim (s : string) : string := trimEnd (trimStart s).

Definition digit_of (a : ascii) : option Z :=
  let n := nat_of_ascii a in
  if ((48 <=? n) && (n <=? 57))%nat then Some (Z.of_nat n - 48) else None.

(** The longest prefix of decimal digits, as a number; [None] when the prefix
    is empty. *)
Fixpoint digits_prefix (acc : option Z) (s : string) : option Z :=
  match s with
  | EmptyString => acc
  | String a s' =>
      match digit_of a with
      | Some d => digits_prefix (Some (10 * default 0 acc + d)) s'
      | None => acc
      end
  end.

(** [parseInt(s, 10)]; [None] is [NaN]. *)
Definition parseInt (s : string) : option Z :=
  match trimStart s with
  | String "-"%char r => Z.opp <$> digits_prefix None r
  | String "+"%char r => digits_prefix None r
  | r => digits_prefix None r
  end.

(** [ToString] of a [dataset] entry: a missing attribute reads [undefined]. *)
Definition ToString (o : option string) : string :=
  match o with
  | Some s => s
  | None => "undefined"
  end.

(** [parseInt(x, 10) || 1] *)
Definition parseInt_or_1 (o : option string) : Z :=
  match parseInt (ToString o) with
  | None => 1
  | Some 0 => 1
  | Some n => n
  end.

(** ** [DOMTokenList] *)

Definition contains (token : string) (cl : list string) : bool :=
  bool_decide (token ∈ cl).

Definition add (token : string) (cl : list string) : list string :=
  if contains token cl then cl else cl ++ [token].

Definition remove (token : string) (cl : list string) : list string :=
  filter (fun t => t ≠ token) cl.

(** Replacement within an ordered set: the first occurrence of either token
    becomes [newToken], every other occurrence of either goes. *)
Fixpoint replace_in_set (token newToken : string) (cl : list string) : list string :=
  match cl with
  | [] => []
  | t :: r =>
      if bool_decide (t = token ∨ t = newToken)
      then newToken :: filter (fun u => ¬ (u = token ∨ u = newToken)) r
      else t :: replace_in_set token newToken r
  end.

(** [classList.replace(token, newToken)]: nothing happens unless [token] is
    there. *)
Definition replace (token newToken : string) (cl : list string) : list string :=
  if contains token cl then replace_in_set token newToken cl else cl.


(** ** The DOM as the script sees it *)

(** An element carrying [data-carousel-image]: the primary image of the
    markup, or one inserted by [loadImages]. *)
Record Img : Type := {
  img_data_carousel_image : string;
  img_src : JSValue;
  img_alt : string;
  img_classList : list string
}.

(** An indicator dot ([data-dot-index]).  [dot_click] lists its click
    listeners in registration order: the closure a listener belongs to and
    the [index] it captured. *)
Record Dot : Type := {
  dot_classList : list string;
  dot_display : option string;
  dot_click : list (nat * nat)
}.

(** The variables one run of the [forEach] body closes over. *)
Record Closure : Type := {
  imagesUrl : list JSValue;
  totalImages : Z;
  currentIndex : Z;
  imagesLoaded : bool;
  isProcessing : bool
}.

(** Listeners registered on the container itself. *)
Inductive Listener : Type :=
| mouseenter (k : nat)
| mousemove (k : nat)
| mouseleave (k : nat).

Record MouseEvent : Type := {
  clientX : Q;
  (** [e.target.closest('.group\\/fire')] is not null *)
  target_in_fire : bool
}.

(** What [getBoundingClientRect] returns, as far as it is read. *)
Record DOMRect : Type := {
  rect_left : Q;
  rect_width : Q
}.

(** A carousel container.  [card] is [None] when [closest('.card')] finds
    nothing; otherwise it lists the [data-dot-index] elements under the
    card's [data-carousel-dots] element (none when the card has no such
    element).  [animationFrames] is the queue of callbacks handed to
    [requestAnimationFrame]: the closure and the event each one captured. *)
Record Carousel : Type := {
  data_initialized : option string;
  data_images : option string;
  data_totalImages : option string;
  card : option (list Dot);
  images : list Img;
  listeners : list Listener;
  closures : list Closure;
  animationFrames : list (nat * MouseEvent)
}.

Definition set_initialized (v : string) (c : Carousel) : Carousel :=
  {| data_initialized := Some v; data_images := data_images c;
     data_totalImages := data_totalImages c; card := card c;
     images := images c; listeners := listeners c; closures := closures c;
     animationFrames := animationFrames c |}.

Definition set_card (d : option (list Dot)) (c : Carousel) : Carousel :=
  {| data_initialized := data_initialized c; data_images := data_images c;
     data_totalImages := data_totalImages c; card := d;
     images := images c; listeners := listeners c; closures := closures c;
     animationFrames := animationFrames c |}.

Definition set_images (l : list Img) (c : Carousel) : Carousel :=
  {| data_initialized := data_initialized c; data_images := data_images c;
     data_totalImages := data_totalImages c; card := card c;
     images := l; listeners := listeners c; closures := closures c;
     animationFrames := animationFrames c |}.

Definition set_listeners (l : list Listener) (c : Carousel) : Carousel :=
  {| data_initialized := data_initialized c; data_images := data_images c;
     data_totalImages := data_totalImages c; card := card c;
     images := images c; listeners := l; closures := closures c;
     animationFrames := animationFrames c |}.

Definition set_closures (l : list Closure) (c : Carousel) : Carousel :=
  {| data_initialized := data_initialized c; data_images := data_images c;
     data_totalImages := data_totalImages c; card := card c;
     images := images c; listeners := listeners c; closures := l;
     animationFrames := animationFrames c |}.

Definition set_animationFrames (l : list (nat * MouseEvent)) (c : Carousel) : Carousel :=
  {| data_initialized := data_initialized c; data_images := data_images c;
     data_totalImages := data_totalImages c; card := card c;
     images := images c; listeners := listeners c; closures := closures c;
     animationFrames := l |}.

Definition set_currentIndex (i : Z) (cl : Closure) : Closure :=
  {| imagesUrl := imagesUrl cl; totalImages := totalImages cl;
     currentIndex := i; imagesLoaded := imagesLoaded cl;
     isProcessing := isProcessing cl |}.

Definition set_imagesLoaded (b : bool) (cl : Closure) : Closure :=
  {| imagesUrl := imagesUrl cl; totalImages := totalImages cl;
     currentIndex := currentIndex cl; imagesLoaded := b;
     isProcessing := isProcessing cl |}.

Definition set_isProcessing (b : bool) (cl : Closure) : Closure :=
  {| imagesUrl := imagesUrl cl; totalImages := totalImages cl;
     currentIndex := currentIndex cl; imagesLoaded := imagesLoaded cl;
     isProcessing := b |}.

Definition img_classList_apply (f : list string -> list string) (im : Img) : Img :=
  {| img_data_carousel_image := img_data_carousel_image im; img_src := img_src im;
     img_alt := img_alt im; img_classList := f (img_classList im) |}.

Definition dot_classList_apply (f : list string -> list string) (d : Dot) : Dot :=
  {| dot_classList := f (dot_classList d); dot_display := dot_display d;
     dot_click := dot_click d |}.

Definition dot_set_display (v : string) (d : Dot) : Dot :=
  {| dot_classList := dot_classList d; dot_display := Some v;
     dot_click := dot_click d |}.

Definition dot_addEventListener_click (h : nat * nat) (d : Dot) : Dot :=
  {| dot_classList := dot_classList d; dot_display := dot_display d;
     dot_click := dot_click d ++ [h] |}.

(** [dotElements]: the empty list when there is no card. *)
Definition dotElements (c : Carousel) : list Dot := default [] (card c).

(** An update of [dotElements[i]]; nothing happens when that is [undefined]. *)
Definition alter_dot (i : Z) (f : Dot -> Dot) (c : Carousel) : Carousel :=
  if i <? 0 then c else set_card (alter f (Z.to_nat i) <$> card c) c.

Definition alter_image (pos : nat) (f : Img -> Img) (c : Carousel) : Carousel :=
  set_images (alter f pos (images c)) c.

Definition alter_closure (k : nat) (f : Closure -> Closure) (c : Carousel) : Carousel :=
  set_closures (alter f k (closures c)) c.

(** [carousel.querySelector(`[data-carousel-image="${i}"]`)]: the first match
    in document order, with its position among [images]. *)
Definition querySelector_image (i : Z) (c : Carousel) : option (nat * Img) :=
  list_find (fun im => img_data_carousel_image im = pretty i) (images c).

(** ** The closures of one carousel *)

Definition inserted_className : list string :=
  ["absolute"; "w-full"; "h-full"; "object-cover"; "transition-all";
   "duration-200"; "z-0"].

(** The element one loop iteration of [loadImages] builds. *)
Definition createImg (i : Z) (url : JSValue) : Img :=
  {| img_data_carousel_image := pretty i; img_src := url; img_alt := "Preview";
     img_classList := inserted_className |}.

Definition appendChild (im : Img) (c : Carousel) : Carousel :=
  set_images (images c ++ [im]) c.

(** The loop [for (; i < imagesUrl.length; i++)], [rest] being [imagesUrl]
    from index [i] on. *)
Fixpoint loadImages_loop (i : Z) (rest : list JSValue) (c : Carousel) : Carousel :=
  match rest with
  | [] => c
  | url :: rest' => loadImages_loop (i + 1) rest' (appendChild (createImg i url) c)
  end.

Definition loadImages (k : nat) (c : Carousel) : Carousel :=
  match closures c !! k with
  | None => c
  | Some cl =>
      if imagesLoaded cl then c
      else alter_closure k (set_imagesLoaded true)
             (loadImages_loop 1 (drop 1 (imagesUrl cl)) c)
  end.

(** [classList.replace('z-10', 'z-0')] on an image and
    [classList.replace('bg-black', 'bg-black/20')] on a dot, and the reverse
    pair. *)
Definition demote_image : Img -> Img := img_classList_apply (replace "z-10" "z-0").
Definition demote_dot : Dot -> Dot := dot_classList_apply (replace "bg-black" "bg-black/20").
Definition promote_image : Img -> Img := img_classList_apply (replace "z-0" "z-10").
Definition promote_dot : Dot -> Dot := dot_classList_apply (replace "bg-black/20" "bg-black").

(** The statement [if (!imagesLoaded && newIndex > 0) loadImages()] of
    [updateCarousel]. *)
Definition forced_load (k : nat) (cl : Closure) (newIndex : Z) (c : Carousel) : Carousel :=
  if negb (imagesLoaded cl) && (newIndex >? 0) then loadImages k c else c.

Definition updateCarousel (k : nat) (newIndex : Z) (c : Carousel) : Carousel :=
  match closures c !! k with
  | None => c
  | Some cl =>
      if (newIndex =? currentIndex cl) || (newIndex <? 0)
         || (newIndex >=? totalImages cl)
      then c
      else
        let c1 := forced_load k cl newIndex c in
        let currentImg := querySelector_image (currentIndex cl) c1 in
        let nextImg := querySelector_image newIndex c1 in
        let c2 := match currentImg with
                  | Some (pos, _) =>
                      alter_dot (currentIndex cl) demote_dot
                        (alter_image pos demote_image c1)
                  | None => c1
                  end in
        let c3 := match nextImg with
                  | Some (pos, _) =>
                      alter_dot newIndex promote_dot
                        (alter_image pos promote_image c2)
                  | None => c2
                  end in
        alter_closure k (set_currentIndex newIndex) c3
  end.

(** *** Listeners *)

Definition on_mouseenter (k : nat) (c : Carousel) : Carousel := loadImages k c.

(** The click listener of the dot at [index]; [preventDefault] has no effect
    on the state kept here. *)
Definition on_click (k index : nat) (c : Carousel) : Carousel :=
  updateCarousel k (Z.of_nat index) (loadImages k c).

Definition requestAnimationFrame (k : nat) (e : MouseEvent) (c : Carousel) : Carousel :=
  set_animationFrames (animationFrames c ++ [(k, e)]) c.

Definition on_mousemove (k : nat) (e : MouseEvent) (c : Carousel) : Carousel :=
  match closures c !! k with
  | None => c
  | Some cl =>
      if target_in_fire e then c
      else if isProcessing cl then c
      else requestAnimationFrame k e (alter_closure k (set_isProcessing true) c)
  end.

(** The integer nearest to [q], the even one of the two when [q] lies
    halfway. *)
Definition round_half_even (q : Q) : Z :=
  let f := Qfloor q in
  match (q - inject_Z f ?= 1 # 2)%Q with
  | Lt => f
  | Gt => f + 1
  | Eq => if Z.even f then f else f + 1
  end.

(** The exponent [e] at which [q], not zero, has 53 significant bits:
    [2^52 <= |q| / 2^e < 2^53]. *)
Definition binade (q : Q) : Z :=
  let e := Z.log2 (Z.abs (Qnum q)) - Z.log2 (Zpos (Qden q)) - 52 in
  if Qle_bool (2 ^ 52) (Qabs q / 2 ^ e) then e else e - 1.

(** The double nearest to [q]: what an arithmetic operation of the script
    yields when [q] is its exact result. *)
Definition binary64 (q : Q) : Q :=
  let q := Qred q in
  if Qeq_bool q 0 then 0%Q
  else (inject_Z (round_half_even (q / 2 ^ binade q)) * 2 ^ binade q)%Q.

(** [Math.max(0, Math.min(zoneIndex, totalImages - 1))] for the event at
    [clientX] and the rectangle read in the frame callback. *)
Definition safeIndex (total : Z) (rect : DOMRect) (e : MouseEvent) : Z :=
  let zoneWidth := binary64 (rect_width rect / inject_Z total) in
  let relativeX := binary64 (clientX e - rect_left rect) in
  let zoneIndex := Qfloor (binary64 (relativeX / zoneWidth)) in
  Z.max 0 (Z.min zoneIndex (total - 1)).

(** The callback handed to [requestAnimationFrame]. *)
Definition frame_callback (k : nat) (e : MouseEvent) (rect : DOMRect) (c : Carousel) : Carousel :=
  match closures c !! k with
  | None => c
  | Some cl =>
      if Qeq_bool (rect_width rect) 0
      then alter_closure k (set_isProcessing false) c
      else alter_closure k (set_isProcessing false)
             (updateCarousel k (safeIndex (totalImages cl) rect e) c)
  end.

Definition on_mouseleave (k : nat) (c : Carousel) : Carousel := updateCarousel k 0 c.

(** *** Events reaching a container *)

Inductive Event : Type :=
| MouseEnter
| MouseMove (e : MouseEvent)
| MouseLeave
| Click (dot : nat)
| AnimationFrame (rect : DOMRect).

(** Every listener registered for the event runs, in registration order.  An
    animation frame runs the oldest queued callback. *)
Definition dispatch (ev : Event) (c : Carousel) : Carousel :=
  match ev with
  | MouseEnter =>
      fold_left (fun c l => match l with mouseenter k => on_mouseenter k c | _ => c end)
        (listeners c) c
  | MouseMove e =>
      fold_left (fun c l => match l with mousemove k => on_mousemove k e c | _ => c end)
        (listeners c) c
  | MouseLeave =>
      fold_left (fun c l => match l with mouseleave k => on_mouseleave k c | _ => c end)
        (listeners c) c
  | Click d =>
      match dotElements c !! d with
      | Some dot => fold_left (fun c h => on_click h.1 h.2 c) (dot_click dot) c
      | None => c
      end
  | AnimationFrame rect =>
      match animationFrames c with
      | [] => c
      | (k, e) :: rest => frame_callback k e rect (set_animationFrames rest c)
      end
  end.

(** ** Initialisation *)

Definition LogEntry : Type := string * JSError.

Record Page : Type := {
  containers : list Carousel;
  console : list LogEntry
}.

(** The [scope] argument: which containers of the page are its descendants,
    and which container, if any, it is itself.  The document, which has no
    [hasAttribute], has every container as descendant and is none; a node
    without [querySelectorAll] has no descendant. *)
Record Scope : Type := {
  scope_descendant : nat -> bool;
  scope_self : option nat
}.

Definition document : Scope :=
  {| scope_descendant := fun _ => true; scope_self := None |}.

Definition hide_extra (total : Z) (index : nat) (dot : Dot) : Dot :=
  if Z.of_nat index >=? total then dot_set_display "none" dot else dot.

(** The statement [if (totalImages !== dotElements.length) dotElements.forEach(...)]. *)
Definition hide_extra_dots (total : Z) (c : Carousel) : Carousel :=
  if bool_decide (total ≠ Z.of_nat (length (dotElements c)))
  then set_card (imap (hide_extra total) <$> card c) c
  else c.

(** [if (dotElements[0]) { add('bg-black'); remove('bg-black/20') }] *)
Definition mark_first_dot (c : Carousel) : Carousel :=
  alter_dot 0 (dot_classList_apply (remove "bg-black/20"))
    (alter_dot 0 (dot_classList_apply (add "bg-black")) c).

Definition new_closure (urls : list JSValue) (total : Z) : Closure :=
  {| imagesUrl := urls; totalImages := total; currentIndex := 0;
     imagesLoaded := false; isProcessing := false |}.

Definition addEventListener (l : Listener) (c : Carousel) : Carousel :=
  set_listeners (listeners c ++ [l]) c.

Section Initialisation.

(** [JSON.parse]; [None] when it throws a [SyntaxError]. *)
Variable JSON_parse : string -> option JSValue.

(** The body of the [try] block: what it leaves in [imagesUrl], or what it
    throws ([dataset.images] undefined, text that is no JSON, a value
    without [filter]). *)
Definition parse_images (c : Carousel) : Completion (list JSValue) :=
  match data_images c with
  | None => Throw TypeError
  | Some s =>
      let cleanedData := trim (collapse_spaces false s) in
      match JSON_parse cleanedData with
      | None => Throw SyntaxError
      | Some (JArr l) => Normal (List.filter keep_url l)
      | Some _ => Throw TypeError
      end
  end.

(** The callback of [carousels.forEach]: the container afterwards and what
    it wrote to the console. *)
Definition init_carousel (c : Carousel) : Completion (Carousel * list LogEntry) :=
  let c := set_initialized "true" c in
  match card c with
  | None => Normal (c, [])
  | Some _ =>
      match parse_images c with
      | Throw e => Normal (c, [("Ошибка парсинга картинок", e)])
      | Normal urls =>
          let total := parseInt_or_1 (data_totalImages c) in
          let c := hide_extra_dots total c in
          if total <=? 1 then Normal (mark_first_dot c, [])
          else
            let k := length (closures c) in
            let c := set_closures (closures c ++ [new_closure urls total]) c in
            let c := addEventListener (mouseenter k) c in
            let c := set_card
                       (imap (fun index => dot_addEventListener_click (k, index))
                          <$> card c) c in
            let c := addEventListener (mousemove k) c in
            let c := addEventListener (mouseleave k) c in
            Normal (mark_first_dot c, [])
      end
  end.

Definition uninitialized (p : Page) (i : nat) : bool :=
  match containers p !! i with
  | Some c => bool_decide (data_initialized c = None)
  | None => false
  end.

(** [scope.querySelectorAll('[data-carousel]:not([data-initialized])')] *)
Definition querySelectorAll (scope : Scope) (p : Page) : list nat :=
  List.filter
    (fun i => scope_descendant scope i
              && bool_decide (scope_self scope ≠ Some i)
              && uninitialized p i)
    (seq 0 (length (containers p))).

(** The array [carousels] before the loop. *)
Definition carousels (scope : Scope) (p : Page) : list nat :=
  querySelectorAll scope p ++
  match scope_self scope with
  | Some i => if uninitialized p i then [i] else []
  | None => []
  end.

Definition init_at (i : nat) (p : Page) : Completion Page :=
  match containers p !! i with
  | None => Normal p
  | Some c =>
      bindC (init_carousel c) (fun r =>
        Normal {| containers := <[i := r.1]> (containers p);
                  console := console p ++ r.2 |})
  end.

Fixpoint forEach (l : list nat) (p : Page) : Completion Page :=
  match l with
  | [] => Normal p
  | i :: l' => bindC (init_at i p) (forEach l')
  end.

Definition initCarousels (scope : Scope) (p : Page) : Completion Page :=
  forEach (carousels scope p) p.

(** An event at container [i] of the page. *)
Definition page_dispatch (i : nat) (ev : Event) (p : Page) : Page :=
  {| containers := alter (dispatch ev) i (containers p); console := console p |}.

(** What can happen to a page: a run of the initialiser over some scope, or
    an event at one of its containers. *)
Inductive reachable (p0 : Page) : Page -> Prop :=
| reachable_start : reachable p0 p0
| reachable_init scope p p' :
    reachable p0 p -> initCarousels scope p = Normal p' -> reachable p0 p'
| reachable_event i ev p :
    reachable p0 p -> reachable p0 (page_dispatch i ev p).

End Initialisation.

(** A container as the server renders it: nothing registered yet. *)
Definition markup (c : Carousel) : Prop :=
  data_initialized c = None ∧ listeners c = [] ∧ closures c = [] ∧
  animationFrames c = [] ∧ Forall (fun d => dot_click d = []) (dotElements c).

(** ** The words of the specification *)

(** [clamp(v, lo, hi)] *)
Definition clamp (v lo hi : Z) : Z :=
  if v <? lo then lo else if hi <? v then hi else v.

(** The pointer-zone mapping as the specification writes it:
    [clamp(floor(x / (W/N)), 0, N-1)]. *)
Definition pointer_zone (W : Q) (N : Z) (x : Q) : Z :=
  clamp (Qfloor (x / (W / inject_Z N))) 0 (N - 1).

(** The same mapping with the subtraction and the two divisions rounded to
    doubles, as the script computes it from [clientX], the left edge and the
    width. *)
Definition pointer_zone64 (W : Q) (N : Z) (left clientX : Q) : Z :=
  clamp (Qfloor (binary64 (binary64 (clientX - left) / binary64 (W / inject_Z N))))
    0 (N - 1).

(** The active styling: top stacking for an image, the dark dot. *)
Definition image_active (im : Img) : Prop := "z-10" ∈ img_classList im.
Definition dot_active (d : Dot) : Prop := "bg-black" ∈ dot_classList d.

(** The images [loadImages] inserts for a URL list: one for each index from 1
    on. *)
Definition inserted_images (urls : list JSValue) : list Img :=
  imap (fun j url => createImg (Z.of_nat j + 1) url) (drop 1 urls).

(** Exactly one image element is active, and it is the one for index [cur]. *)
Definition sole_active_image (cur : Z) (c : Carousel) : Prop :=
  ∃ pos im,
    images c !! pos = Some im ∧ img_data_carousel_image im = pretty cur ∧
    image_active im ∧
    ∀ pos' im', images c !! pos' = Some im' → image_active im' → pos' = pos.

(** Exactly one dot is active, and it is the dot at index [cur]. *)
Definition sole_active_dot (cur : Z) (c : Carousel) : Prop :=
  ∃ dot,
    0 ≤ cur ∧ dotElements c !! Z.to_nat cur = Some dot ∧ dot_active dot ∧
    ∀ d' dot', dotElements c !! d' = Some dot' → dot_active dot' → d' = Z.to_nat cur.

(** ** Invariants *)

(** Every closure of the container has its index within its range. *)
Definition index_in_range (c : Carousel) : Prop :=
  Forall (fun cl => 0 ≤ currentIndex cl ≤ totalImages cl - 1) (closures c).

(** Images in index order: the element at position [j] is the one for index
    [j], active exactly when [j] is the current index and carrying the
    inactive class otherwise. *)
Definition images_ok (cur : Z) (l : list Img) : Prop :=
  ∀ j im, l !! j = Some im →
    img_data_carousel_image im = pretty (Z.of_nat j) ∧
    ("z-10" ∈ img_classList im ↔ Z.of_nat j = cur) ∧
    ("z-0" ∈ img_classList im ↔ Z.of_nat j ≠ cur).

(** Dots: the dot at the current index is the active one, the other visible
    dots carry the inactive class. *)
Definition dots_ok (total cur : Z) (l : list Dot) : Prop :=
  ∀ d dot, l !! d = Some dot →
    ("bg-black" ∈ dot_classList dot ↔ Z.of_nat d = cur) ∧
    (Z.of_nat d < total → Z.of_nat d ≠ cur → "bg-black/20" ∈ dot_classList dot).

(** Nothing is registered on the container or its dots. *)
Definition inert (c : Carousel) : Prop :=
  listeners c = [] ∧ closures c = [] ∧ animationFrames c = [] ∧
  Forall (fun d => dot_click d = []) (dotElements c).

(** The state of a container with one carousel instance, consistent with its
    data. *)
Definition consistent (c : Carousel) : Prop :=
  ∃ cl,
    closures c = [cl] ∧
    listeners c = [mouseenter 0%nat; mousemove 0%nat; mouseleave 0%nat] ∧
    (∀ d dot, dotElements c !! d = Some dot → dot_click dot = [(0%nat, d)]) ∧
    Forall (fun f => f.1 = 0%nat) (animationFrames c) ∧
    data_initialized c ≠ None ∧
    2 ≤ totalImages cl ∧
    0 ≤ currentIndex cl < totalImages cl ∧
    totalImages cl ≤ Z.of_nat (length (imagesUrl cl)) ∧
    totalImages cl ≤ Z.of_nat (length (dotElements c)) ∧
    (imagesLoaded cl = false → currentIndex cl = 0) ∧
    length (images c) = (if imagesLoaded cl then length (imagesUrl cl) else 1%nat) ∧
    images_ok (currentIndex cl) (images c) ∧
    dots_ok (totalImages cl) (currentIndex cl) (dotElements c).

Section Markup.

Variable JSON_parse : string -> option JSValue.

(** Markup whose parts agree: one primary image, index 0, on top; a dot for
    every index below the total count, the first one apart inactive; at
    least as many URLs as the total count says. *)
Definition consistent_markup (c : Carousel) : Prop :=
  markup c ∧
  (∃ im, images c = [im] ∧ img_data_carousel_image im = "0" ∧
         "z-10" ∈ img_classList im ∧ "z-0" ∉ img_classList im) ∧
  parseInt_or_1 (data_totalImages c) ≤ Z.of_nat (length (dotElements c)) ∧
  (∀ d dot, dotElements c !! d = Some dot → (1 ≤ d)%nat →
     ("bg-black" ∉ dot_classList dot) ∧
     (Z.of_nat d < parseInt_or_1 (data_totalImages c) →
      "bg-black/20" ∈ dot_classList dot)) ∧
  (∀ urls, parse_images JSON_parse c = Normal urls →
     parseInt_or_1 (data_totalImages c) ≤ Z.of_nat (length urls)).

End Markup.

(** ** Concrete pages *)

(** [JSON.parse] on the texts the examples use: an array of string literals
    without escapes.  Text outside that fragment is reported as a syntax
    error here, so the function stands for [JSON.parse] on the fragment
    only. *)
Inductive ArrayState : Type :=
| AtStart
| AfterOpen
| InString (buf : string)
| AfterString
| AfterComma
| AtEnd.

Definition json_space (a : ascii) : bool :=
  let n := nat_of_ascii a in
  (n =? 32)%nat || (n =? 9)%nat || (n =? 10)%nat || (n =? 13)%nat.

Fixpoint parse_array (st : ArrayState) (acc : list JSValue) (s : string) : option JSValue :=
  match s with
  | EmptyString => match st with AtEnd => Some (JArr acc) | _ => None end
  | String a r =>
      match st with
      | InString buf =>
          if Ascii.eqb a "034" then parse_array AfterString (acc ++ [JStr buf]) r
          else if Ascii.eqb a "092" || (nat_of_ascii a <? 32)%nat then None
          else parse_array (InString (buf +:+ String a EmptyString)) acc r
      | AtStart =>
          if json_space a then parse_array st acc r
          else if Ascii.eqb a "[" then parse_array AfterOpen acc r else None
      | AfterOpen =>
          if json_space a then parse_array st acc r
          else if Ascii.eqb a "034" then parse_array (InString EmptyString) acc r
          else if Ascii.eqb a "]" then parse_array AtEnd acc r else None
      | AfterString =>
          if json_space a then parse_array st acc r
          else if Ascii.eqb a "," then parse_array AfterComma acc r
          else if Ascii.eqb a "]" then parse_array AtEnd acc r else None
      | AfterComma =>
          if json_space a then parse_array st acc r
          else if Ascii.eqb a "034" then parse_array (InString EmptyString) acc r
          else None
      | AtEnd => if json_space a then parse_array st acc r else None
      end
  end.

Definition parse_string_array (s : string) : option JSValue :=
  parse_array AtStart [] s.

Definition quoted (s : string) : string :=
  String "034" (s +:+ String "034" EmptyString).

(** The text of a JSON array of strings, as the template writes it. *)
Fixpoint array_text_items (l : list string) : string :=
  match l with
  | [] => EmptyString
  | [s] => quoted s
  | s :: r => quoted s +:+ (", " +:+ array_text_items r)
  end.

Definition array_text (l : list string) : string :=
  "[" +:+ array_text_items l +:+ "]".

Definition primary_image : Img :=
  {| img_data_carousel_image := "0"; img_src := JStr "/media/p/0.jpg";
     img_alt := "Product";
     img_classList := ["absolute"; "w-full"; "h-full"; "object-cover";
                       "transition-all"; "duration-200"; "z-10"] |}.

Definition inactive_dot : Dot :=
  {| dot_classList := ["w-1.5"; "h-1.5"; "rounded-full"; "bg-black/20"];
     dot_display := None; dot_click := [] |}.

(** A product card as rendered: the primary image, [dots] inactive dots, and
    the two data attributes. *)
Definition rendered (data_images data_totalImages : option string) (dots : nat) : Carousel :=
  {| data_initialized := None; data_images := data_images;
     data_totalImages := data_totalImages;
     card := Some (replicate dots inactive_dot);
     images := [primary_image]; listeners := []; closures := [];
     animationFrames := [] |}.

(** Three images, three dots. *)
Definition card3 : Carousel :=
  rendered (Some (array_text ["/media/p/0.jpg"; "/media/p/1.jpg"; "/media/p/2.jpg"]))
    (Some "3") 3.

(** Three entries for a total count of three, the second one empty: the
    filter of the initialiser keeps two URLs. *)
Definition card_gap : Carousel :=
  rendered (Some (array_text ["/media/p/0.jpg"; EmptyString; "/media/p/2.jpg"]))
    (Some "3") 3.

(** A total count of two with three URLs in the list. *)
Definition card_long : Carousel :=
  rendered (Some (array_text ["/media/p/0.jpg"; "/media/p/1.jpg"; "/media/p/2.jpg"]))
    (Some "2") 2.

(** An image list that is no JSON. *)
Definition card_malformed : Carousel :=
  rendered (Some "[/media/p/0.jpg, ") (Some "3") 3.

(** A single image. *)
Definition card_single : Carousel :=
  rendered (Some (array_text ["/media/p/0.jpg"])) (Some "1") 1.

(** A single image, the card rendered without [data-images]. *)
Definition card_single_no_list : Carousel := rendered None (Some "1") 1.

(** Three URLs and no total count. *)
Definition card_no_total : Carousel :=
  rendered (Some (array_text ["/media/p/0.jpg"; "/media/p/1.jpg"; "/media/p/2.jpg"]))
    None 3.

(** No total count and an image list that is no JSON. *)
Definition card_no_total_malformed : Carousel :=
  rendered (Some "[/media/p/0.jpg, ") None 3.

(** The container after the [forEach] body ran on it. *)
Definition initialised (c : Carousel) : Carousel :=
  match init_carousel parse_string_array c with
  | Normal r => r.1
  | Throw _ => c
  end.

Definition page_of (l : list Carousel) : Page :=
  {| containers := l; console := [] |}.

(** Three cards on one page: a malformed image list, three images, one
    image. *)
Definition demo_page : Page := page_of [card_malformed; card3; card_single].

Definition demo_page_initialised : Page :=
  match initCarousels parse_string_array document demo_page with
  | Normal p => p
  | Throw _ => demo_page
  end.

(** ** Words of the specification about initialisation *)

(** [c'] has no listener, closure, pending frame, image or dot click listener
    that [c] has not. *)
Definition nothing_installed (c c' : Carousel) : Prop :=
  listeners c' = listeners c ∧ closures c' = closures c ∧
  animationFrames c' = animationFrames c ∧ images c' = images c ∧
  length (dotElements c') = length (dotElements c) ∧
  ∀ d dot dot', dotElements c !! d = Some dot → dotElements c' !! d = Some dot' →
    dot_click dot' = dot_click dot.

(** The first dot, if there is one, shows the active state. *)
Definition first_dot_active (c : Carousel) : Prop :=
  ∀ dot, dotElements c !! 0%nat = Some dot →
    dot_active dot ∧ "bg-black/20" ∉ dot_classList dot.

(** The card with the empty entry on a page, initialised, then a click on
    its third dot. *)
Definition gap_page : Page := page_of [card_gap].

Definition gap_page_initialised : Page :=
  match initCarousels parse_string_array document gap_page with
  | Normal p => p
  | Throw _ => gap_page
  end.

Definition gap_page_clicked : Page :=
  page_dispatch 0 (Click 2) gap_page_initialised.

(** A container 300 pixels wide at 10 pixels from the left, and pointer
    moves at 160 pixels, outside and inside the overlay. *)
Definition rect300 : DOMRect := {| rect_left := 10; rect_width := 300 |}.
Definition move160 : MouseEvent := {| clientX := 160; target_in_fire := false |}.
Definition move160_in_fire : MouseEvent := {| clientX := 160; target_in_fire := true |}.

(** A container whose width is the double written [216.9], its left edge the
    double written [255.4], and a pointer move at 400 pixels. *)
Definition rect_216_9 : DOMRect :=
  {| rect_left := 8986088631487693 # 35184372088832;
     rect_width := 7631490306067661 # 35184372088832 |}.
Definition move400 : MouseEvent := {| clientX := 400; target_in_fire := false |}.

(** ** Further words about the carousel *)

(** The frame callbacks queued for closure [k]. *)
Definition pending_frames (k : nat) (c : Carousel) : nat :=
  length (filter (fun f => f.1 = k) (animationFrames c)).

(** An image element without its class list: the index attribute, the source
    and the alternative text. *)
Definition unstyled (im : Img) : string * JSValue * string :=
  (img_data_carousel_image im, img_src im, img_alt im).

(** Whether the scope reaches container [i]: as a descendant, or as the scope
    element itself. *)
Definition in_scope (scope : Scope) (i : nat) : Prop :=
  scope_descendant scope i = true ∨ scope_self scope = Some i.

(** Two images and three dots: one dot too many. *)
Definition card_extra_dot : Carousel :=
  rendered (Some (array_text ["/media/p/0.jpg"; "/media/p/1.jpg"])) (Some "2") 3.

(** The throttle of the pointer-move listener: a frame callback is queued for
    a closure exactly while its [isProcessing] flag is up, and never more
    than one. *)
Definition throttled (c : Carousel) : Prop :=
  ∀ k, pending_frames k c =
       match closures c !! k with
       | Some cl => if isProcessing cl then 1%nat else 0%nat
       | None => 0%nat
       end.

(** An image beyond the primary one is current only once the lazy load has
    run. *)
Definition loaded_before_shown (c : Carousel) : Prop :=
  Forall (fun cl => imagesLoaded cl = false → currentIndex cl = 0) (closures c).

(** The images the instance of the container has inserted so far. *)
Definition lazy_images (c : Carousel) : list Img :=
  match closures c with
  | cl :: _ => if imagesLoaded cl then inserted_images (imagesUrl cl) else []
  | [] => []
  end.

(** The images of a container are those of [base] followed by the images its
    instance has inserted, class lists apart; and the container has at most
    one instance. *)
Definition images_from (base : list Img) (c : Carousel) : Prop :=
  (length (closures c) ≤ 1)%nat ∧
  unstyled <$> images c = (unstyled <$> base) ++ (unstyled <$> lazy_images c).

(** The mark and the number of closures of [c'] are those of [c]. *)
Definition same_shape (c c' : Carousel) : Prop :=
  data_initialized c' = data_initialized c ∧
  length (closures c') = length (closures c).

(** The demo page after a pointer move over its second card. *)
Definition demo_page_moved : Page :=
  page_dispatch 1 (MouseMove {| clientX := 160; target_in_fire := false |})
    demo_page_initialised.

(** * The profile tabs and the order map

    The scripts beside the carousel: the Alpine component [profileTabs],
    which follows the carousel in [static_dev/js/carousel.js], and the
    address map of the order form, [static_dev/js/map.js].

    Modelling conventions.
    - Strings are byte strings: a Cyrillic literal is its UTF-8 encoding, and
      white space is the ASCII part of what [trim] and [\s] take.
    - The state of a page is a record of what the script reads and writes; an
      element the script looks up by id is [None] when the page has none.
    - A handler of the order form returns the error it ends with, if any,
      together with the state it leaves: what it wrote before throwing stays
      written.
    - The Yandex map is its collection of geo objects and the log of the
      other calls made on it; a promise is an event of its own, the moment it
      resolves. *)

(** ** Strings and arrays *)

Module JS.

(** [s.split(sep)] for a separator of one character. *)
Fixpoint split (sep : ascii) (s : string) : list string :=
  match s with
  | EmptyString => [EmptyString]
  | String a s' =>
      if Ascii.eqb a sep then EmptyString :: split sep s'
      else match split sep s' with
           | seg :: rest => String a seg :: rest
           | [] => [String a EmptyString]
           end
  end.

(** [array.join(sep)]. *)
Fixpoint join (sep : string) (l : list string) : string :=
  match l with
  | [] => EmptyString
  | s :: rest =>
      match rest with
      | [] => s
      | _ :: _ => s +:+ (sep +:+ join sep rest)
      end
  end.

(** [[...new Set(array)]].  A set keeps its elements in the order they came
    in, and adding one it has changes nothing: [add], as for a token list. *)
Definition new_Set (l : list string) : list string :=
  fold_left (fun s x => add x s) l [].

(** What follows the prefix [p] in [s], when [s] starts with [p]. *)
Fixpoint strip_prefix (p s : string) : option string :=
  match p, s with
  | EmptyString, _ => Some s
  | String a p', String b s' => if Ascii.eqb a b then strip_prefix p' s' else None
  | String _ _, EmptyString => None
  end.

(** [s.replace(pattern, '')] for a string pattern: the first occurrence
    goes. *)
Fixpoint remove_first (pattern s : string) : string :=
  match strip_prefix pattern s with
  | Some rest => rest
  | None =>
      match s with
      | EmptyString => EmptyString
      | String a s' => String a (remove_first pattern s')
      end
  end.

(** [s.padStart(targetLength, pad)] for a pad of one character. *)
Definition padStart (targetLength : nat) (pad : ascii) (s : string) : string :=
  string_of_list_ascii (replicate (targetLength - String.length s)%nat pad) +:+ s.

(** [if (element) element.property = v]. *)
Definition assign {A} (v : A) (element : option A) : option A :=
  (fun _ => v) <$> element.

End JS.

(** ** The component [profileTabs] *)

Module ProfileTabs.

Definition validTabs : list string := ["account"; "orders"; "wishlist"; "returns"].

Definition tabTitles : list (string * string) :=
  [("account", "Данные аккаунта"); ("orders", "Мои заказы");
   ("wishlist", "Лист ожидания"); ("returns", "Мои возвраты")].

(** The keys every object answers to without having them: the members of
    [Object.prototype]. *)
Definition Object_prototype : list string :=
  ["constructor"; "hasOwnProperty"; "isPrototypeOf"; "propertyIsEnumerable";
   "toLocaleString"; "toString"; "valueOf"; "__proto__";
   "__defineGetter__"; "__defineSetter__"; "__lookupGetter__";
   "__lookupSetter__"].

(** The text of the breadcrumb: a string of the script, or what an inherited
    member turns into as a string. *)
Inductive Text : Type :=
| Literal (s : string)
| Member (key : string).

Record Tabs : Type := {
  activeTab : string;
  (** [window.location.pathname] *)
  pathname : string;
  (** [new URLSearchParams(window.location.search).get('order_id')] *)
  order_id : option string;
  (** the text of [#breadcrumb-last] *)
  breadcrumb_last : option Text;
  (** the URLs given to [history.pushState] *)
  pushed : list string;
  (** the [popstate] listeners of the component *)
  popstate : nat;
  (** the order ids a scroll is scheduled for *)
  timers : list string
}.

Definition set_activeTab (v : string) (t : Tabs) : Tabs :=
  {| activeTab := v; pathname := pathname t; order_id := order_id t;
     breadcrumb_last := breadcrumb_last t; pushed := pushed t;
     popstate := popstate t; timers := timers t |}.

Definition set_pathname (v : string) (t : Tabs) : Tabs :=
  {| activeTab := activeTab t; pathname := v; order_id := order_id t;
     breadcrumb_last := breadcrumb_last t; pushed := pushed t;
     popstate := popstate t; timers := timers t |}.

Definition set_order_id (v : option string) (t : Tabs) : Tabs :=
  {| activeTab := activeTab t; pathname := pathname t; order_id := v;
     breadcrumb_last := breadcrumb_last t; pushed := pushed t;
     popstate := popstate t; timers := timers t |}.

Definition set_breadcrumb_last (v : option Text) (t : Tabs) : Tabs :=
  {| activeTab := activeTab t; pathname := pathname t; order_id := order_id t;
     breadcrumb_last := v; pushed := pushed t; popstate := popstate t;
     timers := timers t |}.

Definition set_pushed (v : list string) (t : Tabs) : Tabs :=
  {| activeTab := activeTab t; pathname := pathname t; order_id := order_id t;
     breadcrumb_last := breadcrumb_last t; pushed := v; popstate := popstate t;
     timers := timers t |}.

Definition set_popstate (v : nat) (t : Tabs) : Tabs :=
  {| activeTab := activeTab t; pathname := pathname t; order_id := order_id t;
     breadcrumb_last := breadcrumb_last t; pushed := pushed t; popstate := v;
     timers := timers t |}.

Definition set_timers (v : list string) (t : Tabs) : Tabs :=
  {| activeTab := activeTab t; pathname := pathname t; order_id := order_id t;
     breadcrumb_last := breadcrumb_last t; pushed := pushed t;
     popstate := popstate t; timers := v |}.

(** [pathname.split('/').filter(segment => segment).pop()] *)
Definition path_of (pathname : string) : option string :=
  last (filter (fun segment => segment ≠ EmptyString) (JS.split "/" pathname)).

(** The tab a path stands for; [init] and the [popstate] listener carry the
    same lines. *)
Definition tab_of (path : option string) : string :=
  match path with
  | None => "account"
  | Some path =>
      if bool_decide (path = EmptyString) || bool_decide (path = "profile")
      then "account"
      else if bool_decide (path ∈ validTabs) then path else "account"
  end.

Definition read_location (t : Tabs) : Tabs :=
  set_activeTab (tab_of (path_of (pathname t))) t.

Fixpoint own (o : list (string * string)) (key : string) : option string :=
  match o with
  | [] => None
  | (k, v) :: o' => if bool_decide (k = key) then Some v else own o' key
  end.

(** [tabTitles[key] || 'Данные аккаунта'] *)
Definition title (key : string) : Text :=
  match own tabTitles key with
  | Some v => if bool_decide (v = EmptyString) then Literal "Данные аккаунта" else Literal v
  | None => if bool_decide (key ∈ Object_prototype) then Member key
            else Literal "Данные аккаунта"
  end.

Definition updateBreadcrumb (t : Tabs) : Tabs :=
  set_breadcrumb_last (JS.assign (title (activeTab t)) (breadcrumb_last t)) t.

Definition checkOrderHighlight (t : Tabs) : Tabs :=
  match order_id t with
  | Some orderId =>
      if negb (bool_decide (orderId = EmptyString)) && bool_decide (activeTab t = "returns")
      then set_timers (timers t ++ [orderId]) t
      else t
  | None => t
  end.

(** The [popstate] listener. *)
Definition on_popstate (t : Tabs) : Tabs :=
  checkOrderHighlight (updateBreadcrumb (read_location t)).

Definition init (t : Tabs) : Tabs :=
  set_popstate (S (popstate t))
    (checkOrderHighlight (updateBreadcrumb (read_location t))).

Definition url_of (tabId : string) : string :=
  if bool_decide (tabId = "account") then "/profile/"
  else "/profile/" +:+ (tabId +:+ "/").

Definition isActive (tabId : string) (t : Tabs) : bool :=
  bool_decide (activeTab t = tabId).

Section History.

(** The pathname of the location the browser makes of a URL of this site. *)
Variable URL_pathname : string -> string.

(** [history.pushState({}, '', url)] *)
Definition pushState (url : string) (t : Tabs) : Tabs :=
  set_pathname (URL_pathname url) (set_pushed (pushed t ++ [url]) t).

Definition switchTab (tabId : string) (t : Tabs) : Tabs :=
  pushState (url_of tabId) (updateBreadcrumb (set_activeTab tabId t)).

End History.

(** The browser moves in the history: the location changes, then every
    listener runs. *)
Definition popstate_event (pathname : string) (order_id : option string) (t : Tabs) : Tabs :=
  Nat.iter (popstate t) on_popstate (set_order_id order_id (set_pathname pathname t)).

(** What happens to the component once it is there. *)
Inductive Action : Type :=
| Popstate (pathname : string) (order_id : option string)
| SwitchTab (tabId : string).

Definition act (URL_pathname : string -> string) (a : Action) (t : Tabs) : Tabs :=
  match a with
  | Popstate pathname order_id => popstate_event pathname order_id t
  | SwitchTab tabId => switchTab URL_pathname tabId t
  end.

Definition run (URL_pathname : string -> string) (l : list Action) (t : Tabs) : Tabs :=
  fold_left (fun t a => act URL_pathname a t) l t.

(** The active tab is one of the four, and the breadcrumb, if the page has
    one, carries its title. *)
Definition shows_valid_tab (t : Tabs) : Prop :=
  activeTab t ∈ validTabs ∧
  ∀ text, breadcrumb_last t = Some text →
          ∃ v, own tabTitles (activeTab t) = Some v ∧ text = Literal v.

(** A page at [/profile/orders/] with a breadcrumb. *)
Definition orders_page : Tabs :=
  {| activeTab := "account"; pathname := "/profile/orders/"; order_id := None;
     breadcrumb_last := Some (Literal "Профиль"); pushed := []; popstate := 0;
     timers := [] |}.

End ProfileTabs.

(** ** The order map *)

Module OrderMap.

Definition SAFU_ADDRESS : string :=
  "Архангельская область, Северодвинск, улица Капитана Воронина, 6".

Definition Coords : Type := Q * Q.

Definition SAFU_COORDS : Coords := (64.562961%Q, 39.803955%Q).
Definition SEVERODVINSK_CENTER : Coords := (64.5635%Q, 39.8256%Q).

(** [address.replace(/^Россия,\s*/, '')] *)
Definition strip_country (address : string) : string :=
  match JS.strip_prefix "Россия," address with
  | Some rest => trimStart rest
  | None => address
  end.

Definition cleanAddressString (address : option string) : string :=
  match address with
  | None => EmptyString
  | Some address =>
      if bool_decide (address = EmptyString) then EmptyString
      else
        let clean := JS.remove_first "Архангельская область, " (strip_country address) in
        let parts := trim <$> JS.split "," clean in
        JS.join ", " (JS.new_Set parts)
  end.

(** A placemark is an object: [pm_id] tells one from another. *)
Record Placemark : Type := {
  pm_id : nat;
  pm_coords : Coords;
  iconCaption : string;
  preset : string;
  iconColor : option string;
  hasBalloon : bool
}.

Inductive MapCall : Type :=
| setCenter (coords : Coords) (zoom : Z) (duration : option Z)
(** [panTo(coords, { duration: 500 }).then(() => setZoom(zoom, { duration: 300 }))] *)
| panTo (coords : Coords) (zoom : Z)
| behaviors_disable
| behaviors_enable.

Record YMap : Type := {
  geoObjects : list Placemark;
  calls : list MapCall
}.

Inductive SearchCall : Type :=
| set_visible (b : bool)
| clear.

Record OrderPage : Type := {
  (** the value of [#id_buying_type] *)
  id_buying_type : option string;
  (** the class list of [#map] *)
  map_classList : option (list string);
  (** the value of [#address] *)
  address : option string;
  (** the text of [#address-text] *)
  address_text : option string;
  (** [style.display] of [#error-message] *)
  error_display : option string;
  myMapInstance : option YMap;
  placemarkInstance : option Placemark;
  (** the calls made on the search control *)
  searchControl : option (list SearchCall);
  (** how many placemarks were made *)
  placemarks : nat;
  (** the coordinates [ymaps.geocode] has not answered yet *)
  geocodes : list Coords;
  alerts : list string
}.

Definition set_id_buying_type (v : option string) (p : OrderPage) : OrderPage :=
  {| id_buying_type := v; map_classList := map_classList p;
     address := address p; address_text := address_text p;
     error_display := error_display p; myMapInstance := myMapInstance p;
     placemarkInstance := placemarkInstance p;
     searchControl := searchControl p; placemarks := placemarks p;
     geocodes := geocodes p; alerts := alerts p |}.

Definition set_map_classList (v : option (list string)) (p : OrderPage) : OrderPage :=
  {| id_buying_type := id_buying_type p; map_classList := v;
     address := address p; address_text := address_text p;
     error_display := error_display p; myMapInstance := myMapInstance p;
     placemarkInstance := placemarkInstance p;
     searchControl := searchControl p; placemarks := placemarks p;
     geocodes := geocodes p; alerts := alerts p |}.

Definition set_address (v : option string) (p : OrderPage) : OrderPage :=
  {| id_buying_type := id_buying_type p; map_classList := map_classList p;
     address := v; address_text := address_text p;
     error_display := error_display p; myMapInstance := myMapInstance p;
     placemarkInstance := placemarkInstance p;
     searchControl := searchControl p; placemarks := placemarks p;
     geocodes := geocodes p; alerts := alerts p |}.

Definition set_address_text (v : option string) (p : OrderPage) : OrderPage :=
  {| id_buying_type := id_buying_type p; map_classList := map_classList p;
     address := address p; address_text := v; error_display := error_display p;
     myMapInstance := myMapInstance p;
     placemarkInstance := placemarkInstance p;
     searchControl := searchControl p; placemarks := placemarks p;
     geocodes := geocodes p; alerts := alerts p |}.

Definition set_error_display (v : option string) (p : OrderPage) : OrderPage :=
  {| id_buying_type := id_buying_type p; map_classList := map_classList p;
     address := address p; address_text := address_text p; error_display := v;
     myMapInstance := myMapInstance p;
     placemarkInstance := placemarkInstance p;
     searchControl := searchControl p; placemarks := placemarks p;
     geocodes := geocodes p; alerts := alerts p |}.

Definition set_myMapInstance (v : option YMap) (p : OrderPage) : OrderPage :=
  {| id_buying_type := id_buying_type p; map_classList := map_classList p;
     address := address p; address_text := address_text p;
     error_display := error_display p; myMapInstance := v;
     placemarkInstance := placemarkInstance p;
     searchControl := searchControl p; placemarks := placemarks p;
     geocodes := geocodes p; alerts := alerts p |}.

Definition set_placemarkInstance (v : option Placemark) (p : OrderPage) : OrderPage :=
  {| id_buying_type := id_buying_type p; map_classList := map_classList p;
     address := address p; address_text := address_text p;
     error_display := error_display p; myMapInstance := myMapInstance p;
     placemarkInstance := v; searchControl := searchControl p;
     placemarks := placemarks p; geocodes := geocodes p; alerts := alerts p |}.

Definition set_searchControl (v : option (list SearchCall)) (p : OrderPage) : OrderPage :=
  {| id_buying_type := id_buying_type p; map_classList := map_classList p;
     address := address p; address_text := address_text p;
     error_display := error_display p; myMapInstance := myMapInstance p;
     placemarkInstance := placemarkInstance p; searchControl := v;
     placemarks := placemarks p; geocodes := geocodes p; alerts := alerts p |}.

Definition set_placemarks (v : nat) (p : OrderPage) : OrderPage :=
  {| id_buying_type := id_buying_type p; map_classList := map_classList p;
     address := address p; address_text := address_text p;
     error_display := error_display p; myMapInstance := myMapInstance p;
     placemarkInstance := placemarkInstance p;
     searchControl := searchControl p; placemarks := v; geocodes := geocodes p;
     alerts := alerts p |}.

Definition set_geocodes (v : list Coords) (p : OrderPage) : OrderPage :=
  {| id_buying_type := id_buying_type p; map_classList := map_classList p;
     address := address p; address_text := address_text p;
     error_display := error_display p; myMapInstance := myMapInstance p;
     placemarkInstance := placemarkInstance p;
     searchControl := searchControl p; placemarks := placemarks p;
     geocodes := v; alerts := alerts p |}.

Definition set_alerts (v : list string) (p : OrderPage) : OrderPage :=
  {| id_buying_type := id_buying_type p; map_classList := map_classList p;
     address := address p; address_text := address_text p;
     error_display := error_display p; myMapInstance := myMapInstance p;
     placemarkInstance := placemarkInstance p;
     searchControl := searchControl p; placemarks := placemarks p;
     geocodes := geocodes p; alerts := v |}.

(** A statement: the error it throws, if any, and the state it leaves. *)
Definition Stmt : Type := OrderPage -> option JSError * OrderPage.

Definition skip : Stmt := fun p => (None, p).

Definition write (f : OrderPage -> OrderPage) : Stmt := fun p => (None, f p).

Definition seq (s t : Stmt) : Stmt :=
  fun p => match s p with
           | (None, p') => t p'
           | (Some e, p') => (Some e, p')
           end.

Fixpoint block (l : list Stmt) : Stmt :=
  match l with
  | [] => skip
  | s :: l' => seq s (block l')
  end.

Definition geoObjects_add (pm : Placemark) (m : YMap) : YMap :=
  {| geoObjects := geoObjects m ++ [pm]; calls := calls m |}.

Definition geoObjects_remove (pm : Placemark) (m : YMap) : YMap :=
  {| geoObjects := filter (fun o => pm_id o ≠ pm_id pm) (geoObjects m);
     calls := calls m |}.

Definition call (c : MapCall) (m : YMap) : YMap :=
  {| geoObjects := geoObjects m; calls := calls m ++ [c] |}.

(** A call on [window.myMapInstance]: a [TypeError] while it is [null]. *)
Definition on_map (f : YMap -> YMap) : Stmt :=
  fun p => match myMapInstance p with
           | Some m => (None, set_myMapInstance (Some (f m)) p)
           | None => (Some TypeError, p)
           end.

(** [if (window.placemarkInstance)
       window.myMapInstance.geoObjects.remove(window.placemarkInstance)] *)
Definition remove_placemark : Stmt :=
  fun p => match placemarkInstance p with
           | Some pm => on_map (geoObjects_remove pm) p
           | None => (None, p)
           end.

(** [window.placemarkInstance = new ymaps.Placemark(...);
     window.myMapInstance.geoObjects.add(window.placemarkInstance)] *)
Definition place (coords : Coords) (caption preset : string) (color : option string) : Stmt :=
  fun p =>
    let pm := {| pm_id := placemarks p; pm_coords := coords; iconCaption := caption;
                 preset := preset; iconColor := color; hasBalloon := false |} in
    block [write (fun p => set_placemarks (S (placemarks p))
                             (set_placemarkInstance (Some pm) p));
           on_map (geoObjects_add pm)] p.

Definition setAddressVisuals (coords : Coords) : Stmt :=
  block [remove_placemark;
         place coords "Адрес доставки" "islands#blueDotIcon" None;
         on_map (call (setCenter coords 16 None))].

Definition setAddress (address : string) (coords : Coords) (zoom : Z) (isSafu : bool) : Stmt :=
  block [write (fun p => set_address (JS.assign address (OrderMap.address p)) p);
         write (fun p => set_address_text (JS.assign address (address_text p)) p);
         write (fun p => set_error_display (JS.assign "none" (error_display p)) p);
         remove_placemark;
         (if isSafu
          then place coords "Пункт выдачи (ИСМАРТ)" "islands#blueEducationIcon" (Some "#2563eb")
          else place coords "Адрес доставки" "islands#blueDotIcon" None);
         on_map (call (panTo coords zoom))].

(** [if (searchControl) searchControl.options.set('visible', b)] *)
Definition search_visible (b : bool) : Stmt :=
  write (fun p => set_searchControl ((fun l => l ++ [set_visible b]) <$> searchControl p) p).

Definition handleBuyingTypeChange : Stmt :=
  fun p =>
    match id_buying_type p, myMapInstance p, map_classList p with
    | Some value, Some _, Some _ =>
        if bool_decide (value = "self") then
          block [setAddress SAFU_ADDRESS SAFU_COORDS 16 true;
                 write (fun p => set_address (JS.assign SAFU_ADDRESS (address p)) p);
                 on_map (call behaviors_disable);
                 search_visible false;
                 write (fun p => set_map_classList
                                   (add "pointer-events-none" <$>
                                      (add "opacity-80" <$> map_classList p)) p)] p
        else
          block [on_map (call behaviors_enable);
                 search_visible true;
                 write (fun p => set_map_classList
                                   (remove "pointer-events-none" <$>
                                      (remove "opacity-80" <$> map_classList p)) p);
                 fun p =>
                   match address p with
                   | None => (Some TypeError, p)
                   | Some currentVal =>
                       if bool_decide (currentVal = SAFU_ADDRESS) then
                         block [write (set_address (Some EmptyString));
                                (fun p => match address_text p with
                                          | Some _ => (None, set_address_text (Some "Не выбран") p)
                                          | None => (Some TypeError, p)
                                          end);
                                (fun p => match placemarkInstance p with
                                          | Some pm =>
                                              block [on_map (geoObjects_remove pm);
                                                     write (set_placemarkInstance None)] p
                                          | None => (None, p)
                                          end);
                                on_map (call (setCenter SEVERODVINSK_CENTER 13 (Some 300)))] p
                       else (None, p)
                   end] p
    | _, _, _ => (None, p)
    end.

(** The promise of [handleSearchResult] resolves: [rawAddress] is
    [res.properties.get('text') || res.properties.get('name')], [None] when
    neither is there. *)
Definition handleSearchResult (rawAddress : option string) (coords : Coords) : Stmt :=
  fun p =>
    match searchControl p with
    | None => (Some TypeError, p)
    | Some _ =>
        block [setAddress (cleanAddressString rawAddress) coords 16 false;
               write (fun p => set_searchControl ((fun l => l ++ [clear]) <$> searchControl p) p)] p
    end.

Definition handleMapClick (coords : Coords) : Stmt :=
  fun p =>
    if bool_decide (id_buying_type p = Some "self") then (None, p)
    else (None, set_geocodes (geocodes p ++ [coords]) p).

(** The promise of [handleMapClick] resolves for request [k]:
    [firstGeoObject] is [None] when the answer is empty, and holds what
    [properties.get('text')] gives otherwise. *)
Definition geocode_resolved (k : nat) (firstGeoObject : option (option string)) : Stmt :=
  fun p =>
    match geocodes p !! k with
    | None => (None, p)
    | Some coords =>
        let rawAddress := match firstGeoObject with
                          | Some text => text
                          | None => Some "Адрес не найден"
                          end in
        setAddress (cleanAddressString rawAddress) coords 16 false
          (set_geocodes (delete k (geocodes p)) p)
    end.

(** [form.onsubmit]: whether the default was prevented goes with the
    outcome. *)
Definition onsubmit (p : OrderPage) : option JSError * bool * OrderPage :=
  match address p with
  | None => (Some TypeError, false, p)
  | Some address =>
      if bool_decide (address = EmptyString)
      then (None, true, set_alerts (alerts p ++ ["Пожалуйста, выберите адрес на карте"]) p)
      else if bool_decide (id_buying_type p = Some "self") && negb (bool_decide (address = SAFU_ADDRESS))
      then (None, false, set_address (Some SAFU_ADDRESS) p)
      else (None, false, p)
  end.

(** What happens to the order page. *)
Inductive Event : Type :=
(** the user picks a buying type *)
| Change (value : string)
| SearchResult (rawAddress : option string) (coords : Coords)
| MapClick (coords : Coords)
| GeocodeResolved (k : nat) (firstGeoObject : option (option string))
(** the geocode of [createMap] resolves with coordinates *)
| AddressFound (coords : Coords)
| Submit.

Definition dispatch (e : Event) (p : OrderPage) : OrderPage :=
  match e with
  | Change value =>
      match id_buying_type p with
      | Some _ => (handleBuyingTypeChange (set_id_buying_type (Some value) p)).2
      | None => p
      end
  | SearchResult rawAddress coords => (handleSearchResult rawAddress coords p).2
  | MapClick coords => (handleMapClick coords p).2
  | GeocodeResolved k firstGeoObject => (geocode_resolved k firstGeoObject p).2
  | AddressFound coords => (setAddressVisuals coords p).2
  | Submit => (onsubmit p).2
  end.

Definition run (l : list Event) (p : OrderPage) : OrderPage :=
  fold_left (fun p e => dispatch e p) l p.

(** The map shows the placemark of [window.placemarkInstance] and nothing
    else. *)
Definition placemark_shown (p : OrderPage) : Prop :=
  match myMapInstance p with
  | Some m => geoObjects m = option_list (placemarkInstance p)
  | None => True
  end.

(** An order page with every element, the map just made, and an address
    picked for delivery. *)
Definition delivery_page : OrderPage :=
  {| id_buying_type := Some "delivery";
     map_classList := Some ["h-64"];
     address := Some "Северодвинск, улица Ломоносова, 81";
     address_text := Some "Северодвинск, улица Ломоносова, 81";
     error_display := Some "block";
     myMapInstance := Some {| geoObjects := []; calls := [] |};
     placemarkInstance := None;
     searchControl := Some [];
     placemarks := 0;
     geocodes := [];
     alerts := [] |}.

(** That page after the pickup is picked, and after the delivery is picked
    again. *)
Definition delivery_page_pickup : OrderPage :=
  dispatch (Change "self") delivery_page.

Definition delivery_page_back : OrderPage :=
  dispatch (Change "delivery") delivery_page_pickup.

(** That page after a click on the map, the geocoder not having answered yet. *)
Definition delivery_page_clicked : OrderPage :=
  dispatch (MapClick (64.56%Q, 39.81%Q)) delivery_page.

(** The handler run on that page for another kind of delivery. *)
Definition delivery_page_courier : option JSError * OrderPage :=
  handleBuyingTypeChange (set_id_buying_type (Some "courier") delivery_page).

(** ** The date of the order *)

Record DateText : Type := {
  textContent : string;
  classList : list string
}.

Record DateWidgets : Type := {
  (** the value of [#id_order_date] *)
  id_order_date : option string;
  (** [#date-text] *)
  date_text : option DateText
}.

Definition syncDateVisual (w : DateWidgets) : DateWidgets :=
  match id_order_date w, date_text w with
  | Some val, Some dateText =>
      if bool_decide (val = EmptyString) then
        {| id_order_date := id_order_date w;
           date_text := Some {| textContent := "Выберите дату";
                                classList := remove "text-black"
                                               (add "text-gray-400" (classList dateText)) |} |}
      else
        match JS.split "-" val with
        | year :: month :: day :: _ =>
            if negb (bool_decide (year = EmptyString))
               && negb (bool_decide (month = EmptyString))
               && negb (bool_decide (day = EmptyString))
            then
              {| id_order_date := id_order_date w;
                 date_text := Some {| textContent := day +:+ ("." +:+ (month +:+ ("." +:+ year)));
                                      classList := add "text-black"
                                                     (remove "text-gray-400" (classList dateText)) |} |}
            else w
        | _ => w
        end
  | _, _ => w
  end.

(** The date part of [initFormListeners]; [year], [month] and [date] are
    what [getFullYear], [getMonth] and [getDate] give for the day after
    tomorrow. *)
Definition init_date (year month date : nat) (w : DateWidgets) : DateWidgets :=
  match id_order_date w with
  | Some val =>
      if bool_decide (val = EmptyString) then
        let month := JS.padStart 2 "0" (pretty (month + 1)%nat) in
        let day := JS.padStart 2 "0" (pretty date) in
        syncDateVisual
          {| id_order_date := Some (pretty year +:+ ("-" +:+ (month +:+ ("-" +:+ day))));
             date_text := date_text w |}
      else syncDateVisual w
  | None => w
  end.

(** ** The listeners of the form *)

(** The functions [initFormListeners] registers: [handleBuyingTypeChange] is
    one function for all runs, [syncDateVisual] and the [onsubmit] handler
    are made anew by every run. *)
Inductive Handler : Type :=
| handleBuyingTypeChange_function
| syncDateVisual_closure (run : nat)
| onsubmit_closure (run : nat).

#[global] Instance Handler_eq_dec : EqDecision Handler.
Proof. solve_decision. Defined.

(** A listener that is there already is not added again. *)
Definition addEventListener (h : Handler) (l : list Handler) : list Handler :=
  if bool_decide (h ∈ l) then l else l ++ [h].

Definition removeEventListener (h : Handler) (l : list Handler) : list Handler :=
  filter (fun g => g ≠ h) l.

Record Form : Type := {
  date_widgets : DateWidgets;
  (** the [change] listeners of [#id_buying_type] *)
  select_change : option (list Handler);
  (** the [input] and the [change] listeners of [#id_order_date] *)
  date_input : list Handler;
  date_change : list Handler;
  (** [onsubmit] of [#order-form] *)
  form_onsubmit : option (option Handler);
  (** how often [initFormListeners] has run *)
  runs : nat
}.

(** [year], [month] and [date] are as for [init_date]. *)
Definition initFormListeners (year month date : nat) (f : Form) : Form :=
  let syncDateVisual := syncDateVisual_closure (runs f) in
  let dateInput := id_order_date (date_widgets f) in
  {| date_widgets := init_date year month date (date_widgets f);
     select_change :=
       (fun l => addEventListener handleBuyingTypeChange_function
                   (removeEventListener handleBuyingTypeChange_function l))
         <$> select_change f;
     date_input :=
       match dateInput with
       | Some _ => addEventListener syncDateVisual
                     (removeEventListener syncDateVisual (date_input f))
       | None => date_input f
       end;
     date_change :=
       match dateInput with
       | Some _ => addEventListener syncDateVisual
                     (removeEventListener syncDateVisual (date_change f))
       | None => date_change f
       end;
     form_onsubmit := JS.assign (Some (onsubmit_closure (runs f))) (form_onsubmit f);
     runs := S (runs f) |}.

(** A listener of the date field runs. *)
Definition run_date_listener (h : Handler) (w : DateWidgets) : DateWidgets :=
  match h with
  | syncDateVisual_closure _ => syncDateVisual w
  | _ => w
  end.

(** The user sets the date field: the value changes, then the [input]
    listeners run. *)
Definition input_event (val : string) (f : Form) : Form :=
  {| date_widgets :=
       fold_left (fun w h => run_date_listener h w) (date_input f)
         {| id_order_date := JS.assign val (id_order_date (date_widgets f));
            date_text := date_text (date_widgets f) |};
     select_change := select_change f;
     date_input := date_input f;
     date_change := date_change f;
     form_onsubmit := form_onsubmit f;
     runs := runs f |}.

(** The form before the script has touched it. *)
Definition fresh_form (w : DateWidgets) (select form : bool) : Form :=
  {| date_widgets := w;
     select_change := if select then Some [] else None;
     date_input := [];
     date_change := [];
     form_onsubmit := if form then Some None else None;
     runs := 0 |}.

(** [initFormListeners] run once for each of the dates. *)
Definition initFormListeners_times (dates : list (nat * nat * nat)) (f : Form) : Form :=
  fold_left (fun f d => initFormListeners d.1.1 d.1.2 d.2 f) dates f.

(** What [n] runs of [initFormListeners] leave on a form that began as
    [fresh_form w select form]. *)
Definition registered (w : DateWidgets) (select form : bool) (n : nat) (f : Form) : Prop :=
  runs f = n ∧
  (is_Some (id_order_date (date_widgets f)) ↔ is_Some (id_order_date w)) ∧
  select_change f =
    (if select
     then Some (match n with
                | O => []
                | S _ => [handleBuyingTypeChange_function]
                end)
     else None) ∧
  date_input f =
    (match id_order_date w with
     | Some _ => syncDateVisual_closure <$> List.seq 0%nat n
     | None => []
     end) ∧
  date_change f =
    (match id_order_date w with
     | Some _ => syncDateVisual_closure <$> List.seq 0%nat n
     | None => []
     end) ∧
  form_onsubmit f =
    (if form
     then Some (match n with
                | O => None
                | S k => Some (onsubmit_closure k)
                end)
     else None).

(** The widgets of a form that comes with a date. *)
Definition dated : DateWidgets :=
  {| id_order_date := Some "2026-11-05";
     date_text := Some {| textContent := "Выберите дату";
                          classList := ["text-sm"; "text-gray-400"] |} |}.

(** The widgets of a form that comes without one. *)
Definition undated : DateWidgets :=
  {| id_order_date := Some EmptyString;
     date_text := Some {| textContent := "Выберите дату";
                          classList := ["text-sm"; "text-gray-400"] |} |}.

End OrderMap.

(** * Properties *)

(** ** Token lists *)

Section TokenLists.
Implicit Types (t u old new : string) (cl : list string).

Lemma elem_of_add u t cl : u ∈ add t cl ↔ u = t ∨ u ∈ cl.
Proof.
  unfold add, contains. case_bool_decide as H.
  - split; [auto | intros [-> | ?]; auto].
  - rewrite elem_of_app, list_elem_of_singleton. tauto.
Qed.

Lemma elem_of_remove u t cl : u ∈ remove t cl ↔ u ≠ t ∧ u ∈ cl.
Proof. unfold remove. rewrite list_elem_of_filter. tauto. Qed.

Lemma elem_of_replace_in_set u old new cl :
  (old ∈ cl ∨ new ∈ cl) →
  u ∈ replace_in_set old new cl ↔ u = new ∨ (u ≠ old ∧ u ∈ cl).
Proof.
  induction cl as [|t r IH]; simpl.
  - intros [H | H]; inversion H.
  - intros Hin. case_bool_decide as Ht.
    + rewrite elem_of_cons, list_elem_of_filter, elem_of_cons.
      destruct (decide (u = new)), (decide (u = old)); naive_solver.
    + rewrite !elem_of_cons. rewrite IH; [naive_solver|].
      rewrite !elem_of_cons in Hin. naive_solver.
Qed.

Lemma elem_of_replace u old new cl :
  u ∈ replace old new cl ↔
  if decide (old ∈ cl) then u = new ∨ (u ≠ old ∧ u ∈ cl) else u ∈ cl.
Proof.
  unfold replace, contains. case_bool_decide; case_decide; try done.
  apply elem_of_replace_in_set. auto.
Qed.

(** After [replace old new] the old token is gone, whatever was there. *)
Lemma replace_old_gone old new cl : old ≠ new → old ∉ replace old new cl.
Proof. intros Hne. rewrite elem_of_replace. case_decide; naive_solver. Qed.

Lemma replace_new_there old new cl : old ∈ cl → new ∈ replace old new cl.
Proof. intros Hin. rewrite elem_of_replace. case_decide; naive_solver. Qed.

End TokenLists.

(** ** [loadImages] *)

Lemma loadImages_loop_eq i rest c :
  loadImages_loop i rest c =
  set_images (images c ++ imap (fun j url => createImg (Z.of_nat j + i) url) rest) c.
Proof.
  revert i c. induction rest as [|url rest IH]; intros i c; simpl.
  - rewrite app_nil_r. by destruct c.
  - rewrite IH. unfold appendChild, set_images; simpl. f_equal.
    rewrite <- app_assoc. simpl. do 2 f_equal.
    apply imap_ext. intros j x _. simpl. f_equal. lia.
Qed.

Lemma loadImages_fresh k c cl :
  closures c !! k = Some cl → imagesLoaded cl = false →
  loadImages k c =
  alter_closure k (set_imagesLoaded true)
    (set_images (images c ++ inserted_images (imagesUrl cl)) c).
Proof.
  intros Hk Hl. unfold loadImages. rewrite Hk, Hl, loadImages_loop_eq.
  unfold inserted_images. do 3 f_equal.
Qed.

Lemma loadImages_loaded k c cl :
  closures c !! k = Some cl → imagesLoaded cl = true → loadImages k c = c.
Proof. intros Hk Hl. unfold loadImages. by rewrite Hk, Hl. Qed.

Lemma loadImages_closure k c cl :
  closures c !! k = Some cl →
  closures (loadImages k c) !! k = Some (set_imagesLoaded true cl).
Proof.
  intros Hk. destruct (imagesLoaded cl) eqn:Hl.
  - rewrite (loadImages_loaded k c cl) by done. rewrite Hk. f_equal.
    destruct cl; simpl in *; by subst.
  - rewrite (loadImages_fresh k c cl) by done. simpl.
    rewrite list_lookup_alter_eq, Hk. done.
Qed.

Lemma loadImages_idempotent k c : loadImages k (loadImages k c) = loadImages k c.
Proof.
  destruct (closures c !! k) as [cl|] eqn:Hk.
  - eapply loadImages_loaded; [by apply loadImages_closure | done].
  - unfold loadImages at 2. rewrite Hk. unfold loadImages. by rewrite Hk.
Qed.

Lemma loadImages_iter k c n :
  (1 ≤ n)%nat → Nat.iter n (loadImages k) c = loadImages k c.
Proof.
  induction n as [|n IH]; [lia|]. intros _. destruct n as [|n]; [done|].
  change (Nat.iter (S (S n)) (loadImages k) c)
    with (loadImages k (Nat.iter (S n) (loadImages k) c)).
  rewrite IH by lia. apply loadImages_idempotent.
Qed.

Lemma inserted_images_length urls :
  length (inserted_images urls) = (length urls - 1)%nat.
Proof. unfold inserted_images. by rewrite length_imap, length_drop. Qed.

Lemma inserted_images_lookup urls j url :
  (1 ≤ j)%nat → urls !! j = Some url →
  inserted_images urls !! (j - 1)%nat = Some (createImg (Z.of_nat j) url).
Proof.
  intros Hj Hu. unfold inserted_images. rewrite list_lookup_imap, lookup_drop.
  replace (1 + (j - 1))%nat with j by lia. rewrite Hu. simpl.
  do 2 f_equal. lia.
Qed.

(** ** [updateCarousel] *)

Lemma updateCarousel_guarded (c : Carousel) (k : nat) (cl : Closure) (i : Z) :
  closures c !! k = Some cl →
  i = currentIndex cl ∨ i < 0 ∨ totalImages cl ≤ i →
  updateCarousel k i c = c.
Proof.
  intros Hk Hi. unfold updateCarousel. rewrite Hk.
  destruct (i =? currentIndex cl) eqn:E1; [done|].
  destruct (i <? 0) eqn:E2; [done|].
  destruct (i >=? totalImages cl) eqn:E3; [done|]. lia.
Qed.

(** C4. [updateCarousel] given the current index, a negative index, or an
    index not below [totalImages] returns at once: the container is what it
    was, and so are the closure (current index, loaded flag), the images and
    the dots. *)
Theorem updateCarousel_noop (c : Carousel) (k : nat) (cl : Closure) (i : Z) :
  closures c !! k = Some cl →
  i = currentIndex cl ∨ i < 0 ∨ totalImages cl ≤ i →
  updateCarousel k i c = c ∧
  closures (updateCarousel k i c) !! k = Some cl ∧
  images (updateCarousel k i c) = images c ∧
  dotElements (updateCarousel k i c) = dotElements c.
Proof.
  intros Hk Hi. by rewrite (updateCarousel_guarded c k cl i).
Qed.

Lemma updateCarousel_noop_witness :
  updateCarousel 0 3 (initialised card3) = initialised card3.
Proof.
  refine (proj1 (updateCarousel_noop (initialised card3) 0
    (new_closure [JStr "/media/p/0.jpg"; JStr "/media/p/1.jpg"; JStr "/media/p/2.jpg"] 3)
    3 _ _)).
  - vm_compute. reflexivity.
  - right. right. simpl. lia.
Defined.

(** C3 (as amended). On an instance whose images are not yet inserted,
    calling [loadImages] once or more inserts exactly one image element for
    each index from 1 up to the length of the URL list less one (the list as
    parsed and filtered; its length, not the total image count, bounds the
    loop), each with the fixed positioning classes and the low stacking class
    [z-0]; every call after the first changes nothing. *)
Theorem loadImages_once (c : Carousel) (k : nat) (cl : Closure) (n : nat) :
  closures c !! k = Some cl → imagesLoaded cl = false → (1 ≤ n)%nat →
  images (Nat.iter n (loadImages k) c) = images c ++ inserted_images (imagesUrl cl) ∧
  length (inserted_images (imagesUrl cl)) = (length (imagesUrl cl) - 1)%nat ∧
  (∀ j url, (1 ≤ j)%nat → imagesUrl cl !! j = Some url →
     inserted_images (imagesUrl cl) !! (j - 1)%nat = Some (createImg (Z.of_nat j) url)) ∧
  (∀ im, im ∈ inserted_images (imagesUrl cl) →
     img_classList im = inserted_className ∧ ¬ image_active im) ∧
  loadImages k (Nat.iter n (loadImages k) c) = Nat.iter n (loadImages k) c.
Proof.
  intros Hk Hl Hn. rewrite loadImages_iter by done.
  split_and!.
  - by rewrite (loadImages_fresh k c cl).
  - apply inserted_images_length.
  - intros j url. apply inserted_images_lookup.
  - intros im Him. unfold inserted_images in Him.
    apply list_elem_of_lookup in Him as [j Hj].
    rewrite list_lookup_imap in Hj.
    destruct (drop 1 (imagesUrl cl) !! j); simplify_eq/=.
    split; [done|]. unfold image_active; simpl.
    intros H. apply (bool_decide_pack _) in H. vm_compute in H. done.
  - apply loadImages_idempotent.
Qed.

Lemma loadImages_once_witness :
  images (Nat.iter 2 (loadImages 0) (initialised card3)) =
  images (initialised card3) ++
  inserted_images [JStr "/media/p/0.jpg"; JStr "/media/p/1.jpg"; JStr "/media/p/2.jpg"].
Proof.
  refine (proj1 (loadImages_once (initialised card3) 0
    (new_closure [JStr "/media/p/0.jpg"; JStr "/media/p/1.jpg"; JStr "/media/p/2.jpg"] 3)
    2 _ _ _)).
  - vm_compute. reflexivity.
  - reflexivity.
  - lia.
Defined.

(** C3 as stated fails: with three URLs and a total image count of two, two
    calls insert two images, for the indices 1 and 2, not one per index
    [1..N-1] with [N] the total image count. *)
Lemma loadImages_total_counterexample :
  (totalImages <$> closures (initialised card_long) !! 0%nat) = Some 2 ∧
  (imagesLoaded <$> closures (initialised card_long) !! 0%nat) = Some false ∧
  length (images (loadImages 0 (loadImages 0 (initialised card_long)))) =
    (length (images (initialised card_long)) + 2)%nat ∧
  (img_data_carousel_image <$>
     images (loadImages 0 (loadImages 0 (initialised card_long))) !! 2%nat) = Some "2".
Proof. vm_compute. done. Qed.

(** Frame lemmas: what the updates leave alone. *)

Lemma alter_id_at {A} (f : A → A) (l : list A) (i : nat) :
  (∀ x, l !! i = Some x → f x = x) → alter f i l = l.
Proof.
  intros Hf. apply list_eq. intros j.
  destruct (decide (i = j)) as [<- | Hne].
  - rewrite list_lookup_alter_eq. destruct (l !! i) eqn:E; [|done].
    simpl. f_equal. by apply Hf.
  - by rewrite list_lookup_alter_ne.
Qed.

Lemma images_alter_dot i f c : images (alter_dot i f c) = images c.
Proof. unfold alter_dot. by case_match. Qed.

Lemma closures_alter_dot i f c : closures (alter_dot i f c) = closures c.
Proof. unfold alter_dot. by case_match. Qed.

Lemma listeners_alter_dot i f c : listeners (alter_dot i f c) = listeners c.
Proof. unfold alter_dot. by case_match. Qed.

Lemma animationFrames_alter_dot i f c :
  animationFrames (alter_dot i f c) = animationFrames c.
Proof. unfold alter_dot. by case_match. Qed.

Lemma data_initialized_alter_dot i f c :
  data_initialized (alter_dot i f c) = data_initialized c.
Proof. unfold alter_dot. by case_match. Qed.

Lemma dotElements_alter_dot i f c :
  0 ≤ i → dotElements (alter_dot i f c) = alter f (Z.to_nat i) (dotElements c).
Proof.
  intros Hi. unfold alter_dot, dotElements.
  destruct (i <? 0) eqn:E; [lia|]. simpl. by destruct (card c).
Qed.

Lemma closures_loadImages k c :
  closures (loadImages k c) = alter (set_imagesLoaded true) k (closures c).
Proof.
  destruct (closures c !! k) as [cl|] eqn:Hk.
  - destruct (imagesLoaded cl) eqn:Hl.
    + rewrite (loadImages_loaded k c cl) by done.
      symmetry. apply alter_id_at. intros x Hx.
      rewrite Hk in Hx. injection Hx as <-.
      destruct cl; simpl in *; by subst.
    + by rewrite (loadImages_fresh k c cl).
  - unfold loadImages. rewrite Hk. symmetry.
    apply alter_id_at. intros x Hx. congruence.
Qed.

Lemma dotElements_alter_image pos f c :
  dotElements (alter_image pos f c) = dotElements c.
Proof. done. Qed.

Lemma dotElements_alter_closure k f c :
  dotElements (alter_closure k f c) = dotElements c.
Proof. done. Qed.

(** What [updateCarousel] does once its guard is passed, field by field.
    [forced_load] is the container after the lazy load the call may force. *)
Section Switch.
Variables (c : Carousel) (k : nat) (cl : Closure) (i : Z).
Hypothesis Hk : closures c !! k = Some cl.
Hypothesis Hcur : 0 ≤ currentIndex cl.
Hypothesis Hi : 0 ≤ i < totalImages cl.
Hypothesis Hne : i ≠ currentIndex cl.

Lemma updateCarousel_closures :
  closures (updateCarousel k i c) = alter (set_currentIndex i) k (closures (forced_load k cl i c)).
Proof.
  unfold updateCarousel. rewrite Hk.
  destruct (i =? currentIndex cl) eqn:E1; [lia|].
  destruct (i <? 0) eqn:E2; [lia|].
  destruct (i >=? totalImages cl) eqn:E3; [lia|]. simpl.
  repeat case_match; cbn; rewrite ?closures_alter_dot; cbn;
    by rewrite ?closures_alter_dot.
Qed.

Lemma updateCarousel_images :
  images (updateCarousel k i c) =
  from_option (fun r => alter promote_image r.1) id (querySelector_image i (forced_load k cl i c))
    (from_option (fun r => alter demote_image r.1) id
       (querySelector_image (currentIndex cl) (forced_load k cl i c)) (images (forced_load k cl i c))).
Proof.
  unfold updateCarousel. rewrite Hk.
  destruct (i =? currentIndex cl) eqn:E1; [lia|].
  destruct (i <? 0) eqn:E2; [lia|].
  destruct (i >=? totalImages cl) eqn:E3; [lia|]. simpl.
  repeat case_match; cbn; rewrite ?images_alter_dot; cbn;
    by rewrite ?images_alter_dot.
Qed.

Lemma updateCarousel_dotElements :
  dotElements (updateCarousel k i c) =
  from_option (fun _ => alter promote_dot (Z.to_nat i)) id (querySelector_image i (forced_load k cl i c))
    (from_option (fun _ => alter demote_dot (Z.to_nat (currentIndex cl))) id
       (querySelector_image (currentIndex cl) (forced_load k cl i c)) (dotElements (forced_load k cl i c))).
Proof.
  unfold updateCarousel. rewrite Hk.
  destruct (i =? currentIndex cl) eqn:E1; [lia|].
  destruct (i <? 0) eqn:E2; [lia|].
  destruct (i >=? totalImages cl) eqn:E3; [lia|]. simpl.
  rewrite dotElements_alter_closure.
  repeat case_match; cbn;
    rewrite ?dotElements_alter_dot, ?dotElements_alter_image by lia;
    rewrite ?dotElements_alter_dot, ?dotElements_alter_image by lia; done.
Qed.
End Switch.

Lemma querySelector_image_Some i c pos im :
  querySelector_image i c = Some (pos, im) →
  images c !! pos = Some im ∧ img_data_carousel_image im = pretty i.
Proof. unfold querySelector_image. rewrite list_find_Some. tauto. Qed.

Lemma querySelector_image_distinct i j c pi pj imi imj :
  i ≠ j →
  querySelector_image i c = Some (pi, imi) →
  querySelector_image j c = Some (pj, imj) → pi ≠ pj.
Proof.
  intros Hne [Hi Hai]%querySelector_image_Some [Hj Haj]%querySelector_image_Some ->.
  simplify_eq. rewrite Hai in Haj. by apply (inj pretty) in Haj.
Qed.

Lemma demote_image_inactive im : ¬ image_active (demote_image im).
Proof. unfold image_active; simpl. by apply replace_old_gone. Qed.

Lemma demote_dot_inactive d : ¬ dot_active (demote_dot d).
Proof. unfold dot_active; simpl. by apply replace_old_gone. Qed.

Lemma promote_image_active im :
  "z-0" ∈ img_classList im → image_active (promote_image im).
Proof. unfold image_active; simpl. apply replace_new_there. Qed.

Lemma promote_dot_active d :
  "bg-black/20" ∈ dot_classList d → dot_active (promote_dot d).
Proof. unfold dot_active; simpl. apply replace_new_there. Qed.

(** What a switch does, step by step.  For an instance with current index
    [c] and an in-range target [i] other than [c], [updateCarousel] first
    runs [loadImages] when the images are not yet loaded and [i > 0]; then,
    if the container holds an image element for [c], that image and dot [c]
    lose the active styling; if it holds an image element for [i] carrying
    [z-0], that image gets the active styling, and so does dot [i] when it
    carries [bg-black/20]; the current index becomes [i] whether or not an
    element was found. *)
Theorem updateCarousel_switch (c : Carousel) (k : nat) (cl : Closure) (i : Z) :
  closures c !! k = Some cl →
  0 ≤ currentIndex cl →
  0 ≤ i < totalImages cl →
  i ≠ currentIndex cl →
  (imagesLoaded cl = false → 0 < i → forced_load k cl i c = loadImages k c) ∧
  (currentIndex <$> closures (updateCarousel k i c) !! k) = Some i ∧
  (imagesLoaded <$> closures (updateCarousel k i c) !! k)
    = Some (imagesLoaded cl || (i >? 0)) ∧
  length (images (updateCarousel k i c)) = length (images (forced_load k cl i c)) ∧
  (∀ pos im,
     querySelector_image (currentIndex cl) (forced_load k cl i c) = Some (pos, im) →
     (∃ im', images (updateCarousel k i c) !! pos = Some im' ∧ ¬ image_active im') ∧
     (∀ dot', dotElements (updateCarousel k i c) !! Z.to_nat (currentIndex cl) = Some dot' →
              ¬ dot_active dot')) ∧
  (∀ pos im,
     querySelector_image i (forced_load k cl i c) = Some (pos, im) →
     "z-0" ∈ img_classList im →
     (∃ im', images (updateCarousel k i c) !! pos = Some im' ∧ image_active im') ∧
     (∀ dot, dotElements (forced_load k cl i c) !! Z.to_nat i = Some dot →
             "bg-black/20" ∈ dot_classList dot →
             ∃ dot', dotElements (updateCarousel k i c) !! Z.to_nat i = Some dot' ∧
                     dot_active dot')).
Proof.
  intros Hk Hcur Hi Hne.
  assert (Hdist : Z.to_nat i ≠ Z.to_nat (currentIndex cl)) by lia.
  split_and!.
  - intros Hl Hpos. unfold forced_load. rewrite Hl.
    destruct (i >? 0) eqn:E; [done | lia].
  - rewrite (updateCarousel_closures c k cl i) by done.
    rewrite list_lookup_alter_eq. unfold forced_load.
    case_match; rewrite ?closures_loadImages, ?list_lookup_alter_eq, Hk; done.
  - rewrite (updateCarousel_closures c k cl i) by done.
    rewrite list_lookup_alter_eq. unfold forced_load.
    destruct (imagesLoaded cl) eqn:Hl, (i >? 0) eqn:E; simpl;
      rewrite ?closures_loadImages, ?list_lookup_alter_eq, Hk; simpl;
      by rewrite ?Hl.
  - rewrite (updateCarousel_images c k cl i) by done.
    destruct (querySelector_image i _) as [[??]|],
      (querySelector_image (currentIndex cl) _) as [[??]|]; simpl;
      by rewrite ?length_alter.
  - intros pos im Hq. split.
    + rewrite (updateCarousel_images c k cl i) by done. rewrite Hq. simpl.
      pose proof (querySelector_image_Some _ _ _ _ Hq) as [Hpos _].
      exists (demote_image im). split; [|apply demote_image_inactive].
      destruct (querySelector_image i _) as [[pn imn]|] eqn:Hqn; simpl.
      * rewrite list_lookup_alter_ne
          by (eapply querySelector_image_distinct; eauto).
        by rewrite list_lookup_alter_eq, Hpos.
      * by rewrite list_lookup_alter_eq, Hpos.
    + intros dot'. rewrite (updateCarousel_dotElements c k cl i) by done.
      rewrite Hq. simpl.
      destruct (querySelector_image i _) as [[pn imn]|]; simpl.
      * rewrite list_lookup_alter_ne by done. rewrite list_lookup_alter_eq.
        destruct (dotElements _ !! _); intros; simplify_eq/=.
        apply demote_dot_inactive.
      * rewrite list_lookup_alter_eq.
        destruct (dotElements _ !! _); intros; simplify_eq/=.
        apply demote_dot_inactive.
  - intros pos im Hq Hz. split.
    + rewrite (updateCarousel_images c k cl i) by done. rewrite Hq. simpl.
      pose proof (querySelector_image_Some _ _ _ _ Hq) as [Hpos _].
      exists (promote_image im). split; [|by apply promote_image_active].
      rewrite list_lookup_alter_eq.
      destruct (querySelector_image (currentIndex cl) _) as [[pc imc]|] eqn:Hqc; simpl.
      * rewrite list_lookup_alter_ne
          by (eapply querySelector_image_distinct; [| exact Hqc | exact Hq]; done).
        by rewrite Hpos.
      * by rewrite Hpos.
    + intros dot Hdot Hcls. exists (promote_dot dot).
      split; [|by apply promote_dot_active].
      rewrite (updateCarousel_dotElements c k cl i) by done. rewrite Hq. simpl.
      rewrite list_lookup_alter_eq.
      destruct (querySelector_image (currentIndex cl) _) as [[pc imc]|]; simpl.
      * rewrite list_lookup_alter_ne by done. by rewrite Hdot.
      * by rewrite Hdot.
Qed.

Lemma no_active_image_check (l : list Img) :
  forallb (fun im => negb (contains "z-10" (img_classList im))) l = true →
  Forall (fun im => ¬ image_active im) l.
Proof.
  induction l as [|im l IH]; simpl; [constructor|].
  intros [H1 H2]%andb_prop. constructor; [|by apply IH].
  unfold image_active, contains in *. intros Hin.
  by rewrite bool_decide_eq_true_2 in H1.
Qed.

Lemma no_active_dot_check (l : list Dot) :
  forallb (fun d => negb (contains "bg-black" (dot_classList d))) l = true →
  Forall (fun d => ¬ dot_active d) l.
Proof.
  induction l as [|d l IH]; simpl; [constructor|].
  intros [H1 H2]%andb_prop. constructor; [|by apply IH].
  unfold dot_active, contains in *. intros Hin.
  by rewrite bool_decide_eq_true_2 in H1.
Qed.

Lemma updateCarousel_switch_witness :
  (currentIndex <$> closures (updateCarousel 0 1 (initialised card3)) !! 0%nat) = Some 1.
Proof.
  refine (proj1 (proj2 (updateCarousel_switch (initialised card3) 0
    (new_closure [JStr "/media/p/0.jpg"; JStr "/media/p/1.jpg"; JStr "/media/p/2.jpg"] 3)
    1 _ _ _ _))).
  - vm_compute. reflexivity.
  - simpl. lia.
  - simpl. lia.
  - simpl. lia.
Defined.

(** C5.  The switch misses its target on the card whose image list has an
    empty entry: three entries for a total count of three, of which the
    filter of the initialiser keeps two.  [updateCarousel(2)] on the fresh
    instance runs the lazy load, takes the active styling from image 0 and
    dot 0, finds no image element for index 2 and promotes nothing (dot 2 is
    there and stays inactive), and still stores 2 as the current index. *)
Theorem updateCarousel_promotes_nothing :
  (imagesUrl <$> closures (initialised card_gap) !! 0%nat) =
    Some [JStr "/media/p/0.jpg"; JStr "/media/p/2.jpg"] ∧
  (totalImages <$> closures (initialised card_gap) !! 0%nat) = Some 3 ∧
  (currentIndex <$> closures (initialised card_gap) !! 0%nat) = Some 0 ∧
  (currentIndex <$> closures (updateCarousel 0 2 (initialised card_gap)) !! 0%nat) = Some 2 ∧
  (imagesLoaded <$> closures (updateCarousel 0 2 (initialised card_gap)) !! 0%nat) = Some true ∧
  querySelector_image 2 (updateCarousel 0 2 (initialised card_gap)) = None ∧
  (∃ dot', dotElements (updateCarousel 0 2 (initialised card_gap)) !! 2%nat = Some dot' ∧
           ¬ dot_active dot') ∧
  Forall (fun im => ¬ image_active im) (images (updateCarousel 0 2 (initialised card_gap))) ∧
  Forall (fun d => ¬ dot_active d) (dotElements (updateCarousel 0 2 (initialised card_gap))).
Proof.
  split_and!; try (vm_compute; reflexivity).
  - eexists. split; [vm_compute; reflexivity|].
    intros H. apply (bool_decide_pack _) in H. vm_compute in H. done.
  - apply no_active_image_check. vm_compute. reflexivity.
  - apply no_active_dot_check. vm_compute. reflexivity.
Qed.

(** ** Initialisation *)

Section InitFacts.
Variable JSON_parse : string -> option JSValue.

Lemma parse_images_set_initialized v c :
  parse_images JSON_parse (set_initialized v c) = parse_images JSON_parse c.
Proof. done. Qed.

Lemma init_carousel_no_card c :
  card c = None → init_carousel JSON_parse c = Normal (set_initialized "true" c, []).
Proof. intros H. unfold init_carousel. simpl. by rewrite H. Qed.

Lemma init_carousel_throw c dots e :
  card c = Some dots → parse_images JSON_parse c = Throw e →
  init_carousel JSON_parse c =
  Normal (set_initialized "true" c, [("Ошибка парсинга картинок", e)]).
Proof.
  intros Hc Hp. unfold init_carousel. simpl.
  rewrite Hc, parse_images_set_initialized, Hp. done.
Qed.

Lemma init_carousel_static c dots urls :
  card c = Some dots → parse_images JSON_parse c = Normal urls →
  parseInt_or_1 (data_totalImages c) ≤ 1 →
  init_carousel JSON_parse c =
  Normal (mark_first_dot
            (hide_extra_dots (parseInt_or_1 (data_totalImages c))
               (set_initialized "true" c)), []).
Proof.
  intros Hc Hp Ht. unfold init_carousel. simpl.
  rewrite Hc, parse_images_set_initialized, Hp.
  destruct (_ <=? 1) eqn:E; [done | lia].
Qed.

(** The forEach body never throws: the one throwing block is caught. *)
Lemma init_carousel_normal c : ∃ r, init_carousel JSON_parse c = Normal r.
Proof. unfold init_carousel. repeat case_match; eauto. Qed.

Lemma init_carousel_marks c r :
  init_carousel JSON_parse c = Normal r → data_initialized r.1 = Some "true".
Proof.
  unfold init_carousel, mark_first_dot, hide_extra_dots.
  repeat case_match; intros; simplify_eq/=;
    rewrite ?data_initialized_alter_dot; try done.
Qed.
End InitFacts.

(** ** The loop over the containers *)

Section Loop.
Variable JSON_parse : string -> option JSValue.

Lemma uninitialized_true p i :
  uninitialized p i = true ↔
  ∃ c, containers p !! i = Some c ∧ data_initialized c = None.
Proof.
  unfold uninitialized. destruct (containers p !! i) as [c|].
  - rewrite bool_decide_eq_true. naive_solver.
  - naive_solver.
Qed.

Lemma elem_of_querySelectorAll scope p i :
  i ∈ querySelectorAll scope p ↔
  scope_descendant scope i = true ∧ scope_self scope ≠ Some i ∧
  uninitialized p i = true.
Proof.
  unfold querySelectorAll. rewrite list_elem_of_In, filter_In, <- list_elem_of_In.
  rewrite !andb_true_iff, bool_decide_eq_true, elem_of_seq. split.
  - tauto.
  - intros (Hd & Hs & Hu). split; [|done].
    apply uninitialized_true in Hu as (c & Hc & _).
    apply lookup_lt_Some in Hc. lia.
Qed.

Lemma elem_of_carousels scope p i :
  i ∈ carousels scope p ↔
  (scope_descendant scope i = true ∨ scope_self scope = Some i) ∧
  uninitialized p i = true.
Proof.
  unfold carousels. rewrite elem_of_app, elem_of_querySelectorAll.
  destruct (scope_self scope) as [s|] eqn:Hs.
  - destruct (uninitialized p s) eqn:Hu.
    + rewrite list_elem_of_singleton.
      destruct (decide (i = s)) as [-> | Hne];
        intuition (try congruence).
    + rewrite elem_of_nil.
      destruct (decide (i = s)) as [-> | Hne];
        intuition (try congruence).
  - rewrite elem_of_nil. intuition (try congruence).
Qed.

Lemma carousels_NoDup scope p : NoDup (carousels scope p).
Proof.
  unfold carousels. apply NoDup_app. split_and!.
  - unfold querySelectorAll. apply NoDup_ListNoDup, List.NoDup_filter, NoDup_ListNoDup, NoDup_seq.
  - intros i Hi%elem_of_querySelectorAll Hs.
    destruct (scope_self scope) as [s|]; [|by apply elem_of_nil in Hs].
    destruct (uninitialized p s); [|by apply elem_of_nil in Hs].
    apply list_elem_of_singleton in Hs as ->. naive_solver.
  - repeat case_match; try apply NoDup_nil_2. apply NoDup_singleton.
Qed.

Lemma init_at_Some i p c r :
  containers p !! i = Some c → init_carousel JSON_parse c = Normal r →
  init_at JSON_parse i p =
  Normal {| containers := <[i := r.1]> (containers p); console := console p ++ r.2 |}.
Proof. intros Hc Hr. unfold init_at. by rewrite Hc, Hr. Qed.

(** The loop completes normally; a container outside the array keeps its
    state; each container of the array ends in the state the callback gives
    it on its own, and what the callback logged is on the console. *)
Lemma forEach_spec l : ∀ p,
  NoDup l →
  ∃ p', forEach JSON_parse l p = Normal p' ∧
    length (containers p') = length (containers p) ∧
    (∀ j, j ∉ l → containers p' !! j = containers p !! j) ∧
    (∀ j c, j ∈ l → containers p !! j = Some c →
       ∃ r, init_carousel JSON_parse c = Normal r ∧
            containers p' !! j = Some r.1 ∧ r.2 ⊆ console p') ∧
    console p ⊆ console p'.
Proof.
  induction l as [|i l IH]; intros p Hnd.
  - exists p. simpl. split_and!; try done. intros j c Hj. by apply elem_of_nil in Hj.
  - apply NoDup_cons in Hnd as [Hi Hnd]. simpl.
    destruct (containers p !! i) as [c|] eqn:Hc.
    + destruct (init_carousel_normal JSON_parse c) as [r Hr].
      rewrite (init_at_Some i p c r) by done. simpl.
      destruct (IH {| containers := <[i := r.1]> (containers p);
                      console := console p ++ r.2 |} Hnd)
        as (p' & Hp' & Hlen & Hout & Hin & Hlog).
      simpl in *. exists p'. split_and!; try done.
      * by rewrite Hlen, length_insert.
      * intros j Hj. rewrite not_elem_of_cons in Hj. destruct Hj as [Hji Hjl].
        rewrite Hout by done. by rewrite list_lookup_insert_ne.
      * intros j cj Hj Hcj. apply elem_of_cons in Hj as [-> | Hj].
        -- simplify_eq. exists r. split_and!; [done| |set_solver].
           rewrite Hout by done. rewrite list_lookup_insert_eq; [done|].
           by eapply lookup_lt_Some.
        -- assert (j ≠ i) by (intros ->; done).
           apply Hin; [done|]. by rewrite list_lookup_insert_ne.
      * set_solver.
    + unfold init_at. rewrite Hc. simpl.
      destruct (IH p Hnd) as (p' & Hp' & Hlen & Hout & Hin & Hlog).
      exists p'. split_and!; try done.
      * intros j [_ Hj]%not_elem_of_cons. by apply Hout.
      * intros j cj Hj Hcj. apply elem_of_cons in Hj as [-> | Hj]; [congruence|].
        by apply Hin.
Qed.

Lemma initCarousels_spec scope p :
  ∃ p', initCarousels JSON_parse scope p = Normal p' ∧
    length (containers p') = length (containers p) ∧
    (∀ j, j ∉ carousels scope p → containers p' !! j = containers p !! j) ∧
    (∀ j c, j ∈ carousels scope p → containers p !! j = Some c →
       ∃ r, init_carousel JSON_parse c = Normal r ∧
            containers p' !! j = Some r.1 ∧ r.2 ⊆ console p') ∧
    console p ⊆ console p'.
Proof. apply forEach_spec, carousels_NoDup. Qed.

Lemma initCarousels_initialized scope p p' i c :
  initCarousels JSON_parse scope p = Normal p' →
  containers p !! i = Some c → data_initialized c ≠ None →
  containers p' !! i = Some c.
Proof.
  intros Hp Hc Hi.
  destruct (initCarousels_spec scope p) as (p'' & Hp'' & _ & Hout & _).
  rewrite Hp in Hp''. injection Hp'' as <-. rewrite Hout; [done|].
  rewrite elem_of_carousels, uninitialized_true. naive_solver.
Qed.

Lemma carousels_after scope p p' :
  initCarousels JSON_parse scope p = Normal p' → carousels scope p' = [].
Proof.
  intros Hp.
  destruct (initCarousels_spec scope p) as (p'' & Hp'' & Hlen & Hout & Hin & _).
  rewrite Hp in Hp''. injection Hp'' as <-.
  destruct (carousels scope p') as [|i l] eqn:E; [done|]. exfalso.
  assert (Hi : i ∈ carousels scope p') by (rewrite E; left).
  apply elem_of_carousels in Hi as [Hsc Hu].
  apply uninitialized_true in Hu as (c' & Hc' & Hnone).
  destruct (decide (i ∈ carousels scope p)) as [Hi | Hi].
  - destruct (containers p !! i) as [c|] eqn:Hc.
    + destruct (Hin i c Hi Hc) as (r & Hr & Hr' & _).
      apply init_carousel_marks in Hr. rewrite Hr' in Hc'.
      injection Hc' as <-. congruence.
    + apply lookup_ge_None in Hc. apply lookup_lt_Some in Hc'. lia.
  - rewrite Hout in Hc' by done. apply Hi.
    rewrite elem_of_carousels, uninitialized_true. eauto.
Qed.
End Loop.

(** ** The non-interactive cases *)

Lemma dotElements_hide_extra_dots total c :
  dotElements (hide_extra_dots total c) = dotElements c ∨
  dotElements (hide_extra_dots total c) = imap (hide_extra total) (dotElements c).
Proof.
  unfold hide_extra_dots. case_bool_decide; [right | by left].
  unfold dotElements. simpl. by destruct (card c).
Qed.

Lemma hide_extra_dots_lookup total c d dot' :
  dotElements (hide_extra_dots total c) !! d = Some dot' →
  ∃ dot, dotElements c !! d = Some dot ∧
         dot_click dot' = dot_click dot ∧ dot_classList dot' = dot_classList dot.
Proof.
  destruct (dotElements_hide_extra_dots total c) as [-> | ->]; [eauto|].
  rewrite list_lookup_imap. destruct (dotElements c !! d) as [dot|]; [|done].
  simpl. intros [= <-]. exists dot. split; [done|].
  unfold hide_extra. by case_match.
Qed.

Lemma hide_extra_dots_length total c :
  length (dotElements (hide_extra_dots total c)) = length (dotElements c).
Proof.
  destruct (dotElements_hide_extra_dots total c) as [-> | ->]; [done|].
  apply length_imap.
Qed.

Lemma hide_extra_dots_frame total c :
  listeners (hide_extra_dots total c) = listeners c ∧
  closures (hide_extra_dots total c) = closures c ∧
  animationFrames (hide_extra_dots total c) = animationFrames c ∧
  images (hide_extra_dots total c) = images c ∧
  data_initialized (hide_extra_dots total c) = data_initialized c.
Proof. unfold hide_extra_dots. by case_bool_decide. Qed.

Lemma dotElements_mark_first_dot c :
  dotElements (mark_first_dot c) =
  alter (dot_classList_apply (remove "bg-black/20")) 0%nat
    (alter (dot_classList_apply (add "bg-black")) 0%nat (dotElements c)).
Proof. unfold mark_first_dot. by rewrite !dotElements_alter_dot. Qed.

Lemma mark_first_dot_frame c :
  listeners (mark_first_dot c) = listeners c ∧
  closures (mark_first_dot c) = closures c ∧
  animationFrames (mark_first_dot c) = animationFrames c ∧
  images (mark_first_dot c) = images c ∧
  data_initialized (mark_first_dot c) = data_initialized c.
Proof. done. Qed.

Lemma mark_first_dot_lookup c d dot' :
  dotElements (mark_first_dot c) !! d = Some dot' →
  ∃ dot, dotElements c !! d = Some dot ∧ dot_click dot' = dot_click dot ∧
    (d ≠ 0%nat → dot' = dot) ∧
    (d = 0%nat → dot_classList dot' = remove "bg-black/20" (add "bg-black" (dot_classList dot))).
Proof.
  rewrite dotElements_mark_first_dot. destruct (decide (d = 0%nat)) as [-> | Hd].
  - rewrite !list_lookup_alter_eq.
    destruct (dotElements c !! 0%nat) as [dot|]; [|done].
    simpl. intros [= <-]. exists dot. by split_and!.
  - rewrite !list_lookup_alter_ne by done. intros H. exists dot'. by split_and!.
Qed.

Lemma mark_first_dot_active c : first_dot_active (mark_first_dot c).
Proof.
  intros dot' (dot & _ & _ & _ & Hcls)%mark_first_dot_lookup.
  unfold dot_active. rewrite Hcls by done.
  rewrite !elem_of_remove, elem_of_add. split; [auto | tauto].
Qed.

(** What the [totalImages <= 1] branch leaves behind. *)
Lemma static_branch total c :
  nothing_installed c (mark_first_dot (hide_extra_dots total (set_initialized "true" c))) ∧
  first_dot_active (mark_first_dot (hide_extra_dots total (set_initialized "true" c))).
Proof.
  split; [|apply mark_first_dot_active].
  destruct (hide_extra_dots_frame total (set_initialized "true" c))
    as (Hl & Hc & Hf & Hi & _).
  destruct (mark_first_dot_frame (hide_extra_dots total (set_initialized "true" c)))
    as (Hl' & Hc' & Hf' & Hi' & _).
  unfold nothing_installed. rewrite Hl', Hc', Hf', Hi', Hl, Hc, Hf, Hi.
  split_and!; try done.
  - rewrite dotElements_mark_first_dot, !length_alter.
    by rewrite hide_extra_dots_length.
  - intros d dot dot' Hd (dot1 & Hd1 & -> & _)%mark_first_dot_lookup.
    apply hide_extra_dots_lookup in Hd1 as (dot2 & Hd2 & -> & _).
    change (dotElements (set_initialized "true" c)) with (dotElements c) in Hd2.
    congruence.
Qed.

(** What the callback leaves behind whenever it creates no instance. *)
Lemma init_carousel_single (JSON_parse : string -> option JSValue) (c : Carousel) :
  parseInt_or_1 (data_totalImages c) ≤ 1 →
  ∃ c' log, init_carousel JSON_parse c = Normal (c', log) ∧
    nothing_installed c c' ∧
    (∀ urls, parse_images JSON_parse c = Normal urls →
       log = [] ∧ first_dot_active c').
Proof.
  intros Ht.
  assert (Hskip : nothing_installed c (set_initialized "true" c)).
  { unfold nothing_installed. split_and!; try done.
    intros d dot dot' H1 H2.
    change (dotElements (set_initialized "true" c)) with (dotElements c) in H2.
    congruence. }
  destruct (card c) as [dots|] eqn:Hc.
  - destruct (parse_images JSON_parse c) as [urls|e] eqn:Hp.
    + eexists _, _. split; [by eapply init_carousel_static|].
      destruct (static_branch (parseInt_or_1 (data_totalImages c)) c). by split_and!.
    + eexists _, _. split; [by eapply init_carousel_throw|]. by split.
  - eexists _, _. split; [by apply init_carousel_no_card|].
    split; [done|]. intros urls _. split; [done|].
    intros dot. unfold dotElements. simpl. by rewrite Hc.
Qed.

(** C6 (as amended). For a container whose total image count is at most 1
    and whose image list parses, the callback installs nothing (no listener
    on the container or on a dot, no closure, no image), logs nothing, and
    leaves the first dot, if there is one, marked active. *)
Theorem init_single_image (JSON_parse : string -> option JSValue) (c : Carousel)
    (urls : list JSValue) :
  parseInt_or_1 (data_totalImages c) ≤ 1 →
  parse_images JSON_parse c = Normal urls →
  ∃ c', init_carousel JSON_parse c = Normal (c', []) ∧
    nothing_installed c c' ∧ first_dot_active c'.
Proof.
  intros Ht Hp.
  destruct (init_carousel_single JSON_parse c Ht) as (c' & log & Hr & Hn & Hd).
  destruct (Hd urls Hp) as [-> Hdot]. by exists c'.
Qed.

Lemma init_single_image_witness :
  ∃ c', init_carousel parse_string_array card_single = Normal (c', []) ∧
    nothing_installed card_single c' ∧ first_dot_active c'.
Proof.
  apply (init_single_image parse_string_array card_single [JStr "/media/p/0.jpg"]).
  - vm_compute. discriminate.
  - vm_compute. reflexivity.
Defined.

(** C6 as stated fails: the card with a total count of 1 and no
    [data-images] makes the [try] block throw; the callback logs the error
    and returns before it reaches the dot, which stays inactive. *)
Lemma init_single_image_counterexample :
  parseInt_or_1 (data_totalImages card_single_no_list) = 1 ∧
  ∃ c', init_carousel parse_string_array card_single_no_list =
          Normal (c', [("Ошибка парсинга картинок", TypeError)]) ∧
        ∃ dot, dotElements c' !! 0%nat = Some dot ∧ ¬ dot_active dot.
Proof.
  split; [reflexivity|]. eexists. split; [vm_compute; reflexivity|].
  eexists. split; [reflexivity|].
  intros H. apply (bool_decide_pack _) in H. vm_compute in H. done.
Qed.

(** C10 (as amended). When the total-image-count attribute is missing or
    [parseInt] yields [NaN] for it, the total count is 1; and when the image
    list parses, the container is set up as a single-image one (nothing
    installed, nothing logged, first dot marked active), however many URLs
    the list holds. *)
Theorem init_without_total (JSON_parse : string -> option JSValue) (c : Carousel)
    (urls : list JSValue) :
  data_totalImages c = None ∨
    (∃ s, data_totalImages c = Some s ∧ parseInt s = None) →
  parse_images JSON_parse c = Normal urls →
  parseInt_or_1 (data_totalImages c) = 1 ∧
  ∃ c', init_carousel JSON_parse c = Normal (c', []) ∧
    nothing_installed c c' ∧ first_dot_active c'.
Proof.
  intros Ht Hp.
  assert (H1 : parseInt_or_1 (data_totalImages c) = 1).
  { unfold parseInt_or_1. destruct Ht as [-> | (s & -> & Hs)]; simpl.
    - reflexivity.
    - by rewrite Hs. }
  split; [done|].
  destruct (init_carousel_single JSON_parse c) as (c' & log & Hr & Hn & Hd); [lia|].
  destruct (Hd urls Hp) as [-> Hdot]. by exists c'.
Qed.

Lemma init_without_total_witness :
  parseInt_or_1 (data_totalImages card_no_total) = 1 ∧
  ∃ c', init_carousel parse_string_array card_no_total = Normal (c', []) ∧
    nothing_installed card_no_total c' ∧ first_dot_active c'.
Proof.
  apply (init_without_total parse_string_array card_no_total
           [JStr "/media/p/0.jpg"; JStr "/media/p/1.jpg"; JStr "/media/p/2.jpg"]).
  - left. reflexivity.
  - vm_compute. reflexivity.
Defined.

(** C10 as stated fails: the card without a total count whose image list is
    no JSON is treated as having one image, but the callback logs the
    [SyntaxError] and returns before it reaches the dots: the first dot
    stays inactive. *)
Lemma init_without_total_counterexample :
  parseInt_or_1 (data_totalImages card_no_total_malformed) = 1 ∧
  ∃ c', init_carousel parse_string_array card_no_total_malformed =
          Normal (c', [("Ошибка парсинга картинок", SyntaxError)]) ∧
        ∃ dot, dotElements c' !! 0%nat = Some dot ∧ ¬ dot_active dot.
Proof.
  split; [reflexivity|]. eexists. split; [vm_compute; reflexivity|].
  eexists. split; [reflexivity|].
  intros H. apply (bool_decide_pack _) in H. vm_compute in H. done.
Qed.

(** ** Malformed image lists *)

(** C2 (as amended). For a container whose image list makes the [try]
    block throw, a run of the initialiser that selects it completes normally
    (no exception escapes), logs the error when the container sits in a
    card, and leaves the container's dots, images and listeners as they
    were; every other selected container is processed as it would be alone,
    and containers not selected keep their state.  The container itself does
    get the [data-initialized] mark: the attribute is set before the list is
    parsed. *)
Theorem init_malformed_skipped (JSON_parse : string -> option JSValue)
    (scope : Scope) (p : Page) (i : nat) (c : Carousel) (e : JSError) :
  containers p !! i = Some c →
  i ∈ carousels scope p →
  parse_images JSON_parse c = Throw e →
  ∃ p', initCarousels JSON_parse scope p = Normal p' ∧
    containers p' !! i = Some (set_initialized "true" c) ∧
    nothing_installed c (set_initialized "true" c) ∧
    card (set_initialized "true" c) = card c ∧
    (card c ≠ None → ("Ошибка парсинга картинок", e) ∈ console p') ∧
    (∀ j cj, j ≠ i → j ∈ carousels scope p → containers p !! j = Some cj →
       ∃ r, init_carousel JSON_parse cj = Normal r ∧
            containers p' !! j = Some r.1) ∧
    (∀ j, j ∉ carousels scope p → containers p' !! j = containers p !! j).
Proof.
  intros Hc Hi Hp.
  destruct (initCarousels_spec JSON_parse scope p)
    as (p' & Hp' & Hlen & Hout & Hin & Hlog).
  exists p'. split; [done|].
  destruct (Hin i c Hi Hc) as (r & Hr & Hri & Hrlog).
  assert (Hr1 : r.1 = set_initialized "true" c ∧
                (card c ≠ None → r.2 = [("Ошибка парсинга картинок", e)])).
  { destruct (card c) as [dots|] eqn:Hcard.
    - rewrite (init_carousel_throw JSON_parse c dots e) in Hr by done.
      by injection Hr as <-.
    - rewrite init_carousel_no_card in Hr by done. by injection Hr as <-. }
  destruct Hr1 as [Hr1 Hr2]. rewrite Hr1 in Hri.
  split_and!; try done.
  - unfold nothing_installed. split_and!; try done.
    intros d dot dot' H1 H2.
    change (dotElements (set_initialized "true" c)) with (dotElements c) in H2.
    congruence.
  - intros Hcard. apply Hrlog. rewrite Hr2 by done. by left.
  - intros j cj _ Hj Hcj. destruct (Hin j cj Hj Hcj) as (r' & Hr' & Hr'' & _).
    eauto.
Qed.

Lemma init_malformed_skipped_witness :
  ∃ p', initCarousels parse_string_array document demo_page = Normal p' ∧
    containers p' !! 0%nat = Some (set_initialized "true" card_malformed) ∧
    nothing_installed card_malformed (set_initialized "true" card_malformed) ∧
    card (set_initialized "true" card_malformed) = card card_malformed ∧
    (card card_malformed ≠ None →
     ("Ошибка парсинга картинок", SyntaxError) ∈ console p') ∧
    (∀ j cj, j ≠ 0%nat → j ∈ carousels document demo_page →
       containers demo_page !! j = Some cj →
       ∃ r, init_carousel parse_string_array cj = Normal r ∧
            containers p' !! j = Some r.1) ∧
    (∀ j, j ∉ carousels document demo_page →
       containers p' !! j = containers demo_page !! j).
Proof.
  apply (init_malformed_skipped parse_string_array document demo_page 0
           card_malformed SyntaxError).
  - reflexivity.
  - apply elem_of_carousels. split; [left; reflexivity | reflexivity].
  - vm_compute. reflexivity.
Defined.

(** C2 as stated fails: after the run the container with the malformed list
    carries [data-initialized], although its list was never parsed; and the
    same container outside any card is marked without anything being
    logged. *)
Lemma init_malformed_counterexample :
  parse_images parse_string_array card_malformed = Throw SyntaxError ∧
  initCarousels parse_string_array document demo_page = Normal demo_page_initialised ∧
  (data_initialized <$> containers demo_page_initialised !! 0%nat)
    = Some (Some "true") ∧
  init_carousel parse_string_array (set_card None card_malformed)
    = Normal (set_initialized "true" (set_card None card_malformed), []).
Proof. vm_compute. done. Qed.

(** ** Running the initialiser again *)

(** C7. A run of the initialiser leaves every container that already
    carries [data-initialized] exactly as it is (listeners, closures, images
    and dots included), and running it again over the same scope changes
    nothing at all. *)
Theorem initCarousels_again (JSON_parse : string -> option JSValue)
    (scope : Scope) (p p' : Page) :
  initCarousels JSON_parse scope p = Normal p' →
  (∀ i c, containers p !! i = Some c → data_initialized c ≠ None →
          containers p' !! i = Some c) ∧
  initCarousels JSON_parse scope p' = Normal p'.
Proof.
  intros Hp. split.
  - intros i c. by apply (initCarousels_initialized JSON_parse scope).
  - unfold initCarousels. by rewrite (carousels_after JSON_parse scope p p').
Qed.

Lemma initCarousels_again_witness :
  initCarousels parse_string_array document demo_page_initialised
  = Normal demo_page_initialised.
Proof.
  refine (proj2 (initCarousels_again parse_string_array document demo_page
                   demo_page_initialised _)).
  vm_compute. reflexivity.
Defined.

(** ** Pointer movement *)

Lemma alter_closure_alter_dot k f i g c :
  alter_dot i g (alter_closure k f c) = alter_closure k f (alter_dot i g c).
Proof. unfold alter_dot. by case_match. Qed.

Lemma alter_closure_alter_closure k f g c :
  alter_closure k f (alter_closure k g c) = alter_closure k (f ∘ g) c.
Proof. unfold alter_closure, set_closures. simpl. by rewrite list_alter_alter_eq. Qed.

Lemma alter_closure_ext k f g c :
  (∀ cl, closures c !! k = Some cl → f cl = g cl) →
  alter_closure k f c = alter_closure k g c.
Proof.
  intros H. unfold alter_closure. f_equal.
  apply list_eq. intros j. destruct (decide (k = j)) as [<- | Hne].
  - rewrite !list_lookup_alter_eq. destruct (closures c !! k); simpl; [|done].
    f_equal. by apply H.
  - by rewrite !list_lookup_alter_ne.
Qed.

Lemma alter_closure_id k f c :
  (∀ cl, closures c !! k = Some cl → f cl = cl) → alter_closure k f c = c.
Proof.
  intros H. unfold alter_closure. rewrite alter_id_at by done. by destruct c.
Qed.

Lemma loadImages_isProcessing k b c :
  loadImages k (alter_closure k (set_isProcessing b) c) =
  alter_closure k (set_isProcessing b) (loadImages k c).
Proof.
  unfold loadImages. simpl. rewrite list_lookup_alter_eq.
  destruct (closures c !! k) as [cl|] eqn:Hk; simpl; [|done].
  destruct (imagesLoaded cl); [done|].
  rewrite !loadImages_loop_eq. simpl.
  unfold alter_closure, set_closures; simpl. f_equal.
  by rewrite !list_alter_alter_eq.
Qed.

Lemma forced_load_isProcessing k b cl i c :
  forced_load k (set_isProcessing b cl) i (alter_closure k (set_isProcessing b) c) =
  alter_closure k (set_isProcessing b) (forced_load k cl i c).
Proof.
  unfold forced_load. simpl. case_match; [apply loadImages_isProcessing | done].
Qed.

Lemma updateCarousel_isProcessing k b i c :
  updateCarousel k i (alter_closure k (set_isProcessing b) c) =
  alter_closure k (set_isProcessing b) (updateCarousel k i c).
Proof.
  unfold updateCarousel. simpl. rewrite list_lookup_alter_eq.
  destruct (closures c !! k) as [cl|] eqn:Hk; simpl; [|done].
  destruct ((i =? currentIndex cl) || (i <? 0) || (i >=? totalImages cl)); [done|].
  rewrite forced_load_isProcessing.
  generalize (forced_load k cl i c). intros c1.
  change (querySelector_image ?j (alter_closure k (set_isProcessing b) c1))
    with (querySelector_image j c1).
  destruct (querySelector_image (currentIndex cl) c1) as [[pc ?]|],
    (querySelector_image i c1) as [[pn ?]|];
    change (alter_image ?pos ?g (alter_closure k (set_isProcessing b) ?x))
      with (alter_closure k (set_isProcessing b) (alter_image pos g x));
    rewrite ?alter_closure_alter_dot;
    change (alter_image ?pos ?g (alter_closure k (set_isProcessing b) ?x))
      with (alter_closure k (set_isProcessing b) (alter_image pos g x));
    rewrite ?alter_closure_alter_dot;
    rewrite !alter_closure_alter_closure; by apply alter_closure_ext.
Qed.

Lemma updateCarousel_keeps_isProcessing k i c :
  (isProcessing <$> closures (updateCarousel k i c) !! k)
  = (isProcessing <$> closures c !! k).
Proof.
  destruct (closures c !! k) as [cl|] eqn:Hk.
  - destruct (decide (i = currentIndex cl ∨ i < 0 ∨ totalImages cl ≤ i)) as [H | H].
    + by rewrite (updateCarousel_guarded c k cl), Hk.
    + rewrite (updateCarousel_closures c k cl i) by (done || lia).
      rewrite list_lookup_alter_eq. unfold forced_load.
      case_match; rewrite ?closures_loadImages, ?list_lookup_alter_eq, Hk; done.
  - unfold updateCarousel. rewrite Hk. by rewrite Hk.
Qed.

Lemma updateCarousel_currentIndex k i c cl :
  closures c !! k = Some cl → 0 ≤ i < totalImages cl →
  (currentIndex <$> closures (updateCarousel k i c) !! k) = Some i.
Proof.
  intros Hk Hi. destruct (decide (i = currentIndex cl)) as [-> | Hne].
  - rewrite (updateCarousel_guarded c k cl) by auto. by rewrite Hk.
  - rewrite (updateCarousel_closures c k cl i) by done.
    rewrite list_lookup_alter_eq. unfold forced_load.
    case_match; rewrite ?closures_loadImages, ?list_lookup_alter_eq, Hk; done.
Qed.

Lemma clamp_max_min (v hi : Z) : 0 ≤ hi → Z.max 0 (Z.min v hi) = clamp v 0 hi.
Proof. intros Hhi. unfold clamp. repeat case_match; lia. Qed.

Lemma clamp_range (v lo hi : Z) : lo ≤ hi → lo ≤ clamp v lo hi ≤ hi.
Proof. intros H. unfold clamp. repeat case_match; lia. Qed.

Lemma safeIndex_pointer_zone64 total rect e :
  1 ≤ total →
  safeIndex total rect e =
  pointer_zone64 (rect_width rect) total (rect_left rect) (clientX e).
Proof. intros Ht. unfold safeIndex, pointer_zone64. apply clamp_max_min. lia. Qed.

(** [binary64] sees the number, not the fraction that writes it. *)
Lemma binary64_comp (q q' : Q) : (q == q')%Q → binary64 q = binary64 q'.
Proof. intros H. unfold binary64. by rewrite (Qred_complete q q' H). Qed.

(** Where the three operations are exact, the rounded mapping is the exact
    one. *)
Lemma pointer_zone64_exact (W : Q) (N : Z) (left clientX : Q) :
  (binary64 (clientX - left) == clientX - left)%Q →
  (binary64 (W / inject_Z N) == W / inject_Z N)%Q →
  (binary64 (binary64 (clientX - left) / binary64 (W / inject_Z N)) ==
     binary64 (clientX - left) / binary64 (W / inject_Z N))%Q →
  pointer_zone64 W N left clientX = pointer_zone W N (clientX - left).
Proof.
  intros Hx Hw Hq. unfold pointer_zone64, pointer_zone.
  f_equal. apply Qfloor_comp. rewrite Hq. by rewrite Hx, Hw.
Qed.

Lemma pointer_zone_range W N x : 1 ≤ N → 0 ≤ pointer_zone W N x ≤ N - 1.
Proof. intros HN. unfold pointer_zone, clamp. repeat case_match; lia. Qed.

(** The index the mapping yields is that of the zone holding the pointer:
    zone [z] spans [z * (W/N) <= x < (z+1) * (W/N)]. *)
Lemma pointer_zone_contains (W : Q) (N : Z) (x : Q) :
  (0 < W)%Q → 1 ≤ N → (0 <= x)%Q → (x < W)%Q →
  (inject_Z (pointer_zone W N x) * (W / inject_Z N) <= x)%Q ∧
  (x < inject_Z (pointer_zone W N x + 1) * (W / inject_Z N))%Q.
Proof.
  intros HW HN Hx0 HxW.
  assert (HNq : (0 < inject_Z N)%Q).
  { change 0%Q with (inject_Z 0). rewrite <- Zlt_Qlt. lia. }
  assert (HNne : ¬ (inject_Z N == 0)%Q).
  { intros E. rewrite E in HNq. by apply Qlt_irrefl in HNq. }
  set (zw := (W / inject_Z N)%Q).
  assert (Hzw : (0 < zw)%Q).
  { apply Qlt_shift_div_l; [done|]. by rewrite Qmult_0_l. }
  assert (Hzwne : ¬ (zw == 0)%Q).
  { intros E. rewrite E in Hzw. by apply Qlt_irrefl in Hzw. }
  assert (Hq0 : (0 <= x / zw)%Q).
  { apply Qle_shift_div_l; [done|]. by rewrite Qmult_0_l. }
  assert (HqN : (x / zw < inject_Z N)%Q).
  { apply Qlt_shift_div_r; [done|]. unfold zw. by rewrite Qmult_div_r. }
  assert (Hf0 : 0 ≤ Qfloor (x / zw)).
  { rewrite <- (Qfloor_Z 0). by apply Qfloor_resp_le. }
  assert (HfN : Qfloor (x / zw) < N).
  { rewrite Zlt_Qlt. eapply Qle_lt_trans; [apply Qfloor_le | done]. }
  assert (Hz : pointer_zone W N x = Qfloor (x / zw)).
  { unfold pointer_zone, clamp. fold zw. repeat case_match; lia. }
  assert (Hx : (x / zw * zw == x)%Q).
  { rewrite Qmult_comm. by apply Qmult_div_r. }
  rewrite Hz. split.
  - apply Qle_trans with (x / zw * zw)%Q.
    + apply Qmult_le_compat_r; [apply Qfloor_le | by apply Qlt_le_weak].
    + rewrite Hx. apply Qle_refl.
  - apply Qle_lt_trans with (x / zw * zw)%Q.
    + rewrite Hx. apply Qle_refl.
    + apply Qmult_lt_compat_r; [done | apply Qlt_floor].
Qed.

Lemma set_animationFrames_same c :
  set_animationFrames (animationFrames c) c = c.
Proof. by destruct c. Qed.

Lemma on_mousemove_dispatch (c : Carousel) (k : nat) (e : MouseEvent) :
  listeners c = [mouseenter k; mousemove k; mouseleave k] →
  dispatch (MouseMove e) c = on_mousemove k e c.
Proof. intros Hl. cbn. by rewrite Hl. Qed.

(** C1 (as amended). On an initialised carousel with [totalImages = N >= 2]
    and a container of width [W > 0], a pointer move outside the excluded
    overlay that arrives while no earlier move waits for its frame is, at
    its animation frame, [updateCarousel] called with
    [clamp(floor(x / (W/N)), 0, N-1)] as doubles compute it, [x] being
    [clientX] minus the left edge and the subtraction and the two divisions
    each rounded to the nearest double; that index becomes the current one.
    Where the three operations are exact it is the index of the formula
    over the rationals, and with [W = 300], [N = 3] and [x = 150] it is 1.
    A move over the overlay is dropped, and so is a move that arrives while
    the first one waits for its frame. *)
Theorem mousemove_zone (c : Carousel) (k : nat) (cl : Closure)
    (e : MouseEvent) (rect : DOMRect) :
  listeners c = [mouseenter k; mousemove k; mouseleave k] →
  closures c !! k = Some cl →
  2 ≤ totalImages cl →
  (0 < rect_width rect)%Q →
  animationFrames c = [] →
  target_in_fire e = false →
  isProcessing cl = false →
  (∀ e', target_in_fire e' = true → dispatch (MouseMove e') c = c) ∧
  (∀ e', dispatch (MouseMove e') (dispatch (MouseMove e) c) = dispatch (MouseMove e) c) ∧
  dispatch (AnimationFrame rect) (dispatch (MouseMove e) c) =
    updateCarousel k
      (pointer_zone64 (rect_width rect) (totalImages cl) (rect_left rect) (clientX e)) c ∧
  (currentIndex <$>
     closures (dispatch (AnimationFrame rect) (dispatch (MouseMove e) c)) !! k)
    = Some (pointer_zone64 (rect_width rect) (totalImages cl) (rect_left rect) (clientX e)) ∧
  ((binary64 (clientX e - rect_left rect) == clientX e - rect_left rect)%Q →
   (binary64 (rect_width rect / inject_Z (totalImages cl)) ==
      rect_width rect / inject_Z (totalImages cl))%Q →
   (binary64 (binary64 (clientX e - rect_left rect) /
              binary64 (rect_width rect / inject_Z (totalImages cl))) ==
      binary64 (clientX e - rect_left rect) /
      binary64 (rect_width rect / inject_Z (totalImages cl)))%Q →
   pointer_zone64 (rect_width rect) (totalImages cl) (rect_left rect) (clientX e) =
   pointer_zone (rect_width rect) (totalImages cl) (clientX e - rect_left rect)) ∧
  ((rect_width rect == 300)%Q → totalImages cl = 3 →
   (clientX e - rect_left rect == 150)%Q →
   (currentIndex <$>
      closures (dispatch (AnimationFrame rect) (dispatch (MouseMove e) c)) !! k)
     = Some 1).
Proof.
  intros Hl Hk HN HW Hfr Hfire Hproc.
  assert (Hmove : dispatch (MouseMove e) c =
            requestAnimationFrame k e (alter_closure k (set_isProcessing true) c)).
  { rewrite (on_mousemove_dispatch c k e Hl). unfold on_mousemove.
    by rewrite Hk, Hfire, Hproc. }
  assert (Heq : dispatch (AnimationFrame rect) (dispatch (MouseMove e) c) =
    updateCarousel k
      (pointer_zone64 (rect_width rect) (totalImages cl) (rect_left rect) (clientX e)) c).
  { rewrite Hmove. unfold requestAnimationFrame. simpl. rewrite Hfr. simpl.
    unfold frame_callback. simpl. rewrite list_lookup_alter_eq, Hk. simpl.
    destruct (Qeq_bool (rect_width rect) 0) eqn:E.
    { apply Qeq_bool_iff in E. rewrite E in HW. by apply Qlt_irrefl in HW. }
    rewrite safeIndex_pointer_zone64 by lia.
    set (z := pointer_zone64 _ _ _ _).
    replace (set_animationFrames []
               (set_animationFrames [(k, e)]
                  (alter_closure k (set_isProcessing true) c)))
      with (alter_closure k (set_isProcessing true) c).
    2:{ rewrite <- (set_animationFrames_same c) at 1. by rewrite Hfr. }
    rewrite updateCarousel_isProcessing, alter_closure_alter_closure.
    apply alter_closure_id. intros cl' Hcl'.
    pose proof (updateCarousel_keeps_isProcessing k z c) as Hp.
    rewrite Hcl', Hk in Hp. simpl in Hp. injection Hp as Hp.
    rewrite Hproc in Hp. destruct cl'; simpl in *; by subst. }
  assert (Hcur : ∀ z, 0 ≤ z < totalImages cl →
            (currentIndex <$> closures (updateCarousel k z c) !! k) = Some z).
  { intros z Hz. by apply (updateCarousel_currentIndex k z c cl). }
  split_and!.
  - intros e' He'. rewrite (on_mousemove_dispatch c k e' Hl). unfold on_mousemove.
    by rewrite Hk, He'.
  - intros e'. rewrite Hmove.
    rewrite (on_mousemove_dispatch _ k e') by done. unfold on_mousemove.
    cbn [requestAnimationFrame closures set_animationFrames].
    unfold alter_closure. cbn [closures set_closures].
    rewrite list_lookup_alter_eq, Hk. cbn.
    by destruct (target_in_fire e').
  - exact Heq.
  - rewrite Heq. apply Hcur.
    pose proof (clamp_range
      (Qfloor (binary64 (binary64 (clientX e - rect_left rect) /
                         binary64 (rect_width rect / inject_Z (totalImages cl)))))
      0 (totalImages cl - 1)) as Hr.
    unfold pointer_zone64. lia.
  - apply pointer_zone64_exact.
  - intros HW3 HN3 Hx. rewrite Heq, HN3.
    assert (Hz : pointer_zone64 (rect_width rect) 3 (rect_left rect) (clientX e) = 1).
    { unfold pointer_zone64.
      rewrite (binary64_comp (clientX e - rect_left rect) 150 Hx).
      rewrite (binary64_comp (rect_width rect / inject_Z 3) 100).
      - vm_compute. reflexivity.
      - rewrite HW3. reflexivity. }
    rewrite Hz. apply Hcur. lia.
Qed.

Lemma mousemove_zone_witness :
  dispatch (MouseMove move160_in_fire) (initialised card3) = initialised card3 ∧
  dispatch (MouseMove move400) (dispatch (MouseMove move160) (initialised card3)) =
    dispatch (MouseMove move160) (initialised card3) ∧
  dispatch (AnimationFrame rect300) (dispatch (MouseMove move160) (initialised card3)) =
    updateCarousel 0 1 (initialised card3) ∧
  pointer_zone64 300 3 10 160 = pointer_zone 300 3 (160 - 10) ∧
  (currentIndex <$>
     closures (dispatch (AnimationFrame rect300)
                 (dispatch (MouseMove move160) (initialised card3))) !! 0%nat) = Some 1.
Proof.
  destruct (mousemove_zone (initialised card3) 0
    (new_closure [JStr "/media/p/0.jpg"; JStr "/media/p/1.jpg"; JStr "/media/p/2.jpg"] 3)
    move160 rect300) as (Hdrop & Hthrottle & Hframe & _ & Hexact & Hscene).
  - reflexivity.
  - vm_compute. reflexivity.
  - simpl. lia.
  - reflexivity.
  - reflexivity.
  - reflexivity.
  - reflexivity.
  - split_and!.
    + apply Hdrop. reflexivity.
    + apply Hthrottle.
    + exact Hframe.
    + apply Hexact; vm_compute; reflexivity.
    + apply Hscene; reflexivity.
Defined.

(** C1 as stated fails twice over.  A move over the excluded overlay selects
    nothing: at 150 pixels from the left edge of a container 300 wide with
    three images the index stays 0, where the formula gives 1.  And the
    doubles round: for the width [216.9], the left edge [255.4] and the
    pointer at 400 the script selects index 2, where the formula over the
    same three numbers gives 1. *)
Lemma mousemove_zone_counterexample :
  ((currentIndex <$>
      closures (dispatch (AnimationFrame rect300)
                  (dispatch (MouseMove move160_in_fire) (initialised card3))) !! 0%nat)
     = Some 0 ∧
   pointer_zone (rect_width rect300) 3 (clientX move160_in_fire - rect_left rect300) = 1) ∧
  ((currentIndex <$>
      closures (dispatch (AnimationFrame rect_216_9)
                  (dispatch (MouseMove move400) (initialised card3))) !! 0%nat)
     = Some 2 ∧
   pointer_zone (rect_width rect_216_9) 3 (clientX move400 - rect_left rect_216_9) = 1).
Proof. vm_compute. done. Qed.

(** ** Consistent image and dot lists *)

Lemma images_ok_find cur l i im :
  images_ok cur l → 0 ≤ i → l !! Z.to_nat i = Some im →
  list_find (fun im => img_data_carousel_image im = pretty i) l
  = Some (Z.to_nat i, im).
Proof.
  intros Hok Hi Him. apply list_find_Some. split_and!; [done | |].
  - destruct (Hok _ _ Him) as (-> & _). f_equal. lia.
  - intros j y Hy Hj Hattr. destruct (Hok _ _ Hy) as (Hy' & _).
    rewrite Hy' in Hattr. apply (inj pretty) in Hattr. lia.
Qed.

Lemma images_ok_switch cur i l :
  images_ok cur l → 0 ≤ cur → 0 ≤ i → i ≠ cur →
  images_ok i (alter promote_image (Z.to_nat i) (alter demote_image (Z.to_nat cur) l)).
Proof.
  intros Hok Hcur Hi Hne j im Hj.
  destruct (decide (Z.to_nat i = j)) as [<- | Hji].
  - rewrite list_lookup_alter_eq, list_lookup_alter_ne in Hj by lia.
    destruct (l !! Z.to_nat i) as [old|] eqn:Hold; simplify_eq/=.
    destruct (Hok _ _ Hold) as (Hattr & H10 & H0).
    split_and!; [done | |].
    + split; [lia|]. intros _. apply replace_new_there. apply H0. lia.
    + split; [|lia]. intros Hin. exfalso. revert Hin. by apply replace_old_gone.
  - rewrite list_lookup_alter_ne in Hj by done.
    destruct (decide (Z.to_nat cur = j)) as [<- | Hjc].
    + rewrite list_lookup_alter_eq in Hj.
      destruct (l !! Z.to_nat cur) as [old|] eqn:Hold; simplify_eq/=.
      destruct (Hok _ _ Hold) as (Hattr & H10 & H0).
      split_and!; [done | |].
      * split; [|lia]. intros Hin. exfalso. revert Hin. by apply replace_old_gone.
      * split; [lia|]. intros _. apply replace_new_there. apply H10. lia.
    + rewrite list_lookup_alter_ne in Hj by done.
      destruct (Hok _ _ Hj) as (Hattr & H10 & H0).
      split_and!; [done | |].
      * rewrite H10. lia.
      * rewrite H0. lia.
Qed.

Lemma dots_ok_switch total cur i l :
  dots_ok total cur l → 0 ≤ cur → 0 ≤ i < total → i ≠ cur →
  dots_ok total i (alter promote_dot (Z.to_nat i) (alter demote_dot (Z.to_nat cur) l)).
Proof.
  intros Hok Hcur Hi Hne d dot Hd.
  destruct (decide (Z.to_nat i = d)) as [<- | Hdi].
  - rewrite list_lookup_alter_eq, list_lookup_alter_ne in Hd by lia.
    destruct (l !! Z.to_nat i) as [old|] eqn:Hold; simplify_eq/=.
    destruct (Hok _ _ Hold) as (Hb & H20).
    split; [|lia]. split; [lia|]. intros _.
    apply replace_new_there. apply H20; lia.
  - rewrite list_lookup_alter_ne in Hd by done.
    destruct (decide (Z.to_nat cur = d)) as [<- | Hdc].
    + rewrite list_lookup_alter_eq in Hd.
      destruct (l !! Z.to_nat cur) as [old|] eqn:Hold; simplify_eq/=.
      destruct (Hok _ _ Hold) as (Hb & H20).
      split.
      * split; [|lia]. intros Hin. exfalso. revert Hin. by apply replace_old_gone.
      * intros _ _. apply replace_new_there. apply Hb. lia.
    + rewrite list_lookup_alter_ne in Hd by done.
      destruct (Hok _ _ Hd) as (Hb & H20).
      split; [rewrite Hb; lia|]. intros ? ?. apply H20; lia.
Qed.

Lemma inserted_className_inactive :
  ("z-10" ∉ inserted_className) ∧ "z-0" ∈ inserted_className.
Proof.
  split.
  - intros H. apply (bool_decide_pack _) in H. vm_compute in H. done.
  - apply (bool_decide_unpack _). vm_compute. done.
Qed.

Lemma images_ok_inserted l urls :
  images_ok 0 l → length l = 1%nat → images_ok 0 (l ++ inserted_images urls).
Proof.
  intros Hok Hlen j im Hj. apply lookup_app_Some in Hj as [Hj | [Hge Hj]].
  - by apply Hok.
  - rewrite Hlen in *. unfold inserted_images in Hj.
    rewrite list_lookup_imap in Hj.
    destruct (drop 1 urls !! (j - 1)%nat) as [url|]; simplify_eq/=.
    destruct inserted_className_inactive as [H10 H0].
    split_and!.
    + f_equal. lia.
    + split; [done | lia].
    + split; [lia | done].
Qed.

(** ** The consistent states are closed under every listener *)

Lemma alter_alter_click (f g : Dot → Dot) i j (l : list Dot) d dot :
  (∀ x, dot_click (f x) = dot_click x) →
  (∀ x, dot_click (g x) = dot_click x) →
  alter f i (alter g j l) !! d = Some dot →
  ∃ old, l !! d = Some old ∧ dot_click dot = dot_click old.
Proof.
  intros Hf Hg. rewrite !list_lookup_alter.
  repeat case_decide; subst; destruct (l !! d) as [old|]; simpl; intros Hlk;
    simplify_eq/=; eexists; (split; [reflexivity|]); by rewrite ?Hf, ?Hg.
Qed.

Lemma consistent_closure c cl :
  closures c = [cl] → closures c !! 0%nat = Some cl.
Proof. by intros ->. Qed.

Lemma consistent_loadImages c : consistent c → consistent (loadImages 0 c).
Proof.
  intros (cl & Hcl & Hl & Hclick & Hfr & Hinit & HN & Hcur & Hurls & Hdots &
          Hnl & Hlen & Himg & Hdot).
  pose proof (consistent_closure c cl Hcl) as Hk.
  destruct (imagesLoaded cl) eqn:Hloaded.
  - rewrite (loadImages_loaded 0 c cl) by done.
    exists cl. rewrite Hloaded. split_and!; try done; lia.
  - rewrite (loadImages_fresh 0 c cl) by done.
    specialize (Hnl eq_refl).
    exists (set_imagesLoaded true cl). simpl. rewrite Hcl.
    split_and!; try done; try lia.
    + rewrite length_app, inserted_images_length, Hlen. lia.
    + rewrite Hnl in *. by apply images_ok_inserted.
Qed.

Lemma consistent_isProcessing b c :
  consistent c → consistent (alter_closure 0 (set_isProcessing b) c).
Proof.
  intros (cl & Hcl & Hl & Hclick & Hfr & Hinit & HN & Hcur & Hurls & Hdots &
          Hnl & Hlen & Himg & Hdot).
  exists (set_isProcessing b cl). simpl. rewrite Hcl. split_and!; try done; lia.
Qed.

Lemma consistent_animationFrames l c :
  Forall (fun f => f.1 = 0%nat) l → consistent c →
  consistent (set_animationFrames l c).
Proof.
  intros Hfl (cl & Hcl & Hl & Hclick & Hfr & Hinit & HN & Hcur & Hurls & Hdots &
          Hnl & Hlen & Himg & Hdot).
  exists cl. split_and!; try done; lia.
Qed.

Lemma consistent_updateCarousel i c :
  consistent c → consistent (updateCarousel 0 i c).
Proof.
  intros Hc.
  pose proof Hc as (cl0 & Hcl0 & _ & _ & _ & _ & _ & Hcur0 & _).
  pose proof (consistent_closure c cl0 Hcl0) as Hk0.
  destruct (decide (i = currentIndex cl0 ∨ i < 0 ∨ totalImages cl0 ≤ i)) as [Hg | Hg].
  { by rewrite (updateCarousel_guarded c 0 cl0). }
  assert (Hc1 : consistent (forced_load 0 cl0 i c)).
  { unfold forced_load. case_match; [by apply consistent_loadImages | done]. }
  assert (Hcl1 : closures (forced_load 0 cl0 i c) =
                 [if negb (imagesLoaded cl0) && (i >? 0)
                  then set_imagesLoaded true cl0 else cl0]).
  { unfold forced_load. case_match; [|done].
    by rewrite closures_loadImages, Hcl0. }
  destruct Hc1 as (cl & Hcl & Hl & Hclick & Hfr & Hinit & HN & Hcur & Hurls &
                   Hdots & Hnl & Hlen & Himg & Hdot).
  assert (Hsame : totalImages cl = totalImages cl0 ∧
                  currentIndex cl = currentIndex cl0 ∧
                  imagesUrl cl = imagesUrl cl0 ∧
                  (0 < i → imagesLoaded cl = true)).
  { rewrite Hcl in Hcl1. injection Hcl1 as ->.
    destruct (imagesLoaded cl0) eqn:E, (i >? 0) eqn:E'; simpl; rewrite ?E;
      split_and!; try done; lia. }
  destruct Hsame as (Ht & Hc' & Hu & Hforced).
  assert (Hlenpos : (Z.to_nat (currentIndex cl) < length (images (forced_load 0 cl0 i c)))%nat
                    ∧ (Z.to_nat i < length (images (forced_load 0 cl0 i c)))%nat).
  { rewrite Hlen. destruct (imagesLoaded cl) eqn:E.
    - lia.
    - specialize (Hnl eq_refl). split; [lia|].
      destruct (decide (0 < i)) as [Hpos | Hpos]; [by specialize (Hforced Hpos) | lia]. }
  destruct Hlenpos as [Hpc Hpi].
  apply lookup_lt_is_Some_2 in Hpc as [imc Himc].
  apply lookup_lt_is_Some_2 in Hpi as [imi Himi].
  assert (Hqc : querySelector_image (currentIndex cl0) (forced_load 0 cl0 i c)
                = Some (Z.to_nat (currentIndex cl), imc)).
  { rewrite <- Hc'. apply (images_ok_find (currentIndex cl)); [done | lia | done]. }
  assert (Hqi : querySelector_image i (forced_load 0 cl0 i c)
                = Some (Z.to_nat i, imi)).
  { apply (images_ok_find (currentIndex cl)); [done | lia | done]. }
  exists (set_currentIndex i cl).
  rewrite (updateCarousel_closures c 0 cl0 i) by (done || lia).
  rewrite (updateCarousel_images c 0 cl0 i) by (done || lia).
  rewrite (updateCarousel_dotElements c 0 cl0 i) by (done || lia).
  rewrite Hqc, Hqi, Hcl. simpl. rewrite <- Hc'.
  assert (Hframe : listeners (updateCarousel 0 i c) = listeners (forced_load 0 cl0 i c) ∧
                   animationFrames (updateCarousel 0 i c)
                     = animationFrames (forced_load 0 cl0 i c) ∧
                   data_initialized (updateCarousel 0 i c)
                     = data_initialized (forced_load 0 cl0 i c)).
  { unfold updateCarousel. rewrite Hk0.
    destruct ((i =? currentIndex cl0) || (i <? 0) || (i >=? totalImages cl0)) eqn:E;
      [lia|].
    rewrite Hqc, Hqi. cbn.
    rewrite !listeners_alter_dot, !animationFrames_alter_dot,
      !data_initialized_alter_dot. cbn.
    by rewrite !listeners_alter_dot, !animationFrames_alter_dot,
      !data_initialized_alter_dot. }
  destruct Hframe as (-> & -> & ->).
  split_and!; try done.
  - intros d dot Hd.
    apply alter_alter_click in Hd as (old & Hold & ->); [|done..].
    by apply Hclick.
  - lia.
  - lia.
  - by rewrite !length_alter.
  - intros Hload.
    destruct (decide (0 < i)) as [Hpos | Hpos]; [|lia].
    specialize (Hforced Hpos). congruence.
  - by rewrite !length_alter.
  - apply images_ok_switch; [done | lia | lia | lia].
  - apply dots_ok_switch; [done | lia | lia | lia].
Qed.

Lemma consistent_dispatch ev c : consistent c → consistent (dispatch ev c).
Proof.
  intros Hc.
  pose proof Hc as (cl & Hcl & Hl & Hclick & Hfr & _).
  pose proof (consistent_closure c cl Hcl) as Hk.
  destruct ev as [|e| |d|rect]; simpl.
  - rewrite Hl. simpl. by apply consistent_loadImages.
  - rewrite Hl. simpl. unfold on_mousemove. rewrite Hk.
    destruct (target_in_fire e); [done|]. destruct (isProcessing cl); [done|].
    apply consistent_animationFrames.
    + simpl. apply Forall_app. split; [done|]. by constructor.
    + by apply consistent_isProcessing.
  - rewrite Hl. simpl. by apply consistent_updateCarousel.
  - destruct (dotElements c !! d) as [dot|] eqn:Hd; [|done].
    rewrite (Hclick d dot Hd). simpl.
    by apply consistent_updateCarousel, consistent_loadImages.
  - destruct (animationFrames c) as [|[k e] rest] eqn:Hrest; [done|].
    apply Forall_cons in Hfr as [Hk0 Hfr]. simpl in Hk0. subst k.
    assert (Hc' : consistent (set_animationFrames rest c))
      by by apply consistent_animationFrames.
    unfold frame_callback. simpl. rewrite Hk.
    destruct (Qeq_bool (rect_width rect) 0).
    + by apply consistent_isProcessing.
    + by apply consistent_isProcessing, consistent_updateCarousel.
Qed.

Lemma inert_dispatch ev c : inert c → dispatch ev c = c.
Proof.
  intros (Hl & Hcl & Hfr & Hclick).
  destruct ev as [|e| |d|rect]; simpl; rewrite ?Hl, ?Hfr; try done.
  destruct (dotElements c !! d) as [dot|] eqn:Hd; [|done].
  rewrite Forall_lookup in Hclick. by rewrite (Hclick d dot Hd).
Qed.

(** ** The interactive branch of the initialiser *)

Section Interactive.
Variable JSON_parse : string -> option JSValue.

Lemma init_carousel_interactive c dots urls :
  card c = Some dots →
  parse_images JSON_parse c = Normal urls →
  1 < parseInt_or_1 (data_totalImages c) →
  ∃ c', init_carousel JSON_parse c = Normal (c', []) ∧
    closures c' = closures c ++
      [new_closure urls (parseInt_or_1 (data_totalImages c))] ∧
    listeners c' = listeners c ++
      [mouseenter (length (closures c)); mousemove (length (closures c));
       mouseleave (length (closures c))] ∧
    images c' = images c ∧
    animationFrames c' = animationFrames c ∧
    data_initialized c' = Some "true" ∧
    dotElements c' =
      alter (dot_classList_apply (remove "bg-black/20")) 0%nat
        (alter (dot_classList_apply (add "bg-black")) 0%nat
           (imap (fun index => dot_addEventListener_click (length (closures c), index))
              (dotElements (hide_extra_dots (parseInt_or_1 (data_totalImages c))
                              (set_initialized "true" c))))).
Proof.
  intros Hc Hp Ht. unfold init_carousel. simpl.
  rewrite Hc, parse_images_set_initialized, Hp.
  destruct (_ <=? 1) eqn:E; [lia|].
  set (c1 := hide_extra_dots _ _).
  destruct (hide_extra_dots_frame (parseInt_or_1 (data_totalImages c))
              (set_initialized "true" c)) as (Hl1 & Hc1 & Hf1 & Hi1 & Hd1).
  fold c1 in Hl1, Hc1, Hf1, Hi1, Hd1. simpl in *.
  eexists. split; [reflexivity|].
  rewrite dotElements_mark_first_dot.
  unfold addEventListener. cbn. rewrite Hl1, Hc1, Hf1, Hi1, Hd1.
  split_and!; try done.
  - by rewrite <- !app_assoc.
  - do 2 f_equal. unfold dotElements. simpl. by destruct (card c1).
Qed.

Lemma init_carousel_closures c r :
  init_carousel JSON_parse c = Normal r →
  closures r.1 = closures c ∨
  ∃ urls total, 1 < total ∧ closures r.1 = closures c ++ [new_closure urls total].
Proof.
  intros Hr. destruct (card c) as [dots|] eqn:Hc.
  - destruct (parse_images JSON_parse c) as [urls|e] eqn:Hp.
    + destruct (decide (parseInt_or_1 (data_totalImages c) ≤ 1)) as [Ht | Ht].
      * rewrite (init_carousel_static JSON_parse c dots urls) in Hr by done.
        injection Hr as <-. left.
        apply (static_branch (parseInt_or_1 (data_totalImages c)) c).
      * destruct (init_carousel_interactive c dots urls) as (c' & Hc' & Hcl & _);
          [done | done | lia |].
        rewrite Hc' in Hr. injection Hr as <-. right.
        eexists _, _. split; [|done]. lia.
    + rewrite (init_carousel_throw JSON_parse c dots e) in Hr by done.
      injection Hr as <-. by left.
  - rewrite init_carousel_no_card in Hr by done. injection Hr as <-. by left.
Qed.
End Interactive.

(** ** The index stays in range *)

Lemma fold_left_preserves {A B} (P : A → Prop) (f : A → B → A) (l : list B) (a : A) :
  (∀ a x, P a → P (f a x)) → P a → P (fold_left f l a).
Proof. intros Hf. revert a. induction l; simpl; auto. Qed.

Lemma index_in_range_loadImages k c :
  index_in_range c → index_in_range (loadImages k c).
Proof.
  unfold index_in_range. rewrite closures_loadImages. intros H.
  apply Forall_alter; [done|]. by intros [].
Qed.

Lemma index_in_range_updateCarousel k i c :
  index_in_range c → index_in_range (updateCarousel k i c).
Proof.
  intros H. destruct (closures c !! k) as [cl|] eqn:Hk.
  - destruct (decide (i = currentIndex cl ∨ i < 0 ∨ totalImages cl ≤ i)) as [Hg | Hg].
    + by rewrite (updateCarousel_guarded c k cl).
    + unfold index_in_range.
      rewrite (updateCarousel_closures c k cl i) by (done || lia).
      assert (Hf : Forall (fun cl => 0 ≤ currentIndex cl ≤ totalImages cl - 1)
                     (closures (forced_load k cl i c)) ∧
                   (totalImages <$> closures (forced_load k cl i c) !! k)
                   = Some (totalImages cl)).
      { unfold forced_load. case_match.
        - split; [by apply index_in_range_loadImages|].
          by rewrite closures_loadImages, list_lookup_alter_eq, Hk.
        - split; [done | by rewrite Hk]. }
      destruct Hf as [Hf Ht]. apply Forall_alter; [done|].
      intros x Hx _. rewrite Hx in Ht. simpl in *. injection Ht as Ht. lia.
  - unfold updateCarousel. by rewrite Hk.
Qed.

Lemma index_in_range_isProcessing k b c :
  index_in_range c → index_in_range (alter_closure k (set_isProcessing b) c).
Proof. intros H. apply Forall_alter; [done|]. by intros []. Qed.

Lemma index_in_range_dispatch ev c :
  index_in_range c → index_in_range (dispatch ev c).
Proof.
  intros H. destruct ev as [|e| |d|rect]; simpl.
  - apply fold_left_preserves; [|done]. intros a []; try done.
    apply index_in_range_loadImages.
  - apply fold_left_preserves; [|done]. intros a [] Ha; try done.
    unfold on_mousemove. repeat case_match; try done.
    by apply (index_in_range_isProcessing _ _ a).
  - apply fold_left_preserves; [|done]. intros a []; try done.
    apply index_in_range_updateCarousel.
  - case_match; [|done]. apply fold_left_preserves; [|done]. intros a h Ha.
    by apply index_in_range_updateCarousel, index_in_range_loadImages.
  - destruct (animationFrames c) as [|[k e] rest]; [done|].
    unfold frame_callback. simpl. repeat case_match; try done.
    + by apply (index_in_range_isProcessing _ _ (set_animationFrames rest c)).
    + apply index_in_range_isProcessing.
      by apply (index_in_range_updateCarousel _ _ (set_animationFrames rest c)).
Qed.

Section Reachable.
Variable JSON_parse : string -> option JSValue.

Lemma index_in_range_init c r :
  init_carousel JSON_parse c = Normal r → index_in_range c → index_in_range r.1.
Proof.
  intros Hr H. unfold index_in_range.
  destruct (init_carousel_closures JSON_parse c r Hr)
    as [-> | (urls & total & Ht & ->)]; [done|].
  apply Forall_app. split; [done|]. constructor; [|done]. simpl. lia.
Qed.

(** A property of one container that the forEach body and every event keep
    holds along every run of the page. *)
Lemma reachable_invariant_at (I : Carousel → Prop) (p0 p : Page) (i : nat) :
  (∀ c r, I c → data_initialized c = None →
          init_carousel JSON_parse c = Normal r → I r.1) →
  (∀ c ev, I c → I (dispatch ev c)) →
  reachable JSON_parse p0 p →
  (∀ c, containers p0 !! i = Some c → I c) →
  ∀ c, containers p !! i = Some c → I c.
Proof.
  intros Hinit Hev Hreach H0. induction Hreach as [|scope p p' Hreach IH Hp|j ev p Hreach IH].
  - done.
  - intros c Hc.
    destruct (initCarousels_spec JSON_parse scope p) as (p'' & Hp'' & _ & Hout & Hin & _).
    rewrite Hp in Hp''. injection Hp'' as <-.
    destruct (decide (i ∈ carousels scope p)) as [Hi | Hi].
    + pose proof Hi as [_ (c0 & Hc0 & Hnone)%uninitialized_true]%elem_of_carousels.
      destruct (Hin i c0 Hi Hc0) as (r & Hr & Hr' & _).
      rewrite Hr' in Hc. injection Hc as <-.
      apply (Hinit c0 r); [by apply IH | done | done].
    + rewrite Hout in Hc by done. by apply IH.
  - intros c. simpl. rewrite list_lookup_alter.
    case_decide; subst.
    + destruct (containers p !! i) as [c0|] eqn:Hc0; simpl; [|done].
      intros [= <-]. apply Hev. by apply IH.
    + apply IH.
Qed.

(** C8. On a page that starts without carousel instances, in every state
    that runs of the initialiser and events (pointer enter, move, leave, dot
    click, animation frame) can reach, the current index of every instance
    lies between 0 and [totalImages - 1]; and an instance starts at
    index 0. *)
Theorem currentIndex_in_range (p0 p : Page) :
  Forall (fun c => closures c = []) (containers p0) →
  reachable JSON_parse p0 p →
  (∀ i c k cl, containers p !! i = Some c → closures c !! k = Some cl →
     0 ≤ currentIndex cl ≤ totalImages cl - 1) ∧
  (∀ i c r k cl, containers p !! i = Some c →
     init_carousel JSON_parse c = Normal r →
     closures c !! k = None → closures r.1 !! k = Some cl →
     currentIndex cl = 0).
Proof.
  intros H0 Hreach. split.
  - intros i c k cl Hc Hk.
    assert (Hr : index_in_range c).
    { apply (reachable_invariant_at index_in_range p0 p i); try done.
      - intros c0 r Hc0 _ Hr. by apply (index_in_range_init c0 r).
      - intros c0 ev. apply index_in_range_dispatch.
      - intros c0 Hc0. rewrite Forall_lookup in H0. unfold index_in_range.
        rewrite (H0 i c0 Hc0). constructor. }
    unfold index_in_range in Hr. rewrite Forall_lookup in Hr. by apply (Hr k).
  - intros i c r k cl _ Hr Hnone Hk.
    destruct (init_carousel_closures JSON_parse c r Hr)
      as [Heq | (urls & total & Ht & Heq)]; rewrite Heq in Hk; [congruence|].
    apply lookup_app_Some in Hk as [Hk | [_ Hk]]; [congruence|].
    apply list_lookup_singleton_Some in Hk as [_ <-]. done.
Qed.
End Reachable.

Lemma currentIndex_in_range_witness :
  ∃ c cl,
    containers (page_dispatch 1 (Click 2) demo_page_initialised) !! 1%nat = Some c ∧
    closures c !! 0%nat = Some cl ∧
    0 ≤ currentIndex cl ≤ totalImages cl - 1.
Proof.
  eexists _, _. split; [vm_compute; reflexivity|]. split; [reflexivity|].
  refine (proj1 (currentIndex_in_range parse_string_array demo_page
                   (page_dispatch 1 (Click 2) demo_page_initialised) _ _)
            1%nat _ 0%nat _ _ _).
  - repeat constructor.
  - apply reachable_event.
    apply (reachable_init parse_string_array demo_page document demo_page).
    + apply reachable_start.
    + vm_compute. reflexivity.
  - vm_compute. reflexivity.
  - reflexivity.
Defined.

(** ** Exactly one active image and one active dot *)

Section SoleActive.
Variable JSON_parse : string -> option JSValue.

Lemma init_markup c r :
  consistent_markup JSON_parse c →
  init_carousel JSON_parse c = Normal r →
  (inert r.1 ∧ data_initialized r.1 ≠ None) ∨ consistent r.1.
Proof.
  intros ((Hinit & Hl & Hcl & Hfr & Hclick) & (im & Himg & Hattr & H10 & H0) &
          Hdots & Hdotcls & Hurls) Hr.
  pose proof (init_carousel_marks JSON_parse c r Hr) as Hmark.
  assert (Hskip : inert (set_initialized "true" c) ∧
                  data_initialized (set_initialized "true" c) ≠ None).
  { split; [by split_and! | done]. }
  destruct (card c) as [dots|] eqn:Hc.
  2:{ rewrite init_carousel_no_card in Hr by done. injection Hr as <-. by left. }
  destruct (parse_images JSON_parse c) as [urls|e] eqn:Hp.
  2:{ rewrite (init_carousel_throw JSON_parse c dots e) in Hr by done.
      injection Hr as <-. by left. }
  destruct (decide (parseInt_or_1 (data_totalImages c) ≤ 1)) as [Ht | Ht].
  { rewrite (init_carousel_static JSON_parse c dots urls) in Hr by done.
    injection Hr as <-. left. simpl.
    destruct (static_branch (parseInt_or_1 (data_totalImages c)) c)
      as [(Hl' & Hcl' & Hfr' & _ & Hlen' & Hclick') _].
    split; [|simpl in Hmark; by rewrite Hmark]. unfold inert. rewrite Hl', Hcl', Hfr'.
    split_and!; try done.
    apply Forall_lookup. intros d dot' Hd'.
    destruct (dotElements c !! d) as [dot|] eqn:Hd.
    - rewrite (Hclick' d dot dot' Hd Hd'). rewrite Forall_lookup in Hclick.
      by apply (Hclick d).
    - apply lookup_ge_None in Hd. apply lookup_lt_Some in Hd'. lia. }
  destruct (init_carousel_interactive JSON_parse c dots urls)
    as (c' & Hc' & Hcl' & Hl' & Himg' & Hfr' & Hinit' & Hdots'); [done | done | lia |].
  rewrite Hc' in Hr. injection Hr as <-. right. simpl.
  set (total := parseInt_or_1 (data_totalImages c)) in *.
  rewrite Hcl in *. simpl in *.
  assert (Hlook : ∀ d dot', dotElements c' !! d = Some dot' →
            ∃ old, dotElements c !! d = Some old ∧
                   dot_click dot' = [(0%nat, d)] ∧
                   (d ≠ 0%nat → dot_classList dot' = dot_classList old) ∧
                   (d = 0%nat → dot_classList dot' =
                      remove "bg-black/20" (add "bg-black" (dot_classList old)))).
  { intros d dot'. rewrite Hdots'.
    destruct (decide (d = 0%nat)) as [-> | Hd];
      [rewrite !list_lookup_alter_eq | rewrite !list_lookup_alter_ne by done];
      rewrite list_lookup_imap;
      (destruct (dotElements (hide_extra_dots total (set_initialized "true" c)) !! _)
        as [mid|] eqn:Hmid; [|done]);
      apply hide_extra_dots_lookup in Hmid as (old & Hold & Hck & Hcs);
      change (dotElements (set_initialized "true" c)) with (dotElements c) in Hold;
      rewrite Forall_lookup in Hclick; pose proof (Hclick _ old Hold) as Hnil;
      simpl; intros [= <-]; exists old; simpl;
      rewrite ?Hck, ?Hnil, ?Hcs; by split_and!. }
  exists (new_closure urls total). simpl.
  rewrite Hl', Hl, Himg', Himg, Hfr', Hfr, Hinit'. simpl.
  split_and!; try done; try lia.
  - intros d dot' (old & _ & Hck & _)%Hlook. done.
  - by apply Hurls.
  - rewrite Hdots', !length_alter, length_imap, hide_extra_dots_length. done.
  - intros j im' Hj. apply list_lookup_singleton_Some in Hj as [-> <-].
    split_and!; [done | split; done | split; [done | lia]].
  - intros d dot' (old & Hold & _ & Hne & Heq)%Hlook.
    destruct (decide (d = 0%nat)) as [-> | Hd].
    + rewrite Heq by done. split; [|lia]. split; [done|]. intros _.
      rewrite elem_of_remove, elem_of_add. split; [done | by left].
    + rewrite Hne by done.
      destruct (Hdotcls d old Hold ltac:(lia)) as [Hb H20].
      split; [split; [done | lia] | auto].
Qed.

(** Where the active styling stays unique.  For a container whose markup is
    consistent (one primary image, index 0, on top; a dot for every index
    below the total count, all but the first inactive) and whose filtered
    URL list has at least as many entries as the total count, in every
    reachable state in which it has an instance exactly one image element
    carries [z-10] and exactly one dot carries [bg-black], and both are the
    ones for the current index. *)
Theorem sole_active (p0 p : Page) (i : nat) (c0 : Carousel) :
  containers p0 !! i = Some c0 →
  consistent_markup JSON_parse c0 →
  reachable JSON_parse p0 p →
  ∀ c k cl, containers p !! i = Some c → closures c !! k = Some cl →
    sole_active_image (currentIndex cl) c ∧ sole_active_dot (currentIndex cl) c.
Proof.
  intros Hc0 Hm Hreach c k cl Hc Hk.
  assert (HI : (inert c ∧ (data_initialized c = None → consistent_markup JSON_parse c))
               ∨ consistent c).
  { apply (reachable_invariant_at JSON_parse
             (fun c => (inert c ∧ (data_initialized c = None →
                                    consistent_markup JSON_parse c))
                       ∨ consistent c) p0 p i); try done.
    - intros c1 r [[_ Hmk] | Hcons] Hnone Hr.
      + destruct (init_markup c1 r (Hmk Hnone) Hr) as [[Hin Hd] | Hcons]; [left | by right].
        split; [done | by intros ?].
      + destruct Hcons as (? & _ & _ & _ & _ & Hd & _). done.
    - intros c1 ev [[Hin Hmk] | Hcons].
      + left. by rewrite inert_dispatch.
      + right. by apply consistent_dispatch.
    - intros c1 Hc1. rewrite Hc0 in Hc1. injection Hc1 as <-. left.
      split; [|done]. destruct Hm as ((_ & ? & ? & ? & ?) & _). by split_and!. }
  destruct HI as [[(_ & Hcl & _) _] | Hcons].
  { by rewrite Hcl in Hk. }
  destruct Hcons as (cl' & Hcl & _ & _ & _ & _ & HN & Hcur & Hurls & Hdots &
                     Hnl & Hlen & Himg & Hdot).
  rewrite Hcl in Hk. apply list_lookup_singleton_Some in Hk as [-> <-].
  split.
  - assert (Hpos : (Z.to_nat (currentIndex cl') < length (images c))%nat).
    { rewrite Hlen. destruct (imagesLoaded cl'); [lia|]. rewrite Hnl by done. lia. }
    apply lookup_lt_is_Some_2 in Hpos as [im Him].
    destruct (Himg _ _ Him) as (Hattr & H10 & _).
    exists (Z.to_nat (currentIndex cl')), im. split_and!; try done.
    + rewrite Hattr. f_equal. lia.
    + apply H10. lia.
    + intros pos' im' Him' Hact. destruct (Himg _ _ Him') as (_ & H10' & _).
      apply H10' in Hact. lia.
  - assert (Hpos : (Z.to_nat (currentIndex cl') < length (dotElements c))%nat) by lia.
    apply lookup_lt_is_Some_2 in Hpos as [dot Hdt].
    destruct (Hdot _ _ Hdt) as (Hb & _).
    exists dot. split_and!; try done; try lia.
    + apply Hb. lia.
    + intros d' dot' Hd' Hact. destruct (Hdot _ _ Hd') as (Hb' & _).
      apply Hb' in Hact. lia.
Qed.
End SoleActive.

Lemma card3_consistent_markup : consistent_markup parse_string_array card3.
Proof.
  split_and!.
  - split_and!; try reflexivity. simpl. repeat constructor.
  - exists primary_image. split_and!; try reflexivity.
    + apply (bool_decide_unpack _). vm_compute. done.
    + intros H. apply (bool_decide_pack _) in H. vm_compute in H. done.
  - vm_compute. discriminate.
  - intros d dot Hd Hge. simpl in Hd.
    apply lookup_replicate in Hd as [-> _]. split.
    + intros H. apply (bool_decide_pack _) in H. vm_compute in H. done.
    + intros _. apply (bool_decide_unpack _). vm_compute. done.
  - intros urls Hu. vm_compute in Hu. injection Hu as <-. vm_compute. discriminate.
Qed.

Lemma sole_active_witness :
  ∃ c cl,
    containers (page_dispatch 1 (Click 2) demo_page_initialised) !! 1%nat = Some c ∧
    closures c !! 0%nat = Some cl ∧
    sole_active_image (currentIndex cl) c ∧ sole_active_dot (currentIndex cl) c.
Proof.
  eexists _, _. split; [vm_compute; reflexivity|]. split; [reflexivity|].
  refine (sole_active parse_string_array demo_page
            (page_dispatch 1 (Click 2) demo_page_initialised) 1 card3 _ _ _
            _ 0%nat _ _ _).
  - reflexivity.
  - apply card3_consistent_markup.
  - apply reachable_event.
    apply (reachable_init parse_string_array demo_page document demo_page).
    + apply reachable_start.
    + vm_compute. reflexivity.
  - vm_compute. reflexivity.
  - reflexivity.
Defined.

(** C9.  The invariant breaks on the card whose image list has an empty
    entry (three entries for a total count of three; the filter keeps two):
    the page is initialised and the third dot is clicked; the instance then
    has current index 2, and no image element and no dot carries the active
    styling. *)
Theorem no_active_after_click :
  reachable parse_string_array gap_page gap_page_clicked ∧
  ∃ c cl, containers gap_page_clicked !! 0%nat = Some c ∧
          closures c !! 0%nat = Some cl ∧ currentIndex cl = 2 ∧
          totalImages cl = 3 ∧
          Forall (fun im => ¬ image_active im) (images c) ∧
          Forall (fun d => ¬ dot_active d) (dotElements c).
Proof.
  split.
  - apply reachable_event.
    apply (reachable_init parse_string_array gap_page document gap_page).
    + apply reachable_start.
    + vm_compute. reflexivity.
  - eexists _, _. split_and!.
    + vm_compute. reflexivity.
    + reflexivity.
    + reflexivity.
    + reflexivity.
    + apply no_active_image_check. vm_compute. reflexivity.
    + apply no_active_dot_check. vm_compute. reflexivity.
Qed.

(** * Further properties of the carousel *)

Section InitScope.
Variable JSON_parse : string -> option JSValue.

(** A run of the initialiser marks every container its scope reaches and
    leaves every other container of the page exactly as it was. *)
Theorem initCarousels_scope (scope : Scope) (p : Page) :
  ∃ p', initCarousels JSON_parse scope p = Normal p' ∧
    length (containers p') = length (containers p) ∧
    (∀ i c, containers p' !! i = Some c → in_scope scope i →
       data_initialized c ≠ None) ∧
    (∀ i, ¬ in_scope scope i → containers p' !! i = containers p !! i).
Proof.
  destruct (initCarousels_spec JSON_parse scope p) as (p' & Hp' & Hlen & Hout & Hin & _).
  exists p'. split_and!; try done.
  - intros i c Hc Hs.
    destruct (decide (i ∈ carousels scope p)) as [Hi | Hi].
    + pose proof Hi as [_ (c0 & Hc0 & _)%uninitialized_true]%elem_of_carousels.
      destruct (Hin i c0 Hi Hc0) as (r & Hr & Hr' & _).
      rewrite Hr' in Hc. injection Hc as <-.
      by rewrite (init_carousel_marks JSON_parse c0 r Hr).
    + rewrite Hout in Hc by done. intros Hnone. apply Hi.
      rewrite elem_of_carousels, uninitialized_true. eauto.
  - intros i Hs. apply Hout. rewrite elem_of_carousels. unfold in_scope in Hs. tauto.
Qed.

Lemma init_carousel_defers (c : Carousel) :
  ∃ r, init_carousel JSON_parse c = Normal r ∧
    images r.1 = images c ∧
    ∀ k cl, closures c !! k = None → closures r.1 !! k = Some cl →
      imagesLoaded cl = false ∧ isProcessing cl = false ∧
      parse_images JSON_parse c = Normal (imagesUrl cl).
Proof.
  destruct (init_carousel_normal JSON_parse c) as [r Hr]. exists r.
  split; [done|].
  destruct (card c) as [dots|] eqn:Hc.
  - destruct (parse_images JSON_parse c) as [urls|e] eqn:Hp.
    + destruct (decide (parseInt_or_1 (data_totalImages c) ≤ 1)) as [Ht | Ht].
      * rewrite (init_carousel_static JSON_parse c dots urls) in Hr by done.
        injection Hr as <-.
        destruct (static_branch (parseInt_or_1 (data_totalImages c)) c)
          as [(_ & Hcl & _ & Hi & _) _].
        cbn [fst]. split; [done|]. intros k cl H1 H2. rewrite Hcl in H2. congruence.
      * destruct (init_carousel_interactive JSON_parse c dots urls)
          as (c' & Hc' & Hcl & _ & Hi & _); [done | done | lia |].
        rewrite Hc' in Hr. injection Hr as <-. simpl. split; [done|].
        intros k cl H1 H2. rewrite Hcl in H2.
        apply lookup_app_Some in H2 as [H2 | [_ H2]]; [congruence|].
        apply list_lookup_singleton_Some in H2 as [_ <-]. done.
    + rewrite (init_carousel_throw JSON_parse c dots e) in Hr by done.
      injection Hr as <-. simpl. split; [done|]. intros; congruence.
  - rewrite init_carousel_no_card in Hr by done. injection Hr as <-.
    simpl. split; [done|]. intros; congruence.
Qed.

(** The callback defers every image: whatever branch it takes it inserts no
    image element and restyles none, and an instance it creates starts
    unloaded and idle. *)
Theorem init_carousel_lazy (c : Carousel) :
  ∃ r, init_carousel JSON_parse c = Normal r ∧
    images r.1 = images c ∧
    ∀ k cl, closures c !! k = None → closures r.1 !! k = Some cl →
      imagesLoaded cl = false ∧ isProcessing cl = false ∧
      parse_images JSON_parse c = Normal (imagesUrl cl).
Proof. apply init_carousel_defers. Qed.
End InitScope.

Lemma alter_alter_keeps {B} (proj : Dot → B) (f g : Dot → Dot) i j (l : list Dot) d dot :
  (∀ x, proj (f x) = proj x) →
  (∀ x, proj (g x) = proj x) →
  alter f i (alter g j l) !! d = Some dot →
  ∃ old, l !! d = Some old ∧ proj dot = proj old.
Proof.
  intros Hf Hg. rewrite !list_lookup_alter.
  repeat case_decide; subst; destruct (l !! d) as [old|]; simpl; intros Hlk;
    simplify_eq/=; eexists; (split; [reflexivity|]); by rewrite ?Hf, ?Hg.
Qed.

Lemma hide_extra_dots_display total c d dot' :
  dotElements (hide_extra_dots total c) !! d = Some dot' →
  ∃ dot, dotElements c !! d = Some dot ∧
    dot_display dot' =
      if decide (total ≤ Z.of_nat d) then Some "none" else dot_display dot.
Proof.
  unfold hide_extra_dots. case_bool_decide as Hlen.
  - replace (dotElements (set_card (imap (hide_extra total) <$> card c) c))
      with (imap (hide_extra total) (dotElements c))
      by (unfold dotElements; simpl; by destruct (card c)).
    rewrite list_lookup_imap. destruct (dotElements c !! d) as [dot|]; [|done].
    simpl. intros [= <-]. exists dot. split; [done|].
    unfold hide_extra. case_decide; destruct (_ >=? _) eqn:E; try done; lia.
  - intros Hd. exists dot'. split; [done|].
    apply lookup_lt_Some in Hd.
    case_decide; [lia | done].
Qed.

Section Dots.
Variable JSON_parse : string -> option JSValue.

(** Once the image list has parsed, the callback leaves every dot whose
    index is not below the total image count hidden ([display: none]) and the
    display of every other dot as it was, on the single-image branch and on
    the interactive one alike. *)
Theorem init_carousel_hides_extra_dots (c : Carousel) (dots : list Dot)
    (urls : list JSValue) :
  card c = Some dots →
  parse_images JSON_parse c = Normal urls →
  ∃ c', init_carousel JSON_parse c = Normal (c', []) ∧
    length (dotElements c') = length dots ∧
    ∀ d dot dot', dots !! d = Some dot → dotElements c' !! d = Some dot' →
      dot_display dot' =
        if decide (parseInt_or_1 (data_totalImages c) ≤ Z.of_nat d)
        then Some "none" else dot_display dot.
Proof.
  intros Hc Hp.
  assert (Hdots : dotElements c = dots) by (unfold dotElements; by rewrite Hc).
  set (total := parseInt_or_1 (data_totalImages c)).
  assert (Hkey : ∀ (f g : Dot → Dot) (l : list Dot),
            (∀ x, dot_display (f x) = dot_display x) →
            (∀ x, dot_display (g x) = dot_display x) →
            (∀ d mid, l !! d = Some mid →
               ∃ old, dotElements (hide_extra_dots total (set_initialized "true" c)) !! d
                        = Some old ∧ dot_display mid = dot_display old) →
            ∀ d dot dot', dots !! d = Some dot →
              alter f 0%nat (alter g 0%nat l) !! d = Some dot' →
              dot_display dot' =
                if decide (total ≤ Z.of_nat d) then Some "none" else dot_display dot).
  { intros f g l Hf Hg Hl d dot dot' Hd Hd'.
    apply (alter_alter_keeps dot_display) in Hd' as (mid & Hmid & ->); [|done..].
    apply Hl in Hmid as (old & Hold & ->).
    apply hide_extra_dots_display in Hold as (dot0 & Hdot0 & ->).
    change (dotElements (set_initialized "true" c)) with (dotElements c) in Hdot0.
    rewrite Hdots, Hd in Hdot0. by injection Hdot0 as <-. }
  destruct (decide (total ≤ 1)) as [Ht | Ht].
  - eexists. split; [by eapply init_carousel_static|]. split.
    + rewrite dotElements_mark_first_dot, !length_alter, hide_extra_dots_length.
      by rewrite <- Hdots.
    + rewrite dotElements_mark_first_dot. apply Hkey; [done | done |]. eauto.
  - destruct (init_carousel_interactive JSON_parse c dots urls)
      as (c' & Hc' & _ & _ & _ & _ & _ & Hd'); [done | done | fold total; lia |].
    exists c'. split; [done|]. rewrite Hd'. fold total. split.
    + rewrite !length_alter, length_imap, hide_extra_dots_length.
      by rewrite <- Hdots.
    + apply Hkey; [done | done |]. intros d mid Hmid.
      rewrite list_lookup_imap in Hmid.
      destruct (dotElements _ !! d) as [old|]; simplify_eq/=. eauto.
Qed.

(** What the [try] block keeps of the parsed array: exactly the truthy
    entries, in their order; the second conjunct of the filter callback
    removes nothing further.  So no [null], [false], [0] or empty string is
    ever an image URL. *)
Theorem parse_images_kept (c : Carousel) (urls : list JSValue) :
  parse_images JSON_parse c = Normal urls →
  ∃ s l, data_images c = Some s ∧
    JSON_parse (trim (collapse_spaces false s)) = Some (JArr l) ∧
    urls = List.filter truthy l ∧
    Forall (fun u => u ≠ JNull ∧ u ≠ JBool false ∧ u ≠ JStr EmptyString ∧
                     ∀ q, (q == 0)%Q → u ≠ JNum q) urls.
Proof.
  unfold parse_images. destruct (data_images c) as [s|]; [|done].
  simpl. destruct (JSON_parse _) as [[| | | |l|]|] eqn:Hparse; try done.
  intros [= <-]. exists s, l. split_and!; try done.
  - clear Hparse. induction l as [|u l IH]; [done|]. simpl.
    assert (keep_url u = truthy u) as ->.
    { unfold keep_url. destruct u as [|b|q|t| |]; simpl; try done.
      - by destruct b.
      - by destruct (negb _).
      - by destruct t. }
    by rewrite IH.
  - apply Forall_forall. intros u Hu.
    apply list_elem_of_In, filter_In in Hu as [_ Hu].
    unfold keep_url in Hu. destruct (truthy u) eqn:Ht; [|done].
    split_and!; try (intros ->; done).
    intros q Hq ->. simpl in Ht. apply Qeq_bool_iff in Hq. by rewrite Hq in Ht.
Qed.
End Dots.

Lemma init_carousel_hides_extra_dots_witness :
  ∃ c', init_carousel parse_string_array card_extra_dot = Normal (c', []) ∧
    length (dotElements c') = length (replicate 3 inactive_dot) ∧
    ∀ d dot dot', replicate 3 inactive_dot !! d = Some dot →
      dotElements c' !! d = Some dot' →
      dot_display dot' =
        if decide (parseInt_or_1 (data_totalImages card_extra_dot) ≤ Z.of_nat d)
        then Some "none" else dot_display dot.
Proof.
  apply (init_carousel_hides_extra_dots parse_string_array card_extra_dot
           (replicate 3 inactive_dot)
           [JStr "/media/p/0.jpg"; JStr "/media/p/1.jpg"]).
  - reflexivity.
  - vm_compute. reflexivity.
Defined.

Lemma parse_images_kept_witness :
  ∃ s l, data_images card3 = Some s ∧
    parse_string_array (trim (collapse_spaces false s)) = Some (JArr l) ∧
    [JStr "/media/p/0.jpg"; JStr "/media/p/1.jpg"; JStr "/media/p/2.jpg"]
      = List.filter truthy l ∧
    Forall (fun u => u ≠ JNull ∧ u ≠ JBool false ∧ u ≠ JStr EmptyString ∧
                     ∀ q, (q == 0)%Q → u ≠ JNum q)
      [JStr "/media/p/0.jpg"; JStr "/media/p/1.jpg"; JStr "/media/p/2.jpg"].
Proof.
  apply (parse_images_kept parse_string_array card3).
  vm_compute. reflexivity.
Defined.

(** ** Pointer leave and dot clicks *)

Lemma forced_load_zero k cl c : forced_load k cl 0 c = c.
Proof. unfold forced_load. by rewrite andb_false_r. Qed.

Lemma forced_load_loaded k cl i c :
  imagesLoaded cl = true → forced_load k cl i c = c.
Proof. intros H. unfold forced_load. by rewrite H. Qed.

(** Without a forced load [updateCarousel] restyles and re-indexes only: the
    number of images and the loaded flag stay. *)
Lemma updateCarousel_no_load k i c cl :
  closures c !! k = Some cl →
  forced_load k cl i c = c →
  length (images (updateCarousel k i c)) = length (images c) ∧
  (imagesLoaded <$> closures (updateCarousel k i c) !! k) = Some (imagesLoaded cl).
Proof.
  intros Hk Hf.
  destruct (decide (i = currentIndex cl ∨ i < 0 ∨ totalImages cl ≤ i)) as [Hg | Hg].
  - rewrite (updateCarousel_guarded c k cl) by done. by rewrite Hk.
  - rewrite (updateCarousel_images c k cl i), (updateCarousel_closures c k cl i)
      by (done || lia).
    rewrite Hf, list_lookup_alter_eq, Hk. split; [|done].
    destruct (querySelector_image i c) as [[??]|],
      (querySelector_image (currentIndex cl) c) as [[??]|]; simpl;
      by rewrite ?length_alter.
Qed.

(** When the pointer leaves the container the instance is back at index 0,
    whatever it showed, and the leave never triggers the lazy load. *)
Theorem mouseleave_resets (c : Carousel) (k : nat) (cl : Closure) :
  listeners c = [mouseenter k; mousemove k; mouseleave k] →
  closures c !! k = Some cl →
  1 ≤ totalImages cl →
  (currentIndex <$> closures (dispatch MouseLeave c) !! k) = Some 0 ∧
  (imagesLoaded <$> closures (dispatch MouseLeave c) !! k) = Some (imagesLoaded cl) ∧
  length (images (dispatch MouseLeave c)) = length (images c).
Proof.
  intros Hl Hk Ht. simpl. rewrite Hl. simpl. unfold on_mouseleave.
  destruct (updateCarousel_no_load k 0 c cl Hk (forced_load_zero k cl c)) as [Hlen Hld].
  split_and!; try done.
  apply (updateCarousel_currentIndex k 0 c cl); [done | lia].
Qed.

(** A click on a dot always runs the lazy load (once), and makes the dot's
    index current when it is below the total image count; the click on a dot
    beyond the count loads but selects nothing. *)
Theorem click_selects (c : Carousel) (k : nat) (cl : Closure) (d : nat) (dot : Dot) :
  closures c !! k = Some cl →
  dotElements c !! d = Some dot →
  dot_click dot = [(k, d)] →
  (imagesLoaded <$> closures (dispatch (Click d) c) !! k) = Some true ∧
  length (images (dispatch (Click d) c)) =
    (length (images c) +
     (if imagesLoaded cl then 0 else length (imagesUrl cl) - 1))%nat ∧
  (Z.of_nat d < totalImages cl →
   (currentIndex <$> closures (dispatch (Click d) c) !! k) = Some (Z.of_nat d)) ∧
  (totalImages cl ≤ Z.of_nat d →
   (currentIndex <$> closures (dispatch (Click d) c) !! k) = Some (currentIndex cl)).
Proof.
  intros Hk Hd Hclick. simpl. rewrite Hd, Hclick. simpl. unfold on_click.
  pose proof (loadImages_closure k c cl Hk) as Hk1.
  assert (Hf : forced_load k (set_imagesLoaded true cl) (Z.of_nat d) (loadImages k c)
               = loadImages k c) by by apply forced_load_loaded.
  destruct (updateCarousel_no_load k (Z.of_nat d) (loadImages k c) _ Hk1 Hf)
    as [Hlen Hld].
  split_and!.
  - done.
  - rewrite Hlen. destruct (imagesLoaded cl) eqn:Hl.
    + rewrite (loadImages_loaded k c cl) by done. lia.
    + rewrite (loadImages_fresh k c cl) by done. simpl.
      by rewrite length_app, inserted_images_length.
  - intros Hlt. apply (updateCarousel_currentIndex k _ _ _ Hk1). simpl. lia.
  - intros Hge. rewrite (updateCarousel_guarded _ k _ _ Hk1) by (simpl; lia).
    by rewrite Hk1.
Qed.

Lemma mouseleave_resets_witness :
  (currentIndex <$>
     closures (dispatch MouseLeave (dispatch (Click 2) (initialised card3))) !! 0%nat)
  = Some 0.
Proof.
  refine (proj1 (mouseleave_resets (dispatch (Click 2) (initialised card3)) 0
    {| imagesUrl := [JStr "/media/p/0.jpg"; JStr "/media/p/1.jpg"; JStr "/media/p/2.jpg"];
       totalImages := 3; currentIndex := 2; imagesLoaded := true;
       isProcessing := false |} _ _ _)).
  - reflexivity.
  - vm_compute. reflexivity.
  - simpl. lia.
Defined.

Lemma click_selects_witness :
  (currentIndex <$> closures (dispatch (Click 2) (initialised card3)) !! 0%nat) = Some 2.
Proof.
  refine (proj1 (proj2 (proj2 (click_selects (initialised card3) 0
    (new_closure [JStr "/media/p/0.jpg"; JStr "/media/p/1.jpg"; JStr "/media/p/2.jpg"] 3)
    2
    {| dot_classList := ["w-1.5"; "h-1.5"; "rounded-full"; "bg-black/20"];
       dot_display := None; dot_click := [(0%nat, 2%nat)] |} _ _ _))) _).
  - vm_compute. reflexivity.
  - vm_compute. reflexivity.
  - reflexivity.
  - simpl. lia.
Defined.

(** ** What the closures leave alone *)

Lemma loadImages_frame k c :
  listeners (loadImages k c) = listeners c ∧
  animationFrames (loadImages k c) = animationFrames c ∧
  data_initialized (loadImages k c) = data_initialized c ∧
  card (loadImages k c) = card c.
Proof.
  unfold loadImages. repeat case_match; try done.
  by rewrite loadImages_loop_eq.
Qed.

Lemma updateCarousel_frame k i c :
  listeners (updateCarousel k i c) = listeners c ∧
  animationFrames (updateCarousel k i c) = animationFrames c ∧
  data_initialized (updateCarousel k i c) = data_initialized c.
Proof.
  unfold updateCarousel. destruct (closures c !! k) as [cl|]; [|done].
  case_match; [done|].
  destruct (loadImages_frame k c) as (Hl & Hf & Hd & _).
  assert (H1 : listeners (forced_load k cl i c) = listeners c ∧
               animationFrames (forced_load k cl i c) = animationFrames c ∧
               data_initialized (forced_load k cl i c) = data_initialized c).
  { unfold forced_load. by case_match. }
  destruct H1 as (<- & <- & <-).
  generalize (forced_load k cl i c). intros c1.
  destruct (querySelector_image (currentIndex cl) c1) as [[??]|],
    (querySelector_image i c1) as [[??]|]; cbn;
    rewrite ?listeners_alter_dot, ?animationFrames_alter_dot,
      ?data_initialized_alter_dot; cbn;
    by rewrite ?listeners_alter_dot, ?animationFrames_alter_dot,
      ?data_initialized_alter_dot.
Qed.

(** The closures after [updateCarousel]: the one at [k] re-indexed and
    possibly flagged loaded, every other one as it was. *)
Lemma updateCarousel_closures_alter k i c :
  ∃ g, closures (updateCarousel k i c) = alter g k (closures c) ∧
    ∀ x, isProcessing (g x) = isProcessing x ∧ imagesUrl (g x) = imagesUrl x ∧
         totalImages (g x) = totalImages x ∧
         (imagesLoaded x = true → imagesLoaded (g x) = true).
Proof.
  destruct (closures c !! k) as [cl|] eqn:Hk.
  - destruct (decide (i = currentIndex cl ∨ i < 0 ∨ totalImages cl ≤ i)) as [Hg | Hg].
    + exists id. rewrite (updateCarousel_guarded c k cl) by done.
      by rewrite list_alter_id.
    + rewrite (updateCarousel_closures c k cl i) by (done || lia).
      unfold forced_load. case_match.
      * exists (set_currentIndex i ∘ set_imagesLoaded true).
        by rewrite closures_loadImages, list_alter_alter_eq.
      * by exists (set_currentIndex i).
  - exists id. unfold updateCarousel. rewrite Hk. by rewrite list_alter_id.
Qed.

(** ** The throttle *)

Lemma alter_keeps_isProcessing (g : Closure → Closure) k j (l : list Closure) :
  (∀ x, isProcessing (g x) = isProcessing x) →
  (isProcessing <$> alter g k l !! j) = (isProcessing <$> l !! j).
Proof.
  intros Hg. rewrite list_lookup_alter. case_decide; subst; [|done].
  destruct (l !! j); simpl; by rewrite ?Hg.
Qed.

Lemma throttled_flag c :
  throttled c ↔
  ∀ k, pending_frames k c =
       match isProcessing <$> closures c !! k with
       | Some true => 1%nat
       | _ => 0%nat
       end.
Proof.
  unfold throttled. split; intros H k; rewrite (H k);
    destruct (closures c !! k) as [cl|]; simpl; try done; by destruct (isProcessing cl).
Qed.

Lemma throttled_same c c' :
  animationFrames c' = animationFrames c →
  (∀ k, (isProcessing <$> closures c' !! k) = (isProcessing <$> closures c !! k)) →
  throttled c → throttled c'.
Proof.
  rewrite !throttled_flag. intros Hf Hp H k.
  unfold pending_frames in *. rewrite Hf, Hp. apply H.
Qed.

Lemma throttled_loadImages k c : throttled c → throttled (loadImages k c).
Proof.
  apply throttled_same.
  - apply loadImages_frame.
  - intros j. rewrite closures_loadImages. by apply alter_keeps_isProcessing.
Qed.

Lemma throttled_updateCarousel k i c : throttled c → throttled (updateCarousel k i c).
Proof.
  apply throttled_same.
  - apply updateCarousel_frame.
  - intros j. destruct (updateCarousel_closures_alter k i c) as (g & -> & Hg).
    apply alter_keeps_isProcessing. intros x. apply Hg.
Qed.

Lemma throttled_on_mousemove k e c : throttled c → throttled (on_mousemove k e c).
Proof.
  intros H. unfold on_mousemove.
  destruct (closures c !! k) as [cl|] eqn:Hk; [|done].
  destruct (target_in_fire e); [done|].
  destruct (isProcessing cl) eqn:Hp; [done|].
  intros j. unfold pending_frames. simpl.
  rewrite filter_app, length_app. fold (pending_frames j c). rewrite (H j).
  rewrite list_lookup_alter. rewrite filter_cons. simpl.
  case_decide as Hj; subst.
  - rewrite Hk, Hp. simpl. done.
  - rewrite filter_nil. simpl. lia.
Qed.

Lemma throttled_frame rect c : throttled c → throttled (dispatch (AnimationFrame rect) c).
Proof.
  intros H. simpl. destruct (animationFrames c) as [|[k e] rest] eqn:Hfr; [done|].
  assert (Hk : (isProcessing <$> closures c !! k) = Some true ∧
               pending_frames k (set_animationFrames rest c) = 0%nat).
  { pose proof (proj1 (throttled_flag c) H k) as Hk.
    unfold pending_frames in *. rewrite Hfr in Hk. rewrite filter_cons in Hk.
    rewrite decide_True in Hk by done. simpl in *.
    destruct (isProcessing <$> closures c !! k) as [[|]|]; try done.
    split; [done | lia]. }
  destruct Hk as [Hk Hzero].
  assert (Hrest : ∀ j, j ≠ k →
            pending_frames j (set_animationFrames rest c) = pending_frames j c).
  { intros j Hj. unfold pending_frames. simpl. rewrite Hfr, filter_cons.
    by rewrite decide_False by (simpl; congruence). }
  (* the state once the flag of [k] is down, whatever ran in between *)
  assert (Hdown : ∀ c', animationFrames c' = rest →
            (∀ j, (isProcessing <$> closures c' !! j) = (isProcessing <$> closures c !! j)) →
            throttled (alter_closure k (set_isProcessing false) c')).
  { intros c' Hf' Hp'. apply throttled_flag. intros j.
    unfold pending_frames. simpl. rewrite Hf'.
    change (length (filter (λ f, f.1 = j) rest))
      with (pending_frames j (set_animationFrames rest c)).
    rewrite list_lookup_alter. case_decide; subst.
    - rewrite Hzero. destruct (closures c' !! j); simpl; done.
    - rewrite Hrest by done. rewrite Hp'. apply (proj1 (throttled_flag c) H). }
  unfold frame_callback. simpl.
  destruct (closures c !! k) as [cl|] eqn:Hcl; [|done].
  destruct (Qeq_bool (rect_width rect) 0).
  - apply Hdown; done.
  - apply Hdown.
    + by rewrite (proj1 (proj2 (updateCarousel_frame _ _ _))).
    + intros j. destruct (updateCarousel_closures_alter k
        (safeIndex (totalImages cl) rect e) (set_animationFrames rest c)) as (g & -> & Hg).
      apply alter_keeps_isProcessing. intros x. apply Hg.
Qed.

Lemma throttled_dispatch ev c : throttled c → throttled (dispatch ev c).
Proof.
  intros H. destruct ev as [|e| |d|rect].
  - simpl. apply fold_left_preserves; [|done]. intros a []; try done.
    apply throttled_loadImages.
  - simpl. apply fold_left_preserves; [|done]. intros a []; try done.
    apply throttled_on_mousemove.
  - simpl. apply fold_left_preserves; [|done]. intros a []; try done.
    apply throttled_updateCarousel.
  - simpl. case_match; [|done]. apply fold_left_preserves; [|done]. intros a h Ha.
    by apply throttled_updateCarousel, throttled_loadImages.
  - by apply throttled_frame.
Qed.

Section Throttle.
Variable JSON_parse : string -> option JSValue.

Lemma init_carousel_animationFrames c r :
  init_carousel JSON_parse c = Normal r → animationFrames r.1 = animationFrames c.
Proof.
  intros Hr. destruct (card c) as [dots|] eqn:Hc.
  - destruct (parse_images JSON_parse c) as [urls|e] eqn:Hp.
    + destruct (decide (parseInt_or_1 (data_totalImages c) ≤ 1)) as [Ht | Ht].
      * rewrite (init_carousel_static JSON_parse c dots urls) in Hr by done.
        injection Hr as <-.
        apply (static_branch (parseInt_or_1 (data_totalImages c)) c).
      * destruct (init_carousel_interactive JSON_parse c dots urls)
          as (c' & Hc' & _ & _ & _ & Hf & _); [done | done | lia |].
        rewrite Hc' in Hr. by injection Hr as <-.
    + rewrite (init_carousel_throw JSON_parse c dots e) in Hr by done.
      by injection Hr as <-.
  - rewrite init_carousel_no_card in Hr by done. by injection Hr as <-.
Qed.

Lemma throttled_init c r :
  init_carousel JSON_parse c = Normal r → throttled c → throttled r.1.
Proof.
  intros Hr H k. unfold pending_frames.
  rewrite (init_carousel_animationFrames c r Hr). fold (pending_frames k c).
  rewrite (H k).
  destruct (init_carousel_closures JSON_parse c r Hr)
    as [-> | (urls & total & Ht & ->)]; [done|].
  destruct (closures c !! k) as [cl|] eqn:Hk.
  - by rewrite (lookup_app_l_Some _ _ _ _ Hk).
  - apply lookup_ge_None in Hk. rewrite lookup_app_r by done.
    by destruct (k - length (closures c))%nat as [|[|?]].
Qed.

(** On a page that starts without instances and without queued callbacks, in
    every reachable state a frame callback is queued for an instance exactly
    while its [isProcessing] flag is up: pointer moves are throttled to one
    pending layout read per instance. *)
Theorem frames_throttled (p0 p : Page) :
  Forall (fun c => closures c = [] ∧ animationFrames c = []) (containers p0) →
  reachable JSON_parse p0 p →
  ∀ i c k, containers p !! i = Some c →
    pending_frames k c =
      match closures c !! k with
      | Some cl => if isProcessing cl then 1%nat else 0%nat
      | None => 0%nat
      end ∧
    (pending_frames k c ≤ 1)%nat.
Proof.
  intros H0 Hreach i c k Hc.
  assert (H : throttled c).
  { apply (reachable_invariant_at JSON_parse throttled p0 p i); try done.
    - intros c0 r Hc0 _ Hr. by apply (throttled_init c0 r).
    - intros c0 ev. apply throttled_dispatch.
    - intros c0 Hc0. rewrite Forall_lookup in H0.
      destruct (H0 i c0 Hc0) as [Hcl Hfr]. intros j.
      unfold pending_frames. by rewrite Hcl, Hfr. }
  split; [apply H|]. rewrite (H k). repeat case_match; lia.
Qed.
End Throttle.

(** ** Nothing but the primary image is shown before the load *)

Lemma loaded_before_shown_loadImages k c :
  loaded_before_shown c → loaded_before_shown (loadImages k c).
Proof.
  unfold loaded_before_shown. rewrite closures_loadImages. intros H.
  apply Forall_alter; [done|]. by intros [].
Qed.

Lemma loaded_before_shown_updateCarousel k i c :
  loaded_before_shown c → loaded_before_shown (updateCarousel k i c).
Proof.
  intros H. destruct (closures c !! k) as [cl|] eqn:Hk.
  - destruct (decide (i = currentIndex cl ∨ i < 0 ∨ totalImages cl ≤ i)) as [Hg | Hg].
    + by rewrite (updateCarousel_guarded c k cl).
    + unfold loaded_before_shown.
      rewrite (updateCarousel_closures c k cl i) by (done || lia).
      unfold forced_load. destruct (negb (imagesLoaded cl) && (i >? 0)) eqn:E.
      * rewrite closures_loadImages, list_alter_alter_eq.
        apply Forall_alter; [done|]. by intros [].
      * apply Forall_alter; [done|]. intros x Hx _. simpl. intros Hl.
        rewrite Hk in Hx. injection Hx as <-. rewrite Hl in E. simpl in E. lia.
  - unfold updateCarousel. by rewrite Hk.
Qed.

Lemma loaded_before_shown_isProcessing k b c :
  loaded_before_shown c → loaded_before_shown (alter_closure k (set_isProcessing b) c).
Proof. intros H. apply Forall_alter; [done|]. by intros []. Qed.

Lemma loaded_before_shown_dispatch ev c :
  loaded_before_shown c → loaded_before_shown (dispatch ev c).
Proof.
  intros H. destruct ev as [|e| |d|rect]; simpl.
  - apply fold_left_preserves; [|done]. intros a []; try done.
    apply loaded_before_shown_loadImages.
  - apply fold_left_preserves; [|done]. intros a [] Ha; try done.
    unfold on_mousemove. repeat case_match; try done.
    by apply (loaded_before_shown_isProcessing _ _ a).
  - apply fold_left_preserves; [|done]. intros a []; try done.
    apply loaded_before_shown_updateCarousel.
  - case_match; [|done]. apply fold_left_preserves; [|done]. intros a h Ha.
    by apply loaded_before_shown_updateCarousel, loaded_before_shown_loadImages.
  - destruct (animationFrames c) as [|[k e] rest]; [done|].
    unfold frame_callback. simpl. repeat case_match; try done.
    + by apply (loaded_before_shown_isProcessing _ _ (set_animationFrames rest c)).
    + apply loaded_before_shown_isProcessing.
      by apply (loaded_before_shown_updateCarousel _ _ (set_animationFrames rest c)).
Qed.

Section LoadedBeforeShown.
Variable JSON_parse : string -> option JSValue.

(** On a page that starts without instances, in every reachable state an
    instance whose current index is not 0 has run its lazy load: no image
    other than the primary one is selected before it was inserted. *)
Theorem shown_after_load (p0 p : Page) :
  Forall (fun c => closures c = []) (containers p0) →
  reachable JSON_parse p0 p →
  ∀ i c k cl, containers p !! i = Some c → closures c !! k = Some cl →
    currentIndex cl ≠ 0 → imagesLoaded cl = true.
Proof.
  intros H0 Hreach i c k cl Hc Hk Hcur.
  assert (H : loaded_before_shown c).
  { apply (reachable_invariant_at JSON_parse loaded_before_shown p0 p i); try done.
    - intros c0 r Hc0 _ Hr. unfold loaded_before_shown.
      destruct (init_carousel_closures JSON_parse c0 r Hr)
        as [-> | (urls & total & Ht & ->)]; [done|].
      apply Forall_app. split; [done|]. by constructor.
    - intros c0 ev. apply loaded_before_shown_dispatch.
    - intros c0 Hc0. rewrite Forall_lookup in H0. unfold loaded_before_shown.
      rewrite (H0 i c0 Hc0). constructor. }
  unfold loaded_before_shown in H. rewrite Forall_lookup in H.
  specialize (H k cl Hk). destruct (imagesLoaded cl); [done|]. by specialize (H eq_refl).
Qed.
End LoadedBeforeShown.

Lemma frames_throttled_witness :
  ∃ c, containers demo_page_moved !! 1%nat = Some c ∧
       pending_frames 0 c =
         match closures c !! 0%nat with
         | Some cl => if isProcessing cl then 1%nat else 0%nat
         | None => 0%nat
         end ∧
       (pending_frames 0 c ≤ 1)%nat.
Proof.
  eexists. split; [vm_compute; reflexivity|].
  refine (frames_throttled parse_string_array demo_page demo_page_moved _ _
            1%nat _ 0%nat _).
  - repeat constructor.
  - apply reachable_event.
    apply (reachable_init parse_string_array demo_page document demo_page).
    + apply reachable_start.
    + vm_compute. reflexivity.
  - vm_compute. reflexivity.
Defined.
Lemma shown_after_load_witness :
  ∃ c cl,
    containers (page_dispatch 1 (Click 2) demo_page_initialised) !! 1%nat = Some c ∧
    closures c !! 0%nat = Some cl ∧ imagesLoaded cl = true.
Proof.
  eexists _, _. split; [vm_compute; reflexivity|]. split; [reflexivity|].
  refine (shown_after_load parse_string_array demo_page
            (page_dispatch 1 (Click 2) demo_page_initialised) _ _
            1%nat _ 0%nat _ _ _ _).
  - repeat constructor.
  - apply reachable_event.
    apply (reachable_init parse_string_array demo_page document demo_page).
    + apply reachable_start.
    + vm_compute. reflexivity.
  - vm_compute. reflexivity.
  - reflexivity.
  - simpl. lia.
Defined.

(** ** One instance, and its images inserted once *)

Lemma fmap_alter_same {A B} (h : A → B) (f : A → A) (pos : nat) (l : list A) :
  (∀ x, h (f x) = h x) → h <$> alter f pos l = h <$> l.
Proof.
  intros Hf. apply list_eq. intros j. rewrite !list_lookup_fmap, list_lookup_alter.
  case_decide; subst; [|done]. destruct (l !! j); simpl; by rewrite ?Hf.
Qed.

Lemma lazy_images_alter (g : Closure → Closure) k c c' :
  closures c' = alter g k (closures c) →
  (∀ x, imagesLoaded (g x) = imagesLoaded x ∧ imagesUrl (g x) = imagesUrl x) →
  lazy_images c' = lazy_images c.
Proof.
  intros Hc Hg. unfold lazy_images. rewrite Hc.
  destruct (closures c) as [|cl rest]; [done|].
  destruct k; simpl; [|done]. by destruct (Hg cl) as [-> ->].
Qed.

Lemma same_shape_refl c : same_shape c c.
Proof. done. Qed.

Lemma same_shape_trans c1 c2 c3 :
  same_shape c1 c2 → same_shape c2 c3 → same_shape c1 c3.
Proof. intros [? ?] [? ?]. split; congruence. Qed.

Lemma same_shape_loadImages k c : same_shape c (loadImages k c).
Proof.
  split; [apply loadImages_frame|]. by rewrite closures_loadImages, length_alter.
Qed.

Lemma same_shape_updateCarousel k i c : same_shape c (updateCarousel k i c).
Proof.
  split; [apply updateCarousel_frame|].
  destruct (updateCarousel_closures_alter k i c) as (g & -> & _).
  by rewrite length_alter.
Qed.

Lemma same_shape_alter_closure k g c : same_shape c (alter_closure k g c).
Proof. split; [done|]. simpl. by rewrite length_alter. Qed.

Lemma same_shape_dispatch ev c : same_shape c (dispatch ev c).
Proof.
  destruct ev as [|e| |d|rect]; simpl.
  - apply (fold_left_preserves (same_shape c)); [|done]. intros a [] Ha; try done.
    eapply same_shape_trans; [done | apply same_shape_loadImages].
  - apply (fold_left_preserves (same_shape c)); [|done]. intros a [] Ha; try done.
    unfold on_mousemove. repeat case_match; try done.
    eapply same_shape_trans; [done|].
    by apply (same_shape_alter_closure _ _ a).
  - apply (fold_left_preserves (same_shape c)); [|done]. intros a [] Ha; try done.
    eapply same_shape_trans; [done | apply same_shape_updateCarousel].
  - case_match; [|done].
    apply (fold_left_preserves (same_shape c)); [|done]. intros a h Ha.
    eapply same_shape_trans; [done|].
    eapply same_shape_trans; [apply same_shape_loadImages | apply same_shape_updateCarousel].
  - destruct (animationFrames c) as [|[k e] rest]; [done|].
    unfold frame_callback. simpl. repeat case_match; try done.
    + by apply (same_shape_alter_closure _ _ (set_animationFrames rest c)).
    + eapply same_shape_trans; [|apply same_shape_alter_closure].
      apply (same_shape_updateCarousel k _ (set_animationFrames rest c)).
Qed.

Lemma images_from_loadImages base k c :
  images_from base c → images_from base (loadImages k c).
Proof.
  intros [Hlen Himg]. destruct (closures c !! k) as [cl|] eqn:Hk.
  - destruct (imagesLoaded cl) eqn:Hl.
    + by rewrite (loadImages_loaded k c cl).
    + rewrite (loadImages_fresh k c cl) by done.
      destruct (closures c) as [|cl0 [|? ?]] eqn:Hcl; simpl in Hlen; [done| |lia].
      destruct k; simpl in Hk; [|done]. injection Hk as ->.
      unfold images_from, lazy_images in *. simpl. rewrite Hcl in *. simpl.
      rewrite Hl in Himg. rewrite app_nil_r in Himg.
      split; [done|]. by rewrite fmap_app, Himg.
  - unfold loadImages. by rewrite Hk.
Qed.

Lemma images_from_updateCarousel base k i c :
  images_from base c → images_from base (updateCarousel k i c).
Proof.
  intros H. destruct (closures c !! k) as [cl|] eqn:Hk.
  - destruct (decide (i = currentIndex cl ∨ i < 0 ∨ totalImages cl ≤ i)) as [Hg | Hg].
    + by rewrite (updateCarousel_guarded c k cl).
    + assert (H1 : images_from base (forced_load k cl i c)).
      { unfold forced_load. case_match; [by apply images_from_loadImages | done]. }
      destruct H1 as [Hlen Himg]. split.
      * rewrite (updateCarousel_closures c k cl i) by (done || lia).
        by rewrite length_alter.
      * rewrite (lazy_images_alter (set_currentIndex i) k (forced_load k cl i c));
          [| by apply updateCarousel_closures; (done || lia) | done].
        rewrite (updateCarousel_images c k cl i) by (done || lia).
        rewrite <- Himg.
        destruct (querySelector_image i _) as [[??]|],
          (querySelector_image (currentIndex cl) _) as [[??]|]; simpl;
          by rewrite ?fmap_alter_same.
  - unfold updateCarousel. by rewrite Hk.
Qed.

Lemma images_from_isProcessing base k b c :
  images_from base c → images_from base (alter_closure k (set_isProcessing b) c).
Proof.
  intros [Hlen Himg]. split; [simpl; by rewrite length_alter|].
  by rewrite (lazy_images_alter (set_isProcessing b) k c).
Qed.

Lemma images_from_dispatch base ev c :
  images_from base c → images_from base (dispatch ev c).
Proof.
  intros H. destruct ev as [|e| |d|rect]; simpl.
  - apply fold_left_preserves; [|done]. intros a []; try done.
    apply images_from_loadImages.
  - apply fold_left_preserves; [|done]. intros a [] Ha; try done.
    unfold on_mousemove. repeat case_match; try done.
    by apply (images_from_isProcessing _ _ _ a).
  - apply fold_left_preserves; [|done]. intros a []; try done.
    apply images_from_updateCarousel.
  - case_match; [|done]. apply fold_left_preserves; [|done]. intros a h Ha.
    by apply images_from_updateCarousel, images_from_loadImages.
  - destruct (animationFrames c) as [|[k e] rest]; [done|].
    unfold frame_callback. simpl. repeat case_match; try done.
    + by apply (images_from_isProcessing _ _ _ (set_animationFrames rest c)).
    + apply images_from_isProcessing.
      by apply (images_from_updateCarousel _ _ _ (set_animationFrames rest c)).
Qed.

Section InsertedOnce.
Variable JSON_parse : string -> option JSValue.

(** For a container rendered without an instance and unmarked, in every
    reachable state it has at most one instance, and its image elements are
    those of the markup, in place, followed by exactly the images of one run
    of [loadImages] once the instance is loaded (class lists apart): no image
    is ever inserted twice or removed. *)
Theorem images_inserted_once (p0 p : Page) (i : nat) (c0 : Carousel) :
  containers p0 !! i = Some c0 →
  closures c0 = [] →
  data_initialized c0 = None →
  reachable JSON_parse p0 p →
  ∀ c, containers p !! i = Some c →
    (length (closures c) ≤ 1)%nat ∧
    unstyled <$> images c = (unstyled <$> images c0) ++ (unstyled <$> lazy_images c).
Proof.
  intros Hc0 Hcl0 Hd0 Hreach c Hc.
  assert (H : images_from (images c0) c ∧ (data_initialized c = None → closures c = [])).
  { apply (reachable_invariant_at JSON_parse
             (fun c => images_from (images c0) c ∧
                       (data_initialized c = None → closures c = [])) p0 p i);
      try done.
    - intros c1 r [[Hlen Himg] Hnone] Hd Hr. specialize (Hnone Hd).
      destruct (init_carousel_defers JSON_parse c1) as (r' & Hr' & Hi & Hnew).
      rewrite Hr in Hr'. injection Hr' as <-.
      split.
      + unfold images_from, lazy_images in *. rewrite Hi, Himg, Hnone.
        destruct (init_carousel_closures JSON_parse c1 r Hr)
          as [-> | (urls & total & Ht & ->)]; rewrite Hnone; simpl;
          (split; [lia | done]).
      + by rewrite (init_carousel_marks JSON_parse c1 r Hr).
    - intros c1 ev [Himg Hnone]. split; [by apply images_from_dispatch|].
      destruct (same_shape_dispatch ev c1) as [Hd Hlen]. rewrite Hd. intros Hn.
      specialize (Hnone Hn). rewrite Hnone in Hlen.
      by destruct (closures (dispatch ev c1)).
    - intros c1 Hc1. rewrite Hc0 in Hc1. injection Hc1 as <-. split; [|done].
      unfold images_from, lazy_images. rewrite Hcl0. simpl.
      split; [lia | by rewrite app_nil_r]. }
  apply H.
Qed.
End InsertedOnce.

Lemma images_inserted_once_witness :
  ∃ c, containers (page_dispatch 1 (Click 2) demo_page_initialised) !! 1%nat = Some c ∧
       (length (closures c) ≤ 1)%nat ∧
       unstyled <$> images c = (unstyled <$> images card3) ++ (unstyled <$> lazy_images c).
Proof.
  eexists. split; [vm_compute; reflexivity|].
  refine (images_inserted_once parse_string_array demo_page
            (page_dispatch 1 (Click 2) demo_page_initialised) 1 card3 _ _ _ _ _ _).
  - reflexivity.
  - reflexivity.
  - reflexivity.
  - apply reachable_event.
    apply (reachable_init parse_string_array demo_page document demo_page).
    + apply reachable_start.
    + vm_compute. reflexivity.
  - vm_compute. reflexivity.
Defined.

(** * The profile tabs and the order map: properties *)

(** ** Strings and arrays *)

Lemma split_not_nil (sep : ascii) (s : string) : JS.split sep s ≠ [].
Proof.
  destruct s as [|a s]; cbn; [done|].
  destruct (Ascii.eqb a sep); [done|]. by destruct (JS.split sep s).
Qed.

Lemma split_cons (sep a : ascii) (s : string) :
  JS.split sep (String a s) =
  if Ascii.eqb a sep then EmptyString :: JS.split sep s
  else match JS.split sep s with
       | seg :: rest => String a seg :: rest
       | [] => [String a EmptyString]
       end.
Proof. done. Qed.

Lemma split_app (sep : ascii) (s t : string) :
  JS.split sep (s +:+ String sep t) = JS.split sep s ++ JS.split sep t.
Proof.
  induction s as [|a s IH].
  - change (EmptyString +:+ String sep t) with (String sep t).
    by rewrite split_cons, Ascii.eqb_refl.
  - change (String a s +:+ String sep t) with (String a (s +:+ String sep t)).
    rewrite !split_cons, IH.
    destruct (Ascii.eqb a sep); [done|].
    pose proof (split_not_nil sep s).
    by destruct (JS.split sep s).
Qed.

Lemma split_no_sep (sep : ascii) (s : string) :
  sep ∉ list_ascii_of_string s → JS.split sep s = [s].
Proof.
  induction s as [|a s IH]; [done|].
  change (list_ascii_of_string (String a s)) with (a :: list_ascii_of_string s).
  intros Hn. apply not_elem_of_cons in Hn as [Hne Hn].
  rewrite split_cons.
  destruct (Ascii.eqb_spec a sep); [congruence|].
  by rewrite IH.
Qed.

Lemma list_ascii_of_string_app (s t : string) :
  list_ascii_of_string (s +:+ t) = list_ascii_of_string s ++ list_ascii_of_string t.
Proof.
  induction s as [|a s IH]; [done|].
  change (String a s +:+ t) with (String a (s +:+ t)).
  cbn [list_ascii_of_string]. by rewrite IH.
Qed.

Lemma append_assoc (s t u : string) : (s +:+ t) +:+ u = s +:+ (t +:+ u).
Proof.
  induction s as [|a s IH]; [done|].
  change ((String a s +:+ t) +:+ u) with (String a ((s +:+ t) +:+ u)).
  change (String a s +:+ (t +:+ u)) with (String a (s +:+ (t +:+ u))).
  by rewrite IH.
Qed.

(** ** The profile tabs *)

Lemma path_of_snoc (prefix seg : string) :
  seg ≠ EmptyString → "/"%char ∉ list_ascii_of_string seg →
  ProfileTabs.path_of (prefix +:+ String "/" seg) = Some seg.
Proof.
  intros Hne Hsep. unfold ProfileTabs.path_of.
  rewrite split_app, filter_app, (split_no_sep _ seg) by done.
  rewrite filter_cons_True, filter_nil by done.
  apply last_snoc.
Qed.

Lemma path_of_slash (s : string) :
  ProfileTabs.path_of (s +:+ "/") = ProfileTabs.path_of s.
Proof.
  unfold ProfileTabs.path_of.
  rewrite (split_app "/" s EmptyString), filter_app.
  change (JS.split "/" EmptyString) with [EmptyString].
  rewrite filter_cons_False, filter_nil by (intros H; by apply H).
  by rewrite app_nil_r.
Qed.

Lemma tab_of_valid (path : option string) :
  ProfileTabs.tab_of path ∈ ProfileTabs.validTabs.
Proof.
  unfold ProfileTabs.tab_of. destruct path as [path|]; [|set_solver].
  destruct (_ || _); [set_solver|].
  case_bool_decide; [done|set_solver].
Qed.

Lemma title_valid (key : string) :
  key ∈ ProfileTabs.validTabs →
  ∃ v, ProfileTabs.own ProfileTabs.tabTitles key = Some v ∧
       ProfileTabs.title key = ProfileTabs.Literal v.
Proof.
  unfold ProfileTabs.validTabs. rewrite !elem_of_cons, elem_of_nil.
  intros [->|[->|[->|[->|[]]]]]; eexists; (split; [reflexivity|reflexivity]).
Qed.

Lemma shows_updateBreadcrumb (t : ProfileTabs.Tabs) :
  ProfileTabs.activeTab t ∈ ProfileTabs.validTabs →
  ProfileTabs.shows_valid_tab (ProfileTabs.updateBreadcrumb t).
Proof.
  intros Hv. split; [done|].
  intros text. cbn. destruct (ProfileTabs.breadcrumb_last t); [|done].
  cbn. intros [= <-]. by apply title_valid.
Qed.

Lemma shows_checkOrderHighlight (t : ProfileTabs.Tabs) :
  ProfileTabs.shows_valid_tab t →
  ProfileTabs.shows_valid_tab (ProfileTabs.checkOrderHighlight t).
Proof.
  unfold ProfileTabs.checkOrderHighlight.
  destruct (ProfileTabs.order_id t); [|done].
  by destruct (_ && _).
Qed.

Lemma shows_on_popstate (t : ProfileTabs.Tabs) :
  ProfileTabs.shows_valid_tab (ProfileTabs.on_popstate t).
Proof.
  apply shows_checkOrderHighlight, shows_updateBreadcrumb, tab_of_valid.
Qed.

Lemma popstate_checkOrderHighlight (t : ProfileTabs.Tabs) :
  ProfileTabs.popstate (ProfileTabs.checkOrderHighlight t) = ProfileTabs.popstate t.
Proof.
  unfold ProfileTabs.checkOrderHighlight.
  destruct (ProfileTabs.order_id t); [|done].
  by destruct (_ && _).
Qed.

Lemma popstate_on_popstate (t : ProfileTabs.Tabs) :
  ProfileTabs.popstate (ProfileTabs.on_popstate t) = ProfileTabs.popstate t.
Proof. unfold ProfileTabs.on_popstate. by rewrite popstate_checkOrderHighlight. Qed.

Lemma popstate_iter (n : nat) (t : ProfileTabs.Tabs) :
  ProfileTabs.popstate (Nat.iter n ProfileTabs.on_popstate t) = ProfileTabs.popstate t.
Proof. induction n as [|n IH]; [done|]. cbn. by rewrite popstate_on_popstate. Qed.

Lemma activeTab_checkOrderHighlight (t : ProfileTabs.Tabs) :
  ProfileTabs.activeTab (ProfileTabs.checkOrderHighlight t) = ProfileTabs.activeTab t.
Proof.
  unfold ProfileTabs.checkOrderHighlight.
  destruct (ProfileTabs.order_id t); [|done].
  by destruct (_ && _).
Qed.

Lemma shows_act (URL_pathname : string → string) (a : ProfileTabs.Action)
    (t : ProfileTabs.Tabs) :
  (∀ tabId, a = ProfileTabs.SwitchTab tabId → tabId ∈ ProfileTabs.validTabs) →
  ProfileTabs.shows_valid_tab t ∧ (0 < ProfileTabs.popstate t)%nat →
  ProfileTabs.shows_valid_tab (ProfileTabs.act URL_pathname a t) ∧
  (0 < ProfileTabs.popstate (ProfileTabs.act URL_pathname a t))%nat.
Proof.
  intros Ha [Hs Hn]. destruct a as [pathname order_id|tabId]; cbn.
  - unfold ProfileTabs.popstate_event. cbn [ProfileTabs.popstate ProfileTabs.set_order_id ProfileTabs.set_pathname].
    destruct (ProfileTabs.popstate t) as [|n] eqn:Hp; [lia|].
    split.
    + cbn [Nat.iter nat_rect]. apply shows_on_popstate.
    + rewrite popstate_iter. cbn. lia.
  - split; [|done].
    specialize (Ha tabId eq_refl).
    destruct (shows_updateBreadcrumb (ProfileTabs.set_activeTab tabId t) Ha) as [H1 H2].
    split; [done|]. exact H2.
Qed.

(** After [init], whatever the location was and whichever way the history
    moves, and with [switchTab] called for the four tabs only, the active tab
    is one of the four and the breadcrumb, where there is one, carries the
    title of that tab. *)
Theorem activeTab_valid (URL_pathname : string → string) (t : ProfileTabs.Tabs)
    (l : list ProfileTabs.Action) :
  Forall (fun a => ∀ tabId, a = ProfileTabs.SwitchTab tabId →
                            tabId ∈ ProfileTabs.validTabs) l →
  ProfileTabs.shows_valid_tab (ProfileTabs.run URL_pathname l (ProfileTabs.init t)).
Proof.
  intros Hl.
  assert (H0 : ProfileTabs.shows_valid_tab (ProfileTabs.init t) ∧
               (0 < ProfileTabs.popstate (ProfileTabs.init t))%nat).
  { split; [|cbn; lia].
    pose proof (shows_on_popstate t) as [H1 H2]. split; [exact H1|exact H2]. }
  revert H0. generalize (ProfileTabs.init t) as t0.
  induction Hl as [|a l Ha Hl IH]; intros t0 H0; [by destruct H0|].
  cbn. apply IH. by apply shows_act.
Qed.

Lemma activeTab_valid_witness :
  ProfileTabs.shows_valid_tab
    (ProfileTabs.run (fun url => url)
       [ProfileTabs.SwitchTab "wishlist"; ProfileTabs.Popstate "/profile/" None]
       (ProfileTabs.init ProfileTabs.orders_page)).
Proof.
  apply activeTab_valid.
  apply Forall_cons_2; [intros tabId [= <-]; set_solver|].
  apply Forall_cons_2; [intros tabId [=]|].
  apply Forall_nil_2.
Defined.

(** Only the last non-empty segment of the path counts: a path that ends in
    [/seg] or [/seg/] is read as [seg], whatever comes before, and [init]
    picks the tab for [seg]. *)
Theorem path_of_last_segment (prefix seg : string) (t : ProfileTabs.Tabs) :
  seg ≠ EmptyString → "/"%char ∉ list_ascii_of_string seg →
  ProfileTabs.path_of (prefix +:+ ("/" +:+ seg)) = Some seg ∧
  ProfileTabs.path_of (prefix +:+ ("/" +:+ (seg +:+ "/"))) = Some seg ∧
  ProfileTabs.activeTab
    (ProfileTabs.init (ProfileTabs.set_pathname (prefix +:+ ("/" +:+ (seg +:+ "/"))) t)) =
  ProfileTabs.tab_of (Some seg).
Proof.
  intros Hne Hsep.
  assert (H1 : ProfileTabs.path_of (prefix +:+ ("/" +:+ seg)) = Some seg)
    by (by apply path_of_snoc).
  assert (H2 : ProfileTabs.path_of (prefix +:+ ("/" +:+ (seg +:+ "/"))) = Some seg).
  { assert (E : prefix +:+ ("/" +:+ (seg +:+ "/")) = (prefix +:+ ("/" +:+ seg)) +:+ "/")
      by (by rewrite append_assoc).
    by rewrite E, path_of_slash. }
  split; [done|]. split; [done|].
  cbn [ProfileTabs.init ProfileTabs.activeTab ProfileTabs.set_popstate].
  rewrite activeTab_checkOrderHighlight.
  cbn [ProfileTabs.activeTab ProfileTabs.updateBreadcrumb ProfileTabs.set_breadcrumb_last
       ProfileTabs.read_location ProfileTabs.set_activeTab ProfileTabs.pathname
       ProfileTabs.set_pathname].
  by rewrite H2.
Qed.

Lemma path_of_last_segment_witness :
  ProfileTabs.path_of ("/shop" +:+ ("/" +:+ "orders")) = Some "orders" ∧
  ProfileTabs.path_of ("/shop" +:+ ("/" +:+ ("orders" +:+ "/"))) = Some "orders" ∧
  ProfileTabs.activeTab
    (ProfileTabs.init
       (ProfileTabs.set_pathname ("/shop" +:+ ("/" +:+ ("orders" +:+ "/")))
          ProfileTabs.orders_page)) =
  ProfileTabs.tab_of (Some "orders").
Proof.
  apply (path_of_last_segment "/shop" "orders" ProfileTabs.orders_page).
  - done.
  - vm_compute. set_solver.
Defined.

Section RoundTrip.

Variable URL_pathname : string → string.

(** [switchTab] and the reading of the location agree on the four tabs: as
    long as the browser takes the URL pushed as the path, a component
    initialised at the location [switchTab tabId] leaves, or a [popstate]
    listener run there, makes [tabId] the active tab again. *)
Theorem switchTab_round_trip (tabId : string) (t t' : ProfileTabs.Tabs) :
  tabId ∈ ProfileTabs.validTabs →
  URL_pathname (ProfileTabs.url_of tabId) = ProfileTabs.url_of tabId →
  ProfileTabs.pathname t' =
    ProfileTabs.pathname (ProfileTabs.switchTab URL_pathname tabId t) →
  ProfileTabs.activeTab (ProfileTabs.switchTab URL_pathname tabId t) = tabId ∧
  ProfileTabs.activeTab (ProfileTabs.init t') = tabId ∧
  ProfileTabs.activeTab (ProfileTabs.on_popstate t') = tabId.
Proof.
  intros Hv Hurl Hp. split; [done|].
  cbn in Hp. rewrite Hurl in Hp.
  cbn [ProfileTabs.init ProfileTabs.activeTab ProfileTabs.set_popstate].
  unfold ProfileTabs.on_popstate.
  rewrite activeTab_checkOrderHighlight. cbn. rewrite Hp.
  revert Hv. unfold ProfileTabs.validTabs. rewrite !elem_of_cons, elem_of_nil.
  intros [->|[->|[->|[->|[]]]]]; split; vm_compute; reflexivity.
Qed.

End RoundTrip.

Lemma switchTab_round_trip_witness :
  ProfileTabs.activeTab
    (ProfileTabs.switchTab (fun url => url) "returns" ProfileTabs.orders_page) = "returns" ∧
  ProfileTabs.activeTab
    (ProfileTabs.init (ProfileTabs.set_pathname "/profile/returns/" ProfileTabs.orders_page)) =
    "returns" ∧
  ProfileTabs.activeTab
    (ProfileTabs.on_popstate
       (ProfileTabs.set_pathname "/profile/returns/" ProfileTabs.orders_page)) = "returns".
Proof.
  apply (switchTab_round_trip (fun url => url) "returns" ProfileTabs.orders_page
           (ProfileTabs.set_pathname "/profile/returns/" ProfileTabs.orders_page)).
  - set_solver.
  - reflexivity.
  - reflexivity.
Defined.

(** ** The address of the order *)

Lemma NoDup_add (token : string) (cl : list string) : NoDup cl → NoDup (add token cl).
Proof.
  intros Hn. unfold add, contains. case_bool_decide; [done|].
  apply NoDup_app. split; [done|]. split; [|apply NoDup_singleton].
  intros x Hx ->%list_elem_of_singleton. done.
Qed.

Lemma new_Set_acc (l acc : list string) :
  NoDup acc →
  NoDup (fold_left (fun s x => add x s) l acc) ∧
  ∀ x, x ∈ fold_left (fun s x => add x s) l acc ↔ x ∈ acc ∨ x ∈ l.
Proof.
  revert acc. induction l as [|y l IH]; intros acc Hn; cbn.
  - split; [done|]. intros x. rewrite elem_of_nil. tauto.
  - destruct (IH (add y acc) (NoDup_add _ _ Hn)) as [H1 H2]. split; [done|].
    intros x. rewrite H2, elem_of_add, elem_of_cons. tauto.
Qed.

Lemma new_Set_NoDup (l : list string) : NoDup (JS.new_Set l).
Proof. apply new_Set_acc, NoDup_nil_2. Qed.

Lemma elem_of_new_Set (l : list string) (x : string) : x ∈ JS.new_Set l ↔ x ∈ l.
Proof.
  unfold JS.new_Set. destruct (new_Set_acc l [] (NoDup_nil_2)) as [_ H].
  rewrite H, elem_of_nil. tauto.
Qed.

Lemma trimStart_space (s : string) : trimStart (" " +:+ s) = trimStart s.
Proof. done. Qed.

Lemma trimStart_chars (s : string) (x : ascii) :
  x ∈ list_ascii_of_string (trimStart s) → x ∈ list_ascii_of_string s.
Proof.
  induction s as [|a s IH]; [done|]. cbn [trimStart].
  destruct (is_white_space a); [|done].
  intros H. cbn. right. by apply IH.
Qed.

Lemma trimEnd_chars (s : string) (x : ascii) :
  x ∈ list_ascii_of_string (trimEnd s) → x ∈ list_ascii_of_string s.
Proof.
  induction s as [|a s IH]; [done|]. cbn [trimEnd].
  destruct (trimEnd s) as [|b t] eqn:E.
  - destruct (is_white_space a); cbn; [by rewrite elem_of_nil|].
    rewrite !elem_of_cons, elem_of_nil. tauto.
  - cbn [list_ascii_of_string]. rewrite !elem_of_cons.
    intros [->|H]; [by left|]. right. apply IH. cbn. by rewrite elem_of_cons.
Qed.

Lemma trim_chars (s : string) (x : ascii) :
  x ∈ list_ascii_of_string (trim s) → x ∈ list_ascii_of_string s.
Proof. intros H. by apply trimStart_chars, trimEnd_chars. Qed.

Lemma trimEnd_idemp (s : string) : trimEnd (trimEnd s) = trimEnd s.
Proof.
  induction s as [|a s IH]; [done|]. cbn [trimEnd].
  destruct (trimEnd s) as [|b t] eqn:E.
  - destruct (is_white_space a) eqn:Ha; [done|]. cbn. by rewrite Ha.
  - cbn [trimEnd] in IH |- *. by rewrite IH.
Qed.

Lemma trimStart_head (s : string) :
  match trimStart s with
  | EmptyString => True
  | String a _ => is_white_space a = false
  end.
Proof.
  induction s as [|a s IH]; [done|]. cbn [trimStart].
  by destruct (is_white_space a) eqn:Ha.
Qed.

Lemma trimStart_fixed (s : string) :
  match s with
  | EmptyString => True
  | String a _ => is_white_space a = false
  end → trimStart s = s.
Proof. destruct s as [|a s]; [done|]. cbn. by intros ->. Qed.

Lemma trimEnd_head (s : string) :
  match s with
  | EmptyString => True
  | String a _ => is_white_space a = false
  end →
  match trimEnd s with
  | EmptyString => True
  | String a _ => is_white_space a = false
  end.
Proof.
  destruct s as [|a s]; [done|]. cbn [trimEnd]. intros Ha.
  destruct (trimEnd s); [by rewrite Ha|done].
Qed.

Lemma trim_idemp (s : string) : trim (trim s) = trim s.
Proof.
  unfold trim.
  rewrite (trimStart_fixed (trimEnd (trimStart s))).
  - apply trimEnd_idemp.
  - apply trimEnd_head, trimStart_head.
Qed.

Lemma split_no_sep_parts (sep : ascii) (s : string) :
  Forall (fun seg => sep ∉ list_ascii_of_string seg) (JS.split sep s).
Proof.
  induction s as [|a s IH].
  - apply Forall_cons_2; [cbn; apply not_elem_of_nil|apply Forall_nil_2].
  - rewrite split_cons. destruct (Ascii.eqb_spec a sep) as [->|Hne].
    + apply Forall_cons_2; [cbn; apply not_elem_of_nil|done].
    + destruct (JS.split sep s) as [|seg rest] eqn:E; [by apply split_not_nil in E|].
      apply Forall_cons in IH as [H1 H2].
      apply Forall_cons_2; [|done].
      cbn. rewrite not_elem_of_cons. split; [congruence|done].
Qed.

Lemma split_join (l : list string) :
  Forall (fun seg => ","%char ∉ list_ascii_of_string seg) l →
  JS.split "," (JS.join ", " l) =
  match l with
  | [] => [EmptyString]
  | s :: rest => s :: ((fun seg => " " +:+ seg) <$> rest)
  end.
Proof.
  induction l as [|s rest IH]; [done|].
  intros [Hs Hrest]%Forall_cons. specialize (IH Hrest).
  destruct rest as [|s' rest].
  - cbn. by apply split_no_sep.
  - change (JS.join ", " (s :: s' :: rest))
      with (s +:+ String "," (String " " (JS.join ", " (s' :: rest)))).
    rewrite split_app, (split_no_sep _ s) by done.
    rewrite split_cons. cbn [Ascii.eqb Bool.eqb]. rewrite IH.
    done.
Qed.

Lemma trim_join_parts (l : list string) :
  l ≠ [] →
  Forall (fun seg => (","%char ∉ list_ascii_of_string seg) ∧ trim seg = seg) l →
  trim <$> JS.split "," (JS.join ", " l) = l.
Proof.
  intros Hne Hl.
  assert (Hc : Forall (fun seg => ","%char ∉ list_ascii_of_string seg) l)
    by (eapply Forall_impl; [exact Hl|]; by intros ? [? ?]).
  rewrite (split_join l Hc).
  destruct l as [|s rest]; [done|].
  apply Forall_cons in Hl as [[_ Hs] Hrest].
  cbn [fmap list_fmap]. rewrite Hs. f_equal.
  clear Hne Hc Hs.
  induction rest as [|s' rest IH]; [done|].
  apply Forall_cons in Hrest as [[_ Hs'] Hrest].
  cbn [fmap list_fmap] in IH |- *. rewrite (IH Hrest). f_equal.
  unfold trim. rewrite trimStart_space. exact Hs'.
Qed.

Lemma new_Set_parts (s : string) :
  JS.new_Set (trim <$> JS.split "," s) ≠ [] ∧
  Forall (fun seg => (","%char ∉ list_ascii_of_string seg) ∧ trim seg = seg)
    (JS.new_Set (trim <$> JS.split "," s)).
Proof.
  split.
  - pose proof (split_not_nil "," s) as Hs.
    destruct (JS.split "," s) as [|seg rest] eqn:E; [done|].
    intros Hnil. assert (H : trim seg ∈ JS.new_Set (trim <$> (seg :: rest))).
    { apply elem_of_new_Set. cbn. by left. }
    rewrite Hnil in H. by apply elem_of_nil in H.
  - apply Forall_forall. intros x Hx.
    apply (proj1 (elem_of_new_Set _ _)) in Hx.
    apply list_elem_of_fmap in Hx as [seg [-> Hseg]].
    split; [|apply trim_idemp].
    intros Hc%trim_chars.
    pose proof (split_no_sep_parts "," s) as Hall.
    rewrite Forall_forall in Hall. by apply (Hall seg).
Qed.

(** The address [cleanAddressString] returns reads back, split at the commas
    and trimmed, as parts that are pairwise distinct, and it is those parts
    joined by a comma and one space. *)
Theorem cleanAddressString_parts (address : option string) :
  let parts := trim <$> JS.split "," (OrderMap.cleanAddressString address) in
  NoDup parts ∧ JS.join ", " parts = OrderMap.cleanAddressString address.
Proof.
  unfold OrderMap.cleanAddressString.
  destruct address as [address|]; [|split; [apply NoDup_singleton|done]].
  case_bool_decide; [split; [apply NoDup_singleton|done]|].
  cbv zeta.
  destruct (new_Set_parts (JS.remove_first "Архангельская область, "
                             (OrderMap.strip_country address))) as [Hne Hall].
  rewrite trim_join_parts by done.
  split; [apply new_Set_NoDup|done].
Qed.

(** ** The order form and the map *)

(** With the address field on the page, [form.onsubmit] ends without an
    error; it prevents the submission exactly when the address is empty, and
    what it lets through has a non-empty address, which for a pickup is the
    pickup point and otherwise is left as the user had it. *)
Theorem onsubmit_validates (p : OrderMap.OrderPage) (a : string) :
  OrderMap.address p = Some a →
  ∃ prevented p',
    OrderMap.onsubmit p = (None, prevented, p') ∧
    (prevented = true ↔ a = EmptyString) ∧
    (prevented = true → OrderMap.address p' = OrderMap.address p) ∧
    (prevented = false →
       OrderMap.address p' ≠ Some EmptyString ∧
       (OrderMap.id_buying_type p = Some "self" →
          OrderMap.address p' = Some OrderMap.SAFU_ADDRESS) ∧
       (OrderMap.id_buying_type p ≠ Some "self" → p' = p)).
Proof.
  intros Ha. unfold OrderMap.onsubmit. rewrite Ha.
  case_bool_decide as He.
  - eexists _, _. split; [reflexivity|]. split; [done|]. split; [done|]. done.
  - destruct (bool_decide (OrderMap.id_buying_type p = Some "self")) eqn:Ht;
      [apply bool_decide_eq_true in Ht|apply bool_decide_eq_false in Ht];
      cbn [andb].
    + case_bool_decide as Hs; cbn [negb].
      * eexists _, _. split; [reflexivity|].
        split; [split; [done|by intros ?]|]. split; [done|]. intros _.
        split; [rewrite Ha; congruence|]. split; [by rewrite Ha, Hs|done].
      * eexists _, _. split; [reflexivity|].
        split; [split; [done|by intros ?]|]. split; [done|]. intros _.
        split; [done|]. split; [done|done].
    + eexists _, _. split; [reflexivity|].
      split; [split; [done|by intros ?]|]. split; [done|]. intros _.
      split; [rewrite Ha; congruence|]. split; [done|done].
Qed.

Lemma onsubmit_validates_witness :
  ∃ prevented p',
    OrderMap.onsubmit (OrderMap.set_id_buying_type (Some "self") OrderMap.delivery_page) =
      (None, prevented, p') ∧
    (prevented = true ↔ "Северодвинск, улица Ломоносова, 81" = EmptyString) ∧
    (prevented = true →
       OrderMap.address p' =
       OrderMap.address (OrderMap.set_id_buying_type (Some "self") OrderMap.delivery_page)) ∧
    (prevented = false →
       OrderMap.address p' ≠ Some EmptyString ∧
       (OrderMap.id_buying_type
          (OrderMap.set_id_buying_type (Some "self") OrderMap.delivery_page) = Some "self" →
          OrderMap.address p' = Some OrderMap.SAFU_ADDRESS) ∧
       (OrderMap.id_buying_type
          (OrderMap.set_id_buying_type (Some "self") OrderMap.delivery_page) ≠ Some "self" →
          p' = OrderMap.set_id_buying_type (Some "self") OrderMap.delivery_page)).
Proof.
  apply (onsubmit_validates
           (OrderMap.set_id_buying_type (Some "self") OrderMap.delivery_page)
           "Северодвинск, улица Ломоносова, 81").
  reflexivity.
Defined.

Lemma remove_only (pm : OrderMap.Placemark) :
  filter (fun o => OrderMap.pm_id o ≠ OrderMap.pm_id pm) [pm] = [].
Proof. rewrite filter_cons_False by (intros H; by apply H). apply filter_nil. Qed.

Ltac page_simpl :=
  cbv [OrderMap.handleBuyingTypeChange OrderMap.setAddress OrderMap.setAddressVisuals
       OrderMap.block OrderMap.seq OrderMap.write OrderMap.skip OrderMap.on_map
       OrderMap.place OrderMap.remove_placemark OrderMap.search_visible
       OrderMap.geoObjects_add OrderMap.geoObjects_remove OrderMap.call
       OrderMap.set_id_buying_type OrderMap.set_map_classList OrderMap.set_address
       OrderMap.set_address_text OrderMap.set_error_display OrderMap.set_myMapInstance
       OrderMap.set_placemarkInstance OrderMap.set_searchControl OrderMap.set_placemarks
       OrderMap.set_geocodes OrderMap.set_alerts
       OrderMap.id_buying_type OrderMap.map_classList OrderMap.address
       OrderMap.address_text OrderMap.error_display OrderMap.myMapInstance
       OrderMap.placemarkInstance OrderMap.searchControl OrderMap.placemarks
       OrderMap.geocodes OrderMap.alerts OrderMap.geoObjects OrderMap.calls
       OrderMap.placemark_shown option_list option_rect
       JS.assign fmap option_fmap option_map snd fst].

Ltac page_done :=
  try done; try (intros ->; rewrite ?remove_only; done).

Lemma shown_setAddress (a : string) (c : OrderMap.Coords) (z : Z) (b : bool)
    (p : OrderMap.OrderPage) :
  OrderMap.placemark_shown p → OrderMap.placemark_shown (OrderMap.setAddress a c z b p).2.
Proof.
  destruct p as [ty cls addr txt err [[geo log]|] [pm|] sc n gc al], b;
    page_simpl; page_done.
Qed.

Lemma shown_setAddressVisuals (c : OrderMap.Coords) (p : OrderMap.OrderPage) :
  OrderMap.placemark_shown p → OrderMap.placemark_shown (OrderMap.setAddressVisuals c p).2.
Proof.
  destruct p as [ty cls addr txt err [[geo log]|] [pm|] sc n gc al];
    page_simpl; page_done.
Qed.

Lemma shown_handleBuyingTypeChange (p : OrderMap.OrderPage) :
  OrderMap.placemark_shown p → OrderMap.placemark_shown (OrderMap.handleBuyingTypeChange p).2.
Proof.
  destruct p as [[ty|] [cls|] [addr|] [txt|] err [[geo log]|] [pm|] sc n gc al];
    page_simpl; page_done;
    destruct (bool_decide (ty = "self")); page_simpl; page_done;
    destruct (bool_decide (addr = OrderMap.SAFU_ADDRESS)); page_simpl; page_done.
Qed.

Lemma shown_handleSearchResult (raw : option string) (c : OrderMap.Coords)
    (p : OrderMap.OrderPage) :
  OrderMap.placemark_shown p →
  OrderMap.placemark_shown (OrderMap.handleSearchResult raw c p).2.
Proof.
  intros Hp. unfold OrderMap.handleSearchResult.
  destruct (OrderMap.searchControl p) eqn:Hs; [|done].
  cbn [OrderMap.block OrderMap.seq].
  pose proof (shown_setAddress (OrderMap.cleanAddressString raw) c 16 false p Hp) as H.
  unfold OrderMap.seq at 1.
  destruct (OrderMap.setAddress _ c 16 false p) as [[e|] p']; [done|].
  done.
Qed.

Lemma shown_dispatch (e : OrderMap.Event) (p : OrderMap.OrderPage) :
  OrderMap.placemark_shown p → OrderMap.placemark_shown (OrderMap.dispatch e p).
Proof.
  intros Hp. destruct e as [value|raw c|c|k first|c|]; cbn [OrderMap.dispatch].
  - destruct (OrderMap.id_buying_type p); [|done].
    by apply shown_handleBuyingTypeChange.
  - by apply shown_handleSearchResult.
  - unfold OrderMap.handleMapClick. by case_bool_decide.
  - unfold OrderMap.geocode_resolved.
    destruct (OrderMap.geocodes p !! k); [|done].
    by apply shown_setAddress.
  - by apply shown_setAddressVisuals.
  - unfold OrderMap.onsubmit. destruct (OrderMap.address p); [|done].
    case_bool_decide; [done|]. by destruct (_ && _).
Qed.

(** While a map lives, whatever the form and the map go through (changes of
    the buying type, search results, clicks, answers of the geocoder,
    submissions), the map shows the placemark the script holds in
    [window.placemarkInstance] and no other: never two placemarks, and none
    left behind once the script lets go of its own. *)
Theorem one_placemark (l : list OrderMap.Event) (p : OrderMap.OrderPage) :
  OrderMap.placemark_shown p → OrderMap.placemark_shown (OrderMap.run l p).
Proof.
  revert p. induction l as [|e l IH]; intros p Hp; [done|].
  cbn. apply IH. by apply shown_dispatch.
Qed.

Lemma one_placemark_witness :
  OrderMap.placemark_shown
    (OrderMap.run
       [OrderMap.MapClick (64.56%Q, 39.81%Q);
        OrderMap.GeocodeResolved 0 (Some (Some "Россия, Архангельская область, Северодвинск, улица Ломоносова, 81"));
        OrderMap.SearchResult (Some "Северодвинск, улица Мира, 1") (64.57%Q, 39.82%Q);
        OrderMap.Change "self"; OrderMap.Change "delivery"]
       OrderMap.delivery_page).
Proof. apply one_placemark. reflexivity. Defined.

Ltac page_all :=
  cbv [OrderMap.dispatch]; page_simpl.

(** Picking the pickup and then another buying type clears the form: on a
    page with the map and the form, the pickup puts the pickup point in the
    address field and in the visible text and dims the map; the type picked
    next empties the field, shows the placeholder, takes the placemark away
    and lights the map again.  The address the user had before is gone. *)
Theorem pickup_then_delivery (p : OrderMap.OrderPage) (value : string) :
  is_Some (OrderMap.id_buying_type p) →
  is_Some (OrderMap.map_classList p) →
  is_Some (OrderMap.address p) →
  is_Some (OrderMap.address_text p) →
  is_Some (OrderMap.myMapInstance p) →
  OrderMap.placemark_shown p →
  value ≠ "self" →
  let p1 := OrderMap.dispatch (OrderMap.Change "self") p in
  let p2 := OrderMap.dispatch (OrderMap.Change value) p1 in
  (OrderMap.address p1 = Some OrderMap.SAFU_ADDRESS ∧
   OrderMap.address_text p1 = Some OrderMap.SAFU_ADDRESS ∧
   (∃ pm, OrderMap.placemarkInstance p1 = Some pm ∧
          OrderMap.pm_coords pm = OrderMap.SAFU_COORDS) ∧
   ∃ cls, OrderMap.map_classList p1 = Some cls ∧
          "opacity-80" ∈ cls ∧ "pointer-events-none" ∈ cls) ∧
  (OrderMap.address p2 = Some EmptyString ∧
   OrderMap.address_text p2 = Some "Не выбран" ∧
   OrderMap.placemarkInstance p2 = None ∧
   (∃ m, OrderMap.myMapInstance p2 = Some m ∧ OrderMap.geoObjects m = []) ∧
   ∃ cls, OrderMap.map_classList p2 = Some cls ∧
          ("opacity-80" ∉ cls) ∧ "pointer-events-none" ∉ cls).
Proof.
  destruct p as [ty cls addr txt err m pm sc n gc al].
  cbn [OrderMap.id_buying_type OrderMap.map_classList OrderMap.address
       OrderMap.address_text OrderMap.myMapInstance].
  intros [ty' ->] [cls' ->] [addr' ->] [txt' ->] [[geo log] ->] Hshown Hvalue.
  revert Hshown. page_simpl. intros ->.
  assert (Hself : bool_decide ("self" = "self") = true) by done.
  assert (Hval : bool_decide (value = "self") = false) by (by apply bool_decide_eq_false_2).
  assert (Hsafu : bool_decide (OrderMap.SAFU_ADDRESS = OrderMap.SAFU_ADDRESS) = true)
    by (by apply bool_decide_eq_true_2).
  destruct pm as [pm|]; page_all; rewrite Hself; page_all; rewrite ?remove_only.
  - split.
    + split; [done|]. split; [done|]. split; [by eexists|].
      eexists. split; [done|]. rewrite !elem_of_add. tauto.
    + rewrite Hval. page_all. rewrite Hsafu. page_all. rewrite ?remove_only.
      split; [done|]. split; [done|]. split; [done|]. split; [by eexists|].
      eexists. split; [done|]. rewrite !elem_of_remove. tauto.
  - split.
    + split; [done|]. split; [done|]. split; [by eexists|].
      eexists. split; [done|]. rewrite !elem_of_add. tauto.
    + rewrite Hval. page_all. rewrite Hsafu. page_all. rewrite ?remove_only.
      split; [done|]. split; [done|]. split; [done|]. split; [by eexists|].
      eexists. split; [done|]. rewrite !elem_of_remove. tauto.
Qed.

Lemma pickup_then_delivery_witness :
  (OrderMap.address OrderMap.delivery_page_pickup = Some OrderMap.SAFU_ADDRESS ∧
   OrderMap.address_text OrderMap.delivery_page_pickup = Some OrderMap.SAFU_ADDRESS ∧
   (∃ pm, OrderMap.placemarkInstance OrderMap.delivery_page_pickup = Some pm ∧
          OrderMap.pm_coords pm = OrderMap.SAFU_COORDS) ∧
   ∃ cls, OrderMap.map_classList OrderMap.delivery_page_pickup = Some cls ∧
          "opacity-80" ∈ cls ∧ "pointer-events-none" ∈ cls) ∧
  (OrderMap.address OrderMap.delivery_page_back = Some EmptyString ∧
   OrderMap.address_text OrderMap.delivery_page_back = Some "Не выбран" ∧
   OrderMap.placemarkInstance OrderMap.delivery_page_back = None ∧
   (∃ m, OrderMap.myMapInstance OrderMap.delivery_page_back = Some m ∧ OrderMap.geoObjects m = []) ∧
   ∃ cls, OrderMap.map_classList OrderMap.delivery_page_back = Some cls ∧
          ("opacity-80" ∉ cls) ∧ "pointer-events-none" ∉ cls).
Proof.
  apply (pickup_then_delivery OrderMap.delivery_page "delivery").
  - by eexists.
  - by eexists.
  - by eexists.
  - by eexists.
  - by eexists.
  - reflexivity.
  - done.
Defined.

(** A change of the buying type to anything but the pickup leaves an address
    that is not the pickup point alone: the handler ends without an error,
    and the field, the visible text, the placemark and the objects on the
    map are what they were. *)
Theorem delivery_keeps_address (p : OrderMap.OrderPage) (value a : string) :
  value ≠ "self" →
  OrderMap.address p = Some a →
  a ≠ OrderMap.SAFU_ADDRESS →
  let r := OrderMap.handleBuyingTypeChange (OrderMap.set_id_buying_type (Some value) p) in
  r.1 = None ∧
  OrderMap.address r.2 = Some a ∧
  OrderMap.address_text r.2 = OrderMap.address_text p ∧
  OrderMap.placemarkInstance r.2 = OrderMap.placemarkInstance p ∧
  OrderMap.geoObjects <$> OrderMap.myMapInstance r.2 =
    OrderMap.geoObjects <$> OrderMap.myMapInstance p.
Proof.
  destruct p as [ty cls addr txt err m pm sc n gc al].
  cbn [OrderMap.address]. intros Hvalue -> Ha.
  assert (Hval : bool_decide (value = "self") = false) by (by apply bool_decide_eq_false_2).
  assert (Hsafu : bool_decide (a = OrderMap.SAFU_ADDRESS) = false)
    by (by apply bool_decide_eq_false_2).
  destruct m as [[geo log]|], cls as [cls|]; page_simpl; try done;
    rewrite Hval; page_simpl; rewrite Hsafu; done.
Qed.

Lemma delivery_keeps_address_witness :
  OrderMap.delivery_page_courier.1 = None ∧
  OrderMap.address OrderMap.delivery_page_courier.2 =
    Some "Северодвинск, улица Ломоносова, 81" ∧
  OrderMap.address_text OrderMap.delivery_page_courier.2 =
    OrderMap.address_text OrderMap.delivery_page ∧
  OrderMap.placemarkInstance OrderMap.delivery_page_courier.2 =
    OrderMap.placemarkInstance OrderMap.delivery_page ∧
  OrderMap.geoObjects <$> OrderMap.myMapInstance OrderMap.delivery_page_courier.2 =
    OrderMap.geoObjects <$> OrderMap.myMapInstance OrderMap.delivery_page.
Proof.
  apply (delivery_keeps_address OrderMap.delivery_page "courier"
           "Северодвинск, улица Ломоносова, 81").
  - done.
  - reflexivity.
  - done.
Defined.

(** ** The date of the order *)

Lemma remove_absent (t : string) (cl : list string) : t ∉ cl → remove t cl = cl.
Proof.
  unfold remove. induction cl as [|u cl IH]; [done|].
  intros [Hne Hn]%not_elem_of_cons.
  rewrite filter_cons_True by congruence. by rewrite IH.
Qed.

Lemma add_present (t : string) (cl : list string) : t ∈ cl → add t cl = cl.
Proof. intros H. unfold add, contains. by rewrite bool_decide_eq_true_2. Qed.

Lemma add_remove_add_remove (t u : string) (cl : list string) :
  t ≠ u → add t (remove u (add t (remove u cl))) = add t (remove u cl).
Proof.
  intros Hne. rewrite (remove_absent u).
  - apply add_present. rewrite elem_of_add. by left.
  - rewrite elem_of_add, elem_of_remove. intros [?|[? _]]; congruence.
Qed.

Lemma remove_add_remove_add (t u : string) (cl : list string) :
  t ≠ u → remove t (add u (remove t (add u cl))) = remove t (add u cl).
Proof.
  intros Hne. rewrite (add_present u).
  - apply remove_absent. rewrite elem_of_remove. intros [? _]. congruence.
  - rewrite elem_of_remove, elem_of_add. split; [congruence|by left].
Qed.

Lemma syncDateVisual_twice (w : OrderMap.DateWidgets) :
  OrderMap.syncDateVisual (OrderMap.syncDateVisual w) = OrderMap.syncDateVisual w.
Proof.
  destruct w as [[val|] [[text cl]|]]; try done.
  unfold OrderMap.syncDateVisual at 2.
  cbn [OrderMap.id_order_date OrderMap.date_text OrderMap.classList].
  case_bool_decide as Hval.
  - unfold OrderMap.syncDateVisual.
    cbn [OrderMap.id_order_date OrderMap.date_text OrderMap.classList].
    rewrite bool_decide_eq_true_2 by done.
    by rewrite remove_add_remove_add.
  - destruct (JS.split "-" val) as [|year [|month [|day rest]]] eqn:Hsplit;
      try (unfold OrderMap.syncDateVisual;
           cbn [OrderMap.id_order_date OrderMap.date_text OrderMap.classList];
           rewrite bool_decide_eq_false_2, Hsplit by done; done).
    destruct (negb (bool_decide (year = EmptyString)) &&
              negb (bool_decide (month = EmptyString)) &&
              negb (bool_decide (day = EmptyString))) eqn:Hparts;
      unfold OrderMap.syncDateVisual;
      cbn [OrderMap.id_order_date OrderMap.date_text OrderMap.classList];
      rewrite bool_decide_eq_false_2, Hsplit, Hparts by done; [|done].
    by rewrite add_remove_add_remove.
Qed.

Lemma syncDateVisual_id_order_date (w : OrderMap.DateWidgets) :
  OrderMap.id_order_date (OrderMap.syncDateVisual w) = OrderMap.id_order_date w.
Proof.
  destruct w as [[val|] [[text cl]|]]; try done.
  unfold OrderMap.syncDateVisual.
  cbn [OrderMap.id_order_date OrderMap.date_text].
  case_bool_decide; [done|].
  destruct (JS.split "-" val) as [|year [|month [|day rest]]]; try done.
  by destruct (_ && _).
Qed.

(** [syncDateVisual] run again changes nothing more, and it never touches
    the value of the field: the listener is registered for two events of the
    date field, and running for both is as good as running for one. *)
Theorem syncDateVisual_idempotent (w : OrderMap.DateWidgets) :
  OrderMap.syncDateVisual (OrderMap.syncDateVisual w) = OrderMap.syncDateVisual w ∧
  OrderMap.id_order_date (OrderMap.syncDateVisual w) = OrderMap.id_order_date w.
Proof. split; [apply syncDateVisual_twice|apply syncDateVisual_id_order_date]. Qed.

Lemma append_not_empty (a : ascii) (s t : string) : s +:+ String a t ≠ EmptyString.
Proof. by destruct s. Qed.

Lemma split_date (year month day : string) :
  "-"%char ∉ list_ascii_of_string year →
  "-"%char ∉ list_ascii_of_string month →
  "-"%char ∉ list_ascii_of_string day →
  JS.split "-" (year +:+ ("-" +:+ (month +:+ ("-" +:+ day)))) = [year; month; day].
Proof.
  intros Hy Hm Hd.
  change ("-" +:+ (month +:+ ("-" +:+ day))) with (String "-" (month +:+ String "-" day)).
  by rewrite !split_app, !split_no_sep.
Qed.

Lemma syncDateVisual_split (val year month day : string) (rest : list string)
    (dateText : OrderMap.DateText) :
  JS.split "-" val = year :: month :: day :: rest →
  year ≠ EmptyString → month ≠ EmptyString → day ≠ EmptyString →
  OrderMap.syncDateVisual
    {| OrderMap.id_order_date := Some val; OrderMap.date_text := Some dateText |} =
  {| OrderMap.id_order_date := Some val;
     OrderMap.date_text :=
       Some {| OrderMap.textContent := day +:+ ("." +:+ (month +:+ ("." +:+ year)));
               OrderMap.classList :=
                 add "text-black" (remove "text-gray-400" (OrderMap.classList dateText)) |} |}.
Proof.
  intros Hsplit Hy Hm Hd. unfold OrderMap.syncDateVisual.
  cbn [OrderMap.id_order_date OrderMap.date_text].
  assert (Hval : val ≠ EmptyString).
  { intros ->. cbn in Hsplit. congruence. }
  rewrite bool_decide_eq_false_2, Hsplit by done.
  by rewrite !bool_decide_eq_false_2 by done.
Qed.

(** A date [year-month-day] in the field, its three parts non-empty, is
    shown as [day.month.year], in black and no longer in gray; the field
    keeps its value. *)
Theorem syncDateVisual_format (w : OrderMap.DateWidgets) (dateText : OrderMap.DateText)
    (year month day : string) :
  OrderMap.id_order_date w = Some (year +:+ ("-" +:+ (month +:+ ("-" +:+ day)))) →
  OrderMap.date_text w = Some dateText →
  year ≠ EmptyString → month ≠ EmptyString → day ≠ EmptyString →
  "-"%char ∉ list_ascii_of_string year →
  "-"%char ∉ list_ascii_of_string month →
  "-"%char ∉ list_ascii_of_string day →
  OrderMap.id_order_date (OrderMap.syncDateVisual w) = OrderMap.id_order_date w ∧
  ∃ cl, OrderMap.date_text (OrderMap.syncDateVisual w) =
          Some {| OrderMap.textContent := day +:+ ("." +:+ (month +:+ ("." +:+ year)));
                  OrderMap.classList := cl |} ∧
        "text-black" ∈ cl ∧ ("text-gray-400" ∉ cl) ∧
        ∀ t, t ≠ "text-black" → t ≠ "text-gray-400" →
             t ∈ cl ↔ t ∈ OrderMap.classList dateText.
Proof.
  destruct w as [val text]. cbn [OrderMap.id_order_date OrderMap.date_text].
  intros -> -> Hy Hm Hd Hy' Hm' Hd'.
  rewrite (syncDateVisual_split _ year month day []) by (done || by apply split_date).
  split; [done|]. eexists. split; [done|].
  split; [rewrite elem_of_add; by left|].
  split; [rewrite elem_of_add, elem_of_remove; intros [?|[? _]]; congruence|].
  intros t Ht1 Ht2. rewrite elem_of_add, elem_of_remove. tauto.
Qed.

Lemma syncDateVisual_format_witness :
  OrderMap.id_order_date (OrderMap.syncDateVisual OrderMap.dated) =
    OrderMap.id_order_date OrderMap.dated ∧
  ∃ cl, OrderMap.date_text (OrderMap.syncDateVisual OrderMap.dated) =
          Some {| OrderMap.textContent := "05" +:+ ("." +:+ ("11" +:+ ("." +:+ "2026")));
                  OrderMap.classList := cl |} ∧
        "text-black" ∈ cl ∧ ("text-gray-400" ∉ cl) ∧
        ∀ t, t ≠ "text-black" → t ≠ "text-gray-400" →
             t ∈ cl ↔ t ∈ ["text-sm"; "text-gray-400"].
Proof.
  apply (syncDateVisual_format OrderMap.dated
           {| OrderMap.textContent := "Выберите дату";
              OrderMap.classList := ["text-sm"; "text-gray-400"] |}
           "2026" "11" "05").
  - reflexivity.
  - reflexivity.
  - done.
  - done.
  - done.
  - vm_compute. set_solver.
  - vm_compute. set_solver.
  - vm_compute. set_solver.
Defined.

Lemma pretty_N_char_no_dash (x : N) : pretty_N_char x ≠ "-"%char.
Proof. unfold pretty_N_char. by repeat case_match. Qed.

Lemma pretty_N_go_no_dash (x : N) (s : string) :
  "-"%char ∉ list_ascii_of_string s →
  "-"%char ∉ list_ascii_of_string (pretty_N_go x s).
Proof.
  revert s. induction (N.lt_wf_0 x) as [x _ IH]; intros s Hs.
  assert (x = 0 ∨ 0 < x)%N as [->|?] by lia.
  - by rewrite pretty_N_go_0.
  - rewrite pretty_N_go_step by done. apply IH.
    { by apply N.div_lt. }
    cbn. rewrite not_elem_of_cons. split; [|done].
    intros Heq. by apply (pretty_N_char_no_dash (x `mod` 10)%N).
Qed.

Lemma pretty_N_go_not_empty (x : N) (s : string) :
  s ≠ EmptyString → pretty_N_go x s ≠ EmptyString.
Proof.
  revert s. induction (N.lt_wf_0 x) as [x _ IH]; intros s Hs.
  assert (x = 0 ∨ 0 < x)%N as [->|?] by lia.
  - by rewrite pretty_N_go_0.
  - rewrite pretty_N_go_step by done. apply IH; [by apply N.div_lt|done].
Qed.

Lemma pretty_nat_digits (n : nat) :
  pretty n ≠ EmptyString ∧ "-"%char ∉ list_ascii_of_string (pretty n).
Proof.
  unfold pretty, pretty_nat, pretty, pretty_N.
  case_decide as Hn.
  - split; [done|]. vm_compute. set_solver.
  - split.
    + rewrite pretty_N_go_step by lia. by apply pretty_N_go_not_empty.
    + apply pretty_N_go_no_dash. cbn. apply not_elem_of_nil.
Qed.

Lemma list_ascii_of_string_of_list (l : list ascii) :
  list_ascii_of_string (string_of_list_ascii l) = l.
Proof. induction l as [|a l IH]; [done|]. cbn. by rewrite IH. Qed.

Lemma padStart_digits (s : string) :
  s ≠ EmptyString → "-"%char ∉ list_ascii_of_string s →
  JS.padStart 2 "0" s ≠ EmptyString ∧
  "-"%char ∉ list_ascii_of_string (JS.padStart 2 "0" s).
Proof.
  intros Hne Hs. unfold JS.padStart. split.
  - destruct s as [|a s]; [done|]. apply append_not_empty.
  - rewrite list_ascii_of_string_app, list_ascii_of_string_of_list.
    rewrite not_elem_of_app. split; [|done].
    intros [Heq _]%elem_of_replicate. discriminate.
Qed.

(** A form that comes without a date gets the one handed over by [Date], as
    [yyyy-mm-dd] with month and day padded to two digits, and shows it as
    [dd.mm.yyyy]. *)
Theorem init_date_default (year month date : nat) (w : OrderMap.DateWidgets)
    (dateText : OrderMap.DateText) :
  OrderMap.id_order_date w = Some EmptyString →
  OrderMap.date_text w = Some dateText →
  OrderMap.id_order_date (OrderMap.init_date year month date w) =
    Some (pretty year +:+
            ("-" +:+ (JS.padStart 2 "0" (pretty (month + 1)%nat) +:+
                        ("-" +:+ JS.padStart 2 "0" (pretty date))))) ∧
  OrderMap.textContent <$> OrderMap.date_text (OrderMap.init_date year month date w) =
    Some (JS.padStart 2 "0" (pretty date) +:+
            ("." +:+ (JS.padStart 2 "0" (pretty (month + 1)%nat) +:+
                        ("." +:+ pretty year)))).
Proof.
  destruct w as [val text]. cbn [OrderMap.id_order_date OrderMap.date_text].
  intros -> ->. unfold OrderMap.init_date.
  cbn [OrderMap.id_order_date OrderMap.date_text].
  rewrite bool_decide_eq_true_2 by done.
  destruct (pretty_nat_digits year) as [Hy Hy'].
  destruct (padStart_digits _ (proj1 (pretty_nat_digits (month + 1)))
              (proj2 (pretty_nat_digits (month + 1)))) as [Hm Hm'].
  destruct (padStart_digits _ (proj1 (pretty_nat_digits date))
              (proj2 (pretty_nat_digits date))) as [Hd Hd'].
  rewrite (syncDateVisual_split _ (pretty year)
             (JS.padStart 2 "0" (pretty (month + 1)%nat))
             (JS.padStart 2 "0" (pretty date)) [])
    by (done || by apply split_date).
  done.
Qed.

Lemma init_date_default_witness :
  OrderMap.id_order_date (OrderMap.init_date 2026 10 5 OrderMap.undated) =
    Some "2026-11-05" ∧
  OrderMap.textContent <$> OrderMap.date_text (OrderMap.init_date 2026 10 5 OrderMap.undated) =
    Some "05.11.2026".
Proof.
  exact (init_date_default 2026 10 5 OrderMap.undated
           {| OrderMap.textContent := "Выберите дату";
              OrderMap.classList := ["text-sm"; "text-gray-400"] |} eq_refl eq_refl).
Defined.

(** ** The listeners of the form *)

Lemma init_date_is_Some (year month date : nat) (w : OrderMap.DateWidgets) :
  is_Some (OrderMap.id_order_date (OrderMap.init_date year month date w)) ↔
  is_Some (OrderMap.id_order_date w).
Proof.
  unfold OrderMap.init_date.
  destruct (OrderMap.id_order_date w) as [val|] eqn:Hw; [|by rewrite Hw].
  case_bool_decide; rewrite syncDateVisual_id_order_date; cbn; [|by rewrite Hw].
  split; by eexists.
Qed.

Lemma add_new_closure (n : nat) :
  OrderMap.addEventListener (OrderMap.syncDateVisual_closure n)
    (OrderMap.removeEventListener (OrderMap.syncDateVisual_closure n)
       (OrderMap.syncDateVisual_closure <$> seq 0 n)) =
  OrderMap.syncDateVisual_closure <$> seq 0 (S n).
Proof.
  assert (Hn : OrderMap.syncDateVisual_closure n ∉
               OrderMap.syncDateVisual_closure <$> seq 0 n).
  { intros [k [[= <-] Hk]]%list_elem_of_fmap. apply elem_of_seq in Hk. lia. }
  assert (Hr : OrderMap.removeEventListener (OrderMap.syncDateVisual_closure n)
                 (OrderMap.syncDateVisual_closure <$> seq 0 n) =
               OrderMap.syncDateVisual_closure <$> seq 0 n).
  { unfold OrderMap.removeEventListener.
    induction (OrderMap.syncDateVisual_closure <$> seq 0 n) as [|h l IH]; [done|].
    apply not_elem_of_cons in Hn as [Hne Hn].
    rewrite filter_cons_True by congruence. by rewrite IH. }
  rewrite Hr. unfold OrderMap.addEventListener.
  rewrite bool_decide_eq_false_2 by done.
  by rewrite seq_S, fmap_app.
Qed.

Lemma registered_fresh (w : OrderMap.DateWidgets) (sel frm : bool) :
  OrderMap.registered w sel frm 0 (OrderMap.fresh_form w sel frm).
Proof.
  unfold OrderMap.registered. cbn.
  split; [done|]. split; [done|]. split; [done|].
  by destruct (OrderMap.id_order_date w).
Qed.

Lemma registered_initFormListeners (w : OrderMap.DateWidgets) (sel frm : bool)
    (n year month date : nat) (f : OrderMap.Form) :
  OrderMap.registered w sel frm n f →
  OrderMap.registered w sel frm (S n) (OrderMap.initFormListeners year month date f).
Proof.
  intros (Hruns & Hsome & Hsel & Hin & Hch & Hsub).
  unfold OrderMap.registered, OrderMap.initFormListeners.
  cbn [OrderMap.runs OrderMap.date_widgets OrderMap.select_change OrderMap.date_input
       OrderMap.date_change OrderMap.form_onsubmit].
  rewrite Hruns, Hsel, Hin, Hch, Hsub.
  split; [done|].
  split; [by rewrite init_date_is_Some|].
  split; [destruct sel; [|done]; by destruct n|].
  assert (Hlist :
    match OrderMap.id_order_date (OrderMap.date_widgets f) with
    | Some _ =>
        OrderMap.addEventListener (OrderMap.syncDateVisual_closure n)
          (OrderMap.removeEventListener (OrderMap.syncDateVisual_closure n)
             match OrderMap.id_order_date w with
             | Some _ => OrderMap.syncDateVisual_closure <$> seq 0 n
             | None => []
             end)
    | None => match OrderMap.id_order_date w with
              | Some _ => OrderMap.syncDateVisual_closure <$> seq 0 n
              | None => []
              end
    end =
    match OrderMap.id_order_date w with
    | Some _ => OrderMap.syncDateVisual_closure <$> seq 0 (S n)
    | None => []
    end).
  { destruct (OrderMap.id_order_date (OrderMap.date_widgets f)) as [v|],
      (OrderMap.id_order_date w) as [v'|]; try done.
    - apply add_new_closure.
    - destruct Hsome as [H _]. by destruct H.
    - destruct Hsome as [_ H]. by destruct H. }
  split; [exact Hlist|]. split; [exact Hlist|].
  by destruct frm.
Qed.

Lemma registered_times (w : OrderMap.DateWidgets) (sel frm : bool)
    (dates : list (nat * nat * nat)) (n : nat) (f : OrderMap.Form) :
  OrderMap.registered w sel frm n f →
  OrderMap.registered w sel frm (n + length dates)
    (OrderMap.initFormListeners_times dates f).
Proof.
  revert n f. induction dates as [|d dates IH]; intros n f Hf.
  - by rewrite Nat.add_0_r.
  - cbn. replace (n + S (length dates))%nat with (S n + length dates)%nat by lia.
    apply IH. by apply registered_initFormListeners.
Qed.

(** However often [initFormListeners] runs on the same form, the select has
    [handleBuyingTypeChange] once as its [change] listener and the form has
    the handler of the last run as [onsubmit]; the date field has one
    [syncDateVisual] for every run, as [input] and as [change] listener: the
    removal before the registration finds nothing to remove there. *)
Theorem initFormListeners_registered (dates : list (nat * nat * nat))
    (w : OrderMap.DateWidgets) (sel frm : bool) :
  OrderMap.registered w sel frm (length dates)
    (OrderMap.initFormListeners_times dates (OrderMap.fresh_form w sel frm)).
Proof. apply (registered_times w sel frm dates 0), registered_fresh. Qed.

Lemma run_closures (n : nat) (w : OrderMap.DateWidgets) :
  fold_left (fun w h => OrderMap.run_date_listener h w)
    (OrderMap.syncDateVisual_closure <$> seq 0 (S n)) w =
  OrderMap.syncDateVisual w.
Proof.
  induction n as [|n IH]; [done|].
  rewrite seq_S, fmap_app, fold_left_app, IH. cbn.
  apply syncDateVisual_twice.
Qed.

(** After any number of runs of [initFormListeners], one at least, a value
    given to the date field is shown as one run of [syncDateVisual] shows it,
    however many copies of the listener there are. *)
Theorem input_event_shown (dates : list (nat * nat * nat)) (w : OrderMap.DateWidgets)
    (sel frm : bool) (val : string) :
  dates ≠ [] →
  is_Some (OrderMap.id_order_date w) →
  OrderMap.date_widgets
    (OrderMap.input_event val
       (OrderMap.initFormListeners_times dates (OrderMap.fresh_form w sel frm))) =
  OrderMap.syncDateVisual
    {| OrderMap.id_order_date := Some val;
       OrderMap.date_text :=
         OrderMap.date_text
           (OrderMap.date_widgets
              (OrderMap.initFormListeners_times dates
                 (OrderMap.fresh_form w sel frm))) |}.
Proof.
  intros Hne Hw.
  destruct (registered_times w sel frm dates 0 _ (registered_fresh w sel frm))
    as (_ & Hsome & _ & Hin & _).
  unfold OrderMap.input_event. cbn [OrderMap.date_widgets].
  rewrite Hin. destruct Hw as [v Hv]. rewrite Hv.
  destruct (proj2 Hsome (ex_intro _ v Hv)) as [v' Hv']. rewrite Hv'.
  destruct dates as [|d dates]; [done|].
  cbn [length Nat.add]. by rewrite run_closures.
Qed.

Lemma input_event_shown_witness :
  OrderMap.date_widgets
    (OrderMap.input_event "2026-12-01"
       (OrderMap.initFormListeners_times [(2026, 10, 5); (2026, 10, 6)]%nat
          (OrderMap.fresh_form OrderMap.undated true true))) =
  OrderMap.syncDateVisual
    {| OrderMap.id_order_date := Some "2026-12-01";
       OrderMap.date_text :=
         OrderMap.date_text
           (OrderMap.date_widgets
              (OrderMap.initFormListeners_times [(2026, 10, 5); (2026, 10, 6)]%nat
                 (OrderMap.fresh_form OrderMap.undated true true))) |}.
Proof.
  apply (input_event_shown [(2026, 10, 5); (2026, 10, 6)]%nat OrderMap.undated true true
           "2026-12-01").
  - done.
  - by eexists.
Defined.

(** When the geocoder has no object for a click, the words of the fallback
    become the address: they go into the field as any address would, with a
    placemark at the place of the click, and the form can be submitted with
    them, since [onsubmit] only asks for a non-empty address. *)
Theorem geocode_not_found (p : OrderMap.OrderPage) (k : nat) (coords : OrderMap.Coords)
    (a : string) :
  OrderMap.geocodes p !! k = Some coords →
  OrderMap.address p = Some a →
  is_Some (OrderMap.myMapInstance p) →
  (OrderMap.address (OrderMap.dispatch (OrderMap.GeocodeResolved k None) p) =
     Some "Адрес не найден") ∧
  OrderMap.geocodes (OrderMap.dispatch (OrderMap.GeocodeResolved k None) p) =
    delete k (OrderMap.geocodes p) ∧
  (∃ pm, OrderMap.placemarkInstance (OrderMap.dispatch (OrderMap.GeocodeResolved k None) p) =
           Some pm ∧ OrderMap.pm_coords pm = coords) ∧
  (OrderMap.onsubmit (OrderMap.dispatch (OrderMap.GeocodeResolved k None) p)).1 =
    (None, false).
Proof.
  destruct p as [ty cls addr txt err m pm sc n gc al].
  cbn [OrderMap.geocodes OrderMap.address OrderMap.myMapInstance].
  intros Hk -> [[geo log] ->].
  assert (Hclean : OrderMap.cleanAddressString (Some "Адрес не найден") = "Адрес не найден")
    by (vm_compute; reflexivity).
  cbv [OrderMap.dispatch OrderMap.geocode_resolved OrderMap.geocodes].
  rewrite Hk, Hclean.
  destruct pm as [pm|]; page_simpl.
  - split; [done|]. split; [done|]. split; [by eexists|].
    unfold OrderMap.onsubmit. cbn [OrderMap.address].
    rewrite bool_decide_eq_false_2 by done. by destruct (_ && _).
  - split; [done|]. split; [done|]. split; [by eexists|].
    unfold OrderMap.onsubmit. cbn [OrderMap.address].
    rewrite bool_decide_eq_false_2 by done. by destruct (_ && _).
Qed.

Lemma geocode_not_found_witness :
  (OrderMap.address
     (OrderMap.dispatch (OrderMap.GeocodeResolved 0 None) OrderMap.delivery_page_clicked) =
     Some "Адрес не найден") ∧
  OrderMap.geocodes
    (OrderMap.dispatch (OrderMap.GeocodeResolved 0 None) OrderMap.delivery_page_clicked) =
    delete 0%nat (OrderMap.geocodes OrderMap.delivery_page_clicked) ∧
  (∃ pm, OrderMap.placemarkInstance
           (OrderMap.dispatch (OrderMap.GeocodeResolved 0 None)
              OrderMap.delivery_page_clicked) = Some pm ∧
         OrderMap.pm_coords pm = (64.56%Q, 39.81%Q)) ∧
  (OrderMap.onsubmit
     (OrderMap.dispatch (OrderMap.GeocodeResolved 0 None) OrderMap.delivery_page_clicked)).1 =
    (None, false).
Proof.
  apply (geocode_not_found OrderMap.delivery_page_clicked 0 (64.56%Q, 39.81%Q)
           "Северодвинск, улица Ломоносова, 81").
  - reflexivity.
  - reflexivity.
  - by eexists.
Defined.
